(** * URL safety checker: the server of [server/src/index.js]

    A shallow embedding of the three asynchronous functions of the server
    ([checkUrlSafety], [checkRedirects], the [POST /check-urls] handler),
    of the process-wide cache they share, and of the way JavaScript
    interleaves them, followed by the properties of the specification. *)

From Stdlib Require Import ZArith String List Bool Lia.
From stdpp Require Import base option list gmap strings pretty.
From Equations Require Import Equations.

Import ListNotations.
Set Warnings "-register-all".
Local Open Scope string_scope.
Local Open Scope list_scope.
Local Open Scope Z_scope.

(** ** JavaScript values of the request body *)

(** The body of the request is parsed JSON; [JUndefined] stands for a
    field that is absent.  Numbers are the integers. *)
Inductive jsval : Type :=
| JUndefined
| JNull
| JBool (b : bool)
| JNum (n : Z)
| JStr (s : string)
| JArr (items : list jsval)
| JObj (fields : list (string * jsval)).

(** [String(v)], the coercion of template literals, of
    [encodeURIComponent] and of the [URL] constructor.  Inside an array,
    [null] and [undefined] print as the empty string. *)
Fixpoint to_string (v : jsval) : string :=
  match v with
  | JUndefined => "undefined"
  | JNull => "null"
  | JBool true => "true"
  | JBool false => "false"
  | JNum n => pretty n
  | JStr s => s
  | JArr items =>
      let item (x : jsval) : string :=
        match x with
        | JUndefined | JNull => ""
        | _ => to_string x
        end in
      (fix join (l : list jsval) : string :=
         match l with
         | [] => ""
         | [x] => item x
         | x :: rest => item x +:+ "," +:+ join rest
         end) items
  | JObj _ => "[object Object]"
  end.

(** [!v] is false exactly on the truthy values. *)
Definition truthy (v : jsval) : bool :=
  match v with
  | JUndefined | JNull | JBool false | JNum 0 | JStr "" => false
  | _ => true
  end.

(** [Array.isArray(v)] *)
Definition isArray (v : jsval) : bool :=
  match v with
  | JArr _ => true
  | _ => false
  end.

(** ** Result objects *)

Module Safety.
(** The object returned by [checkUrlSafety], and the small
    [final_url_safety] objects.  A field that the object does not have
    is [None]. *)
Record t : Type := mk {
  status : string;
  message : option string;
  positives : option Z;
  total_scans : option Z;
}.

Definition error (msg : string) : t :=
  {| status := "error"; message := Some msg;
     positives := None; total_scans := None |}.

Definition only (st : string) : t :=
  {| status := st; message := None;
     positives := None; total_scans := None |}.
End Safety.

Module Redirect.
(** The object returned by [checkRedirects]. *)
Record t : Type := mk {
  status : string;
  message : option string;
  redirect_chain : list jsval;
  status_codes : list Z;
  final_url_safety : Safety.t;
}.
End Redirect.

(** What the cache holds in the [data] field of an entry: the one [Map]
    of the server stores the results of both functions. *)
Inductive cached : Type :=
| DSafety (r : Safety.t)
| DRedirect (r : Redirect.t).

Record entry : Type := mkEntry {
  data : cached;
  timestamp : Z;
}.

Definition CACHE_TTL : Z := 24 * 60 * 60 * 1000.

(** ** The outside world *)

(** A request of axios. *)
Inductive request : Type :=
| Post (endpoint body : string)
| Get (target : jsval).

(** The report of the scanning service, [reportResponse.data]: its fields
    are integers when they are present. *)
Record report : Type := mkReport {
  response_code : option Z;
  rep_positives : option Z;
  rep_total : option Z;
}.

Definition no_report : report :=
  {| response_code := None; rep_positives := None; rep_total := None |}.

(** The part of an axios response that the server reads. *)
Record response : Type := mkResponse {
  resp_status : Z;
  location : option string;
  resp_data : report;
}.

(** A call of axios either rejects with an error ([e.message]) or resolves
    with a response.  An exception raised while the reply is read counts as
    a rejection. *)
Inductive outcome : Type :=
| Threw (msg : string)
| Resp (r : response).

(** ** Programs *)

(** The effects of the server.  The first five are synchronous; the calls
    of axios and the timer are the points where an [async] function
    suspends. *)
Inductive eff : Type -> Type :=
| CacheLookup (key : string) : eff (option entry)
| CacheDelete (key : string) : eff unit
| CacheSet (key : string) (e : entry) : eff unit
| DateNow : eff Z
| ConsoleLog : eff unit
| Axios (r : request) : eff outcome
| Sleep (ms : Z) : eff unit.

Definition suspends {X} (e : eff X) : bool :=
  match e with
  | Axios _ | Sleep _ => true
  | _ => false
  end.

Inductive prog (A : Type) : Type :=
| Ret (a : A)
| Vis {X : Type} (e : eff X) (k : X -> prog A).

Arguments Ret {A} a.
Arguments Vis {A X} e k.

Fixpoint bind {A B} (p : prog A) (f : A -> prog B) : prog B :=
  match p with
  | Ret a => f a
  | Vis e k => Vis e (fun x => bind (k x) f)
  end.

Definition trigger {X} (e : eff X) : prog X := Vis e Ret.

Declare Scope prog_scope.
Delimit Scope prog_scope with prog.
Notation "'let*' x ':=' p 'in' q" := (bind p (fun x => q))
  (at level 10, x name, p at level 100, q at level 200) : prog_scope.
Notation "p >> q" := (bind p (fun _ => q))
  (at level 90, right associativity) : prog_scope.
Local Open Scope prog_scope.

(** ** The runtime *)

(** The configuration and the built-in functions of the JavaScript runtime
    that the server calls.  A function that can throw returns [inl] of the
    message of the exception. *)
Record runtime : Type := mkRuntime {
  VIRUSTOTAL_API_KEY : string;
  encodeURIComponent : string -> string + string;
  (** [new URL(url).hostname] *)
  url_hostname : string -> string + string;
  (** [new URL(location, base).toString()] *)
  url_resolve : string -> string -> string + string;
}.

Section Server.

Context (R : runtime).

(** ** [checkUrlSafety] *)

(** Lines 21-27 and 64-70: the read of the cache, with the lazy removal of
    an entry that is too old.  [cache.has] and [cache.get] are one lookup. *)
Definition cache_read (cacheKey : string) : prog (option cached) :=
  let* hit := trigger (CacheLookup cacheKey) in
  match hit with
  | Some cached =>
      let* now := trigger DateNow in
      if now - timestamp cached <? CACHE_TTL
      then Ret (Some (data cached))
      else trigger (CacheDelete cacheKey) >> Ret None
  | None => Ret None
  end.

(** [v || 0] on a field that is an integer or absent. *)
Definition or_zero (v : option Z) : Z :=
  match v with
  | Some n => n
  | None => 0
  end.

(** [v === n] *)
Definition strict_eq (v : option Z) (n : Z) : bool :=
  match v with
  | Some m => m =? n
  | None => false
  end.

(** [v > 0]: an absent field is [undefined], and [undefined > 0] is false. *)
Definition gt_zero (v : option Z) : bool :=
  match v with
  | Some m => 0 <? m
  | None => false
  end.

(** Lines 46-50. *)
Definition scan_result (reportData : report) : Safety.t :=
  {| Safety.status :=
       if strict_eq (rep_positives reportData) 0 then "safe" else "unsafe";
     Safety.message := None;
     Safety.positives := Some (or_zero (rep_positives reportData));
     Safety.total_scans := Some (or_zero (rep_total reportData)) |}.

Definition scan_endpoint : string :=
  "https://www.virustotal.com/vtapi/v2/url/scan".

Definition scan_body (enc : string) : string :=
  "apikey=" +:+ VIRUSTOTAL_API_KEY R +:+ "&url=" +:+ enc.

Definition report_url (enc : string) : string :=
  "https://www.virustotal.com/vtapi/v2/url/report?apikey="
    +:+ VIRUSTOTAL_API_KEY R +:+ "&resource=" +:+ enc.

(** Lines 39-56: the loop [for (let i = 0; i < 5; i++)], by recursion on
    the number of attempts that are left. *)
Fixpoint poll (attempts : nat) (cacheKey enc : string) : prog Safety.t :=
  match attempts with
  | O => Ret (Safety.error "No scan results available")
  | S attempts' =>
      let* o := trigger (Axios (Get (JStr (report_url enc)))) in
      match o with
      | Threw msg => Ret (Safety.error msg)
      | Resp reportResponse =>
          let reportData := resp_data reportResponse in
          if strict_eq (response_code reportData) 1 then
            let result := scan_result reportData in
            let* now := trigger DateNow in
            trigger (CacheSet cacheKey {| data := DSafety result; timestamp := now |}) >>
            Ret result
          else
            trigger (Sleep 1000) >>
            poll attempts' cacheKey enc
      end
  end.

(** Lines 29-59: the [try] block. *)
Definition scan (url : jsval) (cacheKey : string) : prog Safety.t :=
  match encodeURIComponent R (to_string url) with
  | inl msg => Ret (Safety.error msg)
  | inr enc =>
      let* o := trigger (Axios (Post scan_endpoint (scan_body enc))) in
      match o with
      | Threw msg => Ret (Safety.error msg)
      | Resp scanResponse =>
          if negb (resp_status scanResponse =? 200) then
            Ret (Safety.error ("API error: " +:+ pretty (resp_status scanResponse)))
          else poll 5 cacheKey enc
      end
  end.

(** The object of a cache entry read as a safety result.  The keys of
    [checkRedirects] never coincide with those of [checkUrlSafety]
    ([safety_key_not_redirect_key]), so the second case is not met. *)
Definition as_safety (d : cached) : Safety.t :=
  match d with
  | DSafety r => r
  | DRedirect r =>
      {| Safety.status := Redirect.status r;
         Safety.message := Redirect.message r;
         Safety.positives := None; Safety.total_scans := None |}
  end.

Definition safety_key (url : jsval) : string := "safety:" +:+ to_string url.

Definition checkUrlSafety (url : jsval) : prog Safety.t :=
  let cacheKey := safety_key url in
  let* hit := cache_read cacheKey in
  match hit with
  | Some d => Ret (as_safety d)
  | None => scan url cacheKey
  end.

(** ** [checkRedirects] *)

(** The local variables of the traversal when it ends: by an exception, or
    by leaving the loop. *)
Inductive traversal : Type :=
| Thrown (msg : string) (redirectChain : list jsval) (statusCodes : list Z)
| Arrived (redirectChain : list jsval) (statusCodes : list Z).

(** The condition of the [while] of line 90. *)
Definition redirecting (response : response) (redirectChain : list jsval) : bool :=
  (300 <=? resp_status response) && (resp_status response <? 400)
  && match location response with
     | Some loc => negb (String.eqb loc "")
     | None => false
     end
  && (length redirectChain <=? 3)%nat.

Definition location_of (response : response) : string :=
  match location response with
  | Some loc => loc
  | None => ""
  end.

(** Lines 90-95. *)
Equations? follow (currentUrl : jsval) (redirectChain : list jsval)
    (statusCodes : list Z) (response : response) : prog traversal
    by wf (4 - length redirectChain)%nat lt :=
  follow currentUrl redirectChain statusCodes response
    with Equations.Prop.Logic.inspect (redirecting response redirectChain) := {
    | exist _ true Hloop =>
        match url_resolve R (location_of response) (to_string currentUrl) with
        | inl msg => Ret (Thrown msg redirectChain statusCodes)
        | inr next =>
            Vis (Axios (Get (JStr next))) (fun o =>
              match o with
              | Threw msg =>
                  Ret (Thrown msg (redirectChain ++ [JStr next]) statusCodes)
              | Resp response' =>
                  follow (JStr next) (redirectChain ++ [JStr next])
                    (statusCodes ++ [resp_status response']) response'
              end)
        end
    | exist _ false Hloop => Ret (Arrived redirectChain statusCodes)
    }.
Proof.
  unfold redirecting in Hloop.
  rewrite !andb_true_iff in Hloop.
  destruct Hloop as [_ Hlen]. apply Nat.leb_le in Hlen.
  rewrite length_app. simpl. lia.
Qed.

(** Lines 81-95. *)
Definition traverse (url : jsval) : prog traversal :=
  let* o := trigger (Axios (Get url)) in
  match o with
  | Threw msg => Ret (Thrown msg [url] [])
  | Resp response => follow url [url] [resp_status response] response
  end.

(** The object of a cache entry read as a redirect result; as for
    [as_safety], the first case is not met. *)
Definition as_redirect (d : cached) : Redirect.t :=
  match d with
  | DRedirect r => r
  | DSafety r =>
      {| Redirect.status := Safety.status r;
         Redirect.message := Safety.message r;
         Redirect.redirect_chain := []; Redirect.status_codes := [];
         Redirect.final_url_safety := Safety.only "undefined" |}
  end.

Definition redirect_key (url : jsval) : string := "redirect:" +:+ to_string url.

(** Lines 127-134: the object built by the [catch]. *)
Definition redirect_error (url : jsval) (msg : string) : Redirect.t :=
  {| Redirect.status := "error";
     Redirect.message := Some msg;
     Redirect.redirect_chain := [url];
     Redirect.status_codes := [];
     Redirect.final_url_safety := Safety.only "error" |}.

(** Lines 100-120. *)
Definition classify (redirectChain : list jsval) (statusCodes : list Z)
    : prog Redirect.t :=
  if (1 <? length redirectChain)%nat then
    let* finalUrlSafety := checkUrlSafety (List.last redirectChain JUndefined) in
    let isFinalMalicious :=
      String.eqb (Safety.status finalUrlSafety) "unsafe"
      && gt_zero (Safety.positives finalUrlSafety) in
    Ret {| Redirect.status := if isFinalMalicious then "suspicious" else "clean";
           Redirect.message := None;
           Redirect.redirect_chain := redirectChain;
           Redirect.status_codes := statusCodes;
           Redirect.final_url_safety := finalUrlSafety |}
  else
    Ret {| Redirect.status := "clean";
           Redirect.message := None;
           Redirect.redirect_chain := redirectChain;
           Redirect.status_codes := statusCodes;
           Redirect.final_url_safety := Safety.only "no_redirect" |}.

(** Lines 72-137: the [try] block and its [catch]. *)
Definition resolve (url : jsval) (cacheKey : string) : prog Redirect.t :=
  let* t := traverse url in
  match t with
  | Thrown msg _ _ =>
      let result := redirect_error url msg in
      trigger ConsoleLog >>
      Ret result
  | Arrived redirectChain statusCodes =>
      trigger ConsoleLog >>
      let* result := classify redirectChain statusCodes in
      trigger ConsoleLog >>
      let* now := trigger DateNow in
      trigger (CacheSet cacheKey {| data := DRedirect result; timestamp := now |}) >>
      Ret result
  end.

Definition checkRedirects (url : jsval) : prog Redirect.t :=
  let cacheKey := redirect_key url in
  let* hit := cache_read cacheKey in
  match hit with
  | Some d => Ret (as_redirect d)
  | None => resolve url cacheKey
  end.

(** ** The handler of [POST /check-urls] *)

(** The object returned by [validateUrlStructure]. *)
Inductive structure : Type :=
| Valid (domain : string)
| Invalid (message : string) (redirect_chain : list jsval)
    (status_codes : list Z) (final_url_safety : Safety.t).

Definition validateUrlStructure (url : jsval) : structure :=
  match url_hostname R (to_string url) with
  | inr hostname => Valid hostname
  | inl _ => Invalid "Invalid URL format" [url] [] (Safety.only "invalid")
  end.

Record UrlCheckResult : Type := mkResult {
  url : jsval;
  url_structure : structure;
  safety : Safety.t;
  redirects : Redirect.t;
}.

(** Lines 165-176. *)
Definition invalid_result (url : jsval) (structure : structure) : UrlCheckResult :=
  {| url := url;
     url_structure := structure;
     safety := Safety.error "Invalid URL";
     redirects :=
       {| Redirect.status := "error";
          Redirect.message := Some "Invalid URL";
          Redirect.redirect_chain := [url];
          Redirect.status_codes := [];
          Redirect.final_url_safety := Safety.only "invalid" |} |}.

(** One element of [urls.map(async (url) => ...)]: the task of one URL.
    It has settled, or it waits for the two promises of its
    [Promise.all]. *)
Inductive task : Type :=
| Settled (result : UrlCheckResult)
| Joining (url : jsval) (structure : structure)
    (safety : prog Safety.t) (redirects : prog Redirect.t).

(** Lines 162-185, up to the calls of the two functions. *)
Definition start (url : jsval) : task :=
  let structure := validateUrlStructure url in
  match structure with
  | Invalid _ _ _ _ => Settled (invalid_result url structure)
  | Valid _ => Joining url structure (checkUrlSafety url) (checkRedirects url)
  end.

End Server.

(** ** Execution *)

(** The state of the process: the cache, the requests sent so far and the
    number of times the clock was read.  [sent] has one entry for each
    call of [axios.post], [axios.get] or [axiosInstance.get]; the requests
    that the client sends on its own while it follows a redirect are not
    in it. *)
Record world : Type := mkWorld {
  cache : gmap string entry;
  sent : list request;
  reads : nat;
}.

(** The world at the start of the process (line 8). *)
Definition boot : world := {| cache := ∅; sent := []; reads := 0 |}.

(** The behaviour of everything outside the process: the outcome of the
    [n]-th request, and the value of the [n]-th [Date.now()]. *)
Record outside : Type := mkOutside {
  http : nat -> request -> outcome;
  clock : nat -> Z;
}.

Section Execution.

Context (N : outside).

Definition exec {X} (e : eff X) (w : world) : X * world :=
  match e in eff X return X * world with
  | CacheLookup key => (cache w !! key, w)
  | CacheDelete key =>
      (tt, {| cache := delete key (cache w); sent := sent w; reads := reads w |})
  | CacheSet key e =>
      (tt, {| cache := <[key := e]> (cache w); sent := sent w; reads := reads w |})
  | DateNow =>
      (clock N (reads w),
       {| cache := cache w; sent := sent w; reads := S (reads w) |})
  | ConsoleLog => (tt, w)
  | Axios r =>
      (http N (length (sent w)) r,
       {| cache := cache w; sent := sent w ++ [r]; reads := reads w |})
  | Sleep _ => (tt, w)
  end.

(** A program run from start to end with nothing else in between. *)
Fixpoint run {A} (p : prog A) (w : world) : A * world :=
  match p with
  | Ret a => (a, w)
  | Vis e k => let (x, w') := exec e w in run (k x) w'
  end.

(** *** Interleaving

    An [async] function runs without interruption up to its next [await]
    of a request or of the timer; when the awaited event completes, it is
    resumed and runs up to the next one.  A request is accounted for in
    [sent] when its outcome is delivered. *)

Fixpoint advance {A} (p : prog A) (w : world) : prog A * world :=
  match p with
  | Ret a => (Ret a, w)
  | Vis e k =>
      if suspends e then (Vis e k, w)
      else let (x, w') := exec e w in advance (k x) w'
  end.

Definition resume {A} (p : prog A) (w : world) : prog A * world :=
  match p with
  | Ret a => (Ret a, w)
  | Vis e k => let (x, w') := exec e w in advance (k x) w'
  end.

Context (R : runtime).

(** Line 184: the task settles when both promises of its [Promise.all]
    have resolved. *)
Definition settle (t : task) : task :=
  match t with
  | Joining url structure (Ret safety) (Ret redirects) =>
      Settled {| url := url; url_structure := structure;
                 safety := safety; redirects := redirects |}
  | _ => t
  end.

(** Lines 162-182 for one element: the body of the [async] arrow function
    runs up to its [await]; [checkUrlSafety(url)] is called first. *)
Definition spawn (url : jsval) (w : world) : task * world :=
  match start R url with
  | Settled result => (Settled result, w)
  | Joining url structure safety redirects =>
      let (safety', w1) := advance safety w in
      let (redirects', w2) := advance redirects w1 in
      (settle (Joining url structure safety' redirects'), w2)
  end.

(** [urls.map(async (url) => ...)]: one task per element, in order. *)
Fixpoint spawn_all (urls : list jsval) (w : world) : list task * world :=
  match urls with
  | [] => ([], w)
  | url :: rest =>
      let (t, w1) := spawn url w in
      let (ts, w2) := spawn_all rest w1 in
      (t :: ts, w2)
  end.

(** Which of the two calls of a task is resumed. *)
Inductive side : Type := SafetyCall | RedirectsCall.

Definition step_task (s : side) (t : task) (w : world) : task * world :=
  match t with
  | Settled _ => (t, w)
  | Joining url structure safety redirects =>
      match s with
      | SafetyCall =>
          let (safety', w') := resume safety w in
          (settle (Joining url structure safety' redirects), w')
      | RedirectsCall =>
          let (redirects', w') := resume redirects w in
          (settle (Joining url structure safety redirects'), w')
      end
  end.

(** The order in which awaited events complete: each element names the
    slot of a task and the call of that task that is resumed.  The slot of
    a task is its position in [urls]. *)
Definition schedule : Type := list (nat * side).

Fixpoint interleave (sched : schedule) (tasks : list task) (w : world)
    : list task * world :=
  match sched with
  | [] => (tasks, w)
  | (i, s) :: rest =>
      match tasks !! i with
      | Some t =>
          let (t', w') := step_task s t w in
          interleave rest (<[i := t']> tasks) w'
      | None => interleave rest tasks w
      end
  end.

(** The tasks that a schedule leaves unsettled are completed one after the
    other: [Promise.all] resolves only when every task has settled. *)
Definition finish (t : task) (w : world) : UrlCheckResult * world :=
  match t with
  | Settled result => (result, w)
  | Joining url structure safety redirects =>
      let (safety', w1) := run safety w in
      let (redirects', w2) := run redirects w1 in
      ({| url := url; url_structure := structure;
          safety := safety'; redirects := redirects' |}, w2)
  end.

Fixpoint finish_all (tasks : list task) (w : world)
    : list UrlCheckResult * world :=
  match tasks with
  | [] => ([], w)
  | t :: rest =>
      let (r, w1) := finish t w in
      let (rs, w2) := finish_all rest w1 in
      (r :: rs, w2)
  end.

(** The reply of the handler. *)
Inductive reply : Type :=
| Status400 (error : string)
| Status200 (results : list UrlCheckResult).

(** The elements of [urls], when it is an array. *)
Definition elements (urls : jsval) : list jsval :=
  match urls with
  | JArr items => items
  | _ => []
  end.

(** Lines 155-189.  [urls] is the field of that name of the body of the
    request. *)
Definition handler (sched : schedule) (urls : jsval) (w : world)
    : reply * world :=
  if negb (truthy urls) || negb (isArray urls) then
    (Status400 "Invalid input: URLs must be an array", w)
  else
    let (tasks, w1) := spawn_all (elements urls) w in
    let (tasks', w2) := interleave sched tasks w1 in
    let (results, w3) := finish_all tasks' w2 in
    (Status200 results, w3).

End Execution.

Arguments safety_key : simpl never.
Arguments redirect_key : simpl never.
Arguments scan_endpoint : simpl never.
Arguments scan_body : simpl never.
Arguments report_url : simpl never.
Arguments CACHE_TTL : simpl never.

(** ** Reachable states of the server *)

Section Reachability.

Context (N : outside) (R : runtime).

(** The state of the server: the world and the tasks of the requests that
    are in progress.  A request is handled from start to end, under some
    schedule of its own tasks; or, when requests overlap, a request with an
    array spawns its tasks, and the completion of an awaited event resumes
    one call of one task. *)
Inductive reachable : world -> list task -> Prop :=
| reach_boot : reachable boot []
| reach_handled (sched : schedule) (urls : jsval) (w : world) (pool : list task) :
    reachable w pool ->
    reachable (snd (handler N R sched urls w)) pool
| reach_request (urls : list jsval) (w : world) (pool : list task) :
    reachable w pool ->
    reachable (snd (spawn_all N R urls w)) (pool ++ fst (spawn_all N R urls w))
| reach_resume (i : nat) (s : side) (t : task) (w : world) (pool : list task) :
    reachable w pool ->
    pool !! i = Some t ->
    reachable (snd (step_task N s t w)) (<[i := fst (step_task N s t w)]> pool).

End Reachability.

(** ** Invariants *)

(** [isFinalMalicious], read off a result. *)
Definition flagged (r : Redirect.t) : bool :=
  (1 <? length (Redirect.redirect_chain r))%nat
  && String.eqb (Safety.status (Redirect.final_url_safety r)) "unsafe"
  && gt_zero (Safety.positives (Redirect.final_url_safety r)).

(** What holds of every result of [checkRedirects]. *)
Definition redirect_ok (r : Redirect.t) : Prop :=
  (length (Redirect.redirect_chain r) <= 4)%nat
  /\ (Redirect.status r = "error"
      \/ Redirect.status r = if flagged r then "suspicious" else "clean").

(** What holds of the chain when the traversal ends. *)
Definition traversal_ok (t : traversal) : Prop :=
  match t with
  | Arrived redirectChain _ => (length redirectChain <= 4)%nat
  | Thrown _ _ _ => True
  end.

(** The bound of the specification on the hops of a result:
    [len(redirect_chain) - 1 <= 3]. *)
Definition hop_bound (r : Redirect.t) : Prop :=
  (length (Redirect.redirect_chain r) - 1 <= 3)%nat.

(** A redirect occurred, and the safety result of the last URL has status
    [unsafe] and a positive count. *)
Definition redirected_to_unsafe (r : Redirect.t) : Prop :=
  (1 < length (Redirect.redirect_chain r))%nat
  /\ Safety.status (Redirect.final_url_safety r) = "unsafe"
  /\ exists n, Safety.positives (Redirect.final_url_safety r) = Some n /\ 0 < n.

(** The law of classification of the specification, for a result that is
    not an error. *)
Definition classification_law (r : Redirect.t) : Prop :=
  Redirect.status r <> "error" ->
  (Redirect.status r = "suspicious" <-> redirected_to_unsafe r)
  /\ (~ redirected_to_unsafe r -> Redirect.status r = "clean").

(** What holds of every entry of the cache: the keys of the two functions
    are apart, and an entry of [checkRedirects] holds one of its results. *)
Definition entry_ok (key : string) (e : entry) : Prop :=
  match data e with
  | DSafety _ => exists u, key = safety_key u
  | DRedirect r => (exists u, key = redirect_key u) /\ redirect_ok r
  end.

Definition cache_ok (c : gmap string entry) : Prop :=
  forall key e, c !! key = Some e -> entry_ok key e.

(** What a program may assume of the answer to an effect, and what it must
    ensure when it performs one. *)
Definition rely {X} (e : eff X) : X -> Prop :=
  match e in eff X return X -> Prop with
  | CacheLookup key => fun x =>
      match x with
      | Some en => entry_ok key en
      | None => True
      end
  | _ => fun _ => True
  end.

Definition guar {X} (e : eff X) : Prop :=
  match e with
  | CacheSet key en => entry_ok key en
  | _ => True
  end.

(** [wp p Q]: whatever the answers, [p] only stores good entries and
    returns a value that satisfies [Q]. *)
Fixpoint wp {A} (p : prog A) (Q : A -> Prop) : Prop :=
  match p with
  | Ret a => Q a
  | Vis e k => guar e /\ forall x, rely e x -> wp (k x) Q
  end.

Definition task_ok (t : task) : Prop :=
  match t with
  | Settled result => redirect_ok (redirects result)
  | Joining _ _ safety redirects =>
      wp safety (fun _ => True) /\ wp redirects redirect_ok
  end.

Definition is_settled (t : task) : bool :=
  match t with
  | Settled _ => true
  | Joining _ _ _ _ => false
  end.

(** The URL that a task carries. *)
Definition task_url (t : task) : jsval :=
  match t with
  | Settled result => url result
  | Joining url _ _ _ => url
  end.

(** The world after the read that removes the entry of [key]. *)
Definition evicted (key : string) (w : world) : world :=
  {| cache := delete key (cache w); sent := sent w; reads := S (reads w) |}.

(** The key under which each of the two functions stores its result. *)
Definition key_of (s : side) (url : jsval) : string :=
  match s with
  | SafetyCall => safety_key url
  | RedirectsCall => redirect_key url
  end.

(** The world whose cache holds the data [d], as old as [e], under [key]. *)
Definition with_data (key : string) (e : entry) (d : cached) (w : world) : world :=
  {| cache := <[key := {| data := d; timestamp := timestamp e |}]> (cache w);
     sent := sent w; reads := reads w |}.

(** The world after a read of the clock. *)
Definition ticked (w : world) : world :=
  {| cache := cache w; sent := sent w; reads := S (reads w) |}.

(** The submissions to the scanning service among some requests. *)
Definition is_submission (r : request) : bool :=
  match r with
  | Post endpoint _ => String.eqb endpoint scan_endpoint
  | Get _ => false
  end.

Definition submissions (l : list request) : nat :=
  length (filter (fun r => is_submission r = true) l).

(** The reading of the specification: [urls] is a sequence of strings. *)
Definition string_sequence (urls : jsval) : bool :=
  match urls with
  | JArr items =>
      forallb (fun x => match x with JStr _ => true | _ => false end) items
  | _ => false
  end.

(** ** A concrete runtime and concrete servers, for the examples *)

Module Demo.

Definition starts_with_http (s : string) : bool :=
  String.eqb (substring 0 7 s) "http://".

(** A runtime whose URL parser accepts the strings that start with
    [http://]. *)
Definition runtime : runtime :=
  {| VIRUSTOTAL_API_KEY := "key";
     encodeURIComponent := fun s => inr s;
     url_hostname := fun s =>
       if starts_with_http s then inr (substring 7 (String.length s) s)
       else inl "Invalid URL";
     url_resolve := fun loc _ =>
       if starts_with_http loc then inr loc else inl "Invalid URL" |}.

Definition ok (status : Z) (loc : option string) (d : report) : outcome :=
  Resp {| resp_status := status; location := loc; resp_data := d |}.

Definition pending : report :=
  {| response_code := Some 0; rep_positives := None; rep_total := None |}.

(** The answers are those of the list, in order; later requests time
    out. *)
Definition scripted (answers : list outcome) (now : nat -> Z) : outside :=
  {| http := fun n _ => nth n answers (Threw "timeout of 5000ms exceeded");
     clock := now |}.

(** Target servers that always redirect, a client that hands each
    redirect to the code, and a scanning service that cannot be
    reached. *)
Definition endless : outside :=
  {| http := fun _ r =>
       match r with
       | Post _ _ => Threw "Network Error"
       | Get _ => ok 302 (Some "http://loop/") no_report
       end;
     clock := fun _ => 0 |}.

(** One redirect, handed to the code, to a URL that three engines
    flag. *)
Definition flagged_redirect : outside :=
  scripted [ok 302 (Some "http://evil/") no_report;
            ok 200 None no_report;
            ok 200 None no_report;
            ok 200 None {| response_code := Some 1; rep_positives := Some 3;
                           rep_total := Some 70 |}]
           (fun _ => 0).

(** A world whose cache holds, for the URL [u], one entry of each
    function, both stored at time 0. *)
Definition cached_world (u : jsval) : world :=
  {| cache :=
       <[safety_key u :=
           {| data := DSafety (Safety.only "safe"); timestamp := 0 |}]>
       {[redirect_key u :=
           {| data := DRedirect
                {| Redirect.status := "clean"; Redirect.message := None;
                   Redirect.redirect_chain := [u];
                   Redirect.status_codes := [200];
                   Redirect.final_url_safety := Safety.only "no_redirect" |};
              timestamp := 0 |}]};
     sent := []; reads := 0 |}.

End Demo.

(** ** Contracts of programs *)

(** A contract says which effects a program may perform and what it may
    assume of their answers. *)
Record contract : Type := mkContract {
  allowed : forall X, eff X -> Prop;
  assumed : forall X, eff X -> X -> Prop;
}.

(** [meets C p Q]: whatever the answers that [C] lets it assume, [p]
    performs only effects that [C] allows and returns a value that
    satisfies [Q]. *)
Fixpoint meets (C : contract) {A} (p : prog A) (Q : A -> Prop) : Prop :=
  match p with
  | Ret a => Q a
  | Vis e k => allowed C _ e /\ forall x, assumed C _ e x -> meets C (k x) Q
  end.

(** A task whose two calls meet a contract; a task that has settled holds
    results that satisfy the postconditions.  The postconditions may
    mention the URL of the task. *)
Definition task_meets (C : contract)
    (QS : jsval -> Safety.t -> Prop) (QR : jsval -> Redirect.t -> Prop)
    (t : task) : Prop :=
  match t with
  | Settled result =>
      QS (url result) (safety result) /\ QR (url result) (redirects result)
  | Joining u _ safety redirects =>
      meets C safety (QS u) /\ meets C redirects (QR u)
  end.

(** *** The shape of results *)

(** The results that [checkUrlSafety] stores: those built from a complete
    report. *)
Definition safety_stored (r : Safety.t) : Prop :=
  exists reportData, r = scan_result reportData.

(** The results that [checkUrlSafety] returns: an error with its message,
    or a stored result. *)
Definition safety_returned (r : Safety.t) : Prop :=
  (exists msg, r = Safety.error msg) \/ safety_stored r.

(** The results that [checkRedirects] stores. *)
Definition redirect_stored (r : Redirect.t) : Prop :=
  Redirect.message r = None
  /\ (1 <= length (Redirect.redirect_chain r) <= 4)%nat
  /\ length (Redirect.status_codes r) = length (Redirect.redirect_chain r)
  /\ Redirect.status r = (if flagged r then "suspicious" else "clean")
  /\ (if (1 <? length (Redirect.redirect_chain r))%nat
      then safety_returned (Redirect.final_url_safety r)
      else Redirect.final_url_safety r = Safety.only "no_redirect").

(** The error objects of lines 128-134 and 169-175. *)
Definition redirect_failed (r : Redirect.t) : Prop :=
  Redirect.status r = "error"
  /\ (exists msg, Redirect.message r = Some msg)
  /\ length (Redirect.redirect_chain r) = 1%nat
  /\ Redirect.status_codes r = []
  /\ (Redirect.final_url_safety r = Safety.only "error"
      \/ Redirect.final_url_safety r = Safety.only "invalid").

Definition redirect_returned (r : Redirect.t) : Prop :=
  redirect_stored r \/ redirect_failed r.

(** An entry of the cache that one of the two functions stored. *)
Definition entry_good (key : string) (e : entry) : Prop :=
  match data e with
  | DSafety r => (exists u, key = safety_key u) /\ safety_stored r
  | DRedirect r => (exists u, key = redirect_key u) /\ redirect_stored r
  end.

Definition cache_good (w : world) : Prop :=
  forall key e, cache w !! key = Some e -> entry_good key e.

(** The contract of the stored entries: a program stores good entries, and
    may assume that the entries it reads are good. *)
Definition stores_good : contract :=
  {| allowed := fun X e =>
       match e with
       | CacheSet key en => entry_good key en
       | _ => True
       end;
     assumed := fun X e =>
       match e in eff X return X -> Prop with
       | CacheLookup key => fun x =>
           match x with
           | Some en => entry_good key en
           | None => True
           end
       | _ => fun _ => True
       end |}.

(** The local variables of the traversal at the head of the loop and when
    it is left: the chain holds between one and four URLs, and one status
    code was recorded per URL. *)
Definition chain_good (redirectChain : list jsval) (statusCodes : list Z) : Prop :=
  (1 <= length redirectChain <= 4)%nat
  /\ length statusCodes = length redirectChain.

Definition traversal_good (t : traversal) : Prop :=
  match t with
  | Arrived redirectChain statusCodes => chain_good redirectChain statusCodes
  | Thrown _ _ _ => True
  end.

(** *** What a caller can rely on *)

(** A safety result says that it failed with a message, or gives a verdict
    with its two counts and no message. *)
Definition safety_well_formed (r : Safety.t) : Prop :=
  (Safety.status r = "error"
   /\ (exists msg, Safety.message r = Some msg)
   /\ Safety.positives r = None /\ Safety.total_scans r = None)
  \/ ((Safety.status r = "safe" \/ Safety.status r = "unsafe")
      /\ Safety.message r = None
      /\ (exists n, Safety.positives r = Some n)
      /\ (exists n, Safety.total_scans r = Some n)).

(** A redirect result says that it failed, with a message, the chain of
    the URL alone and no status code; or gives a verdict without message,
    with one status code per URL of its chain. *)
Definition redirect_well_formed (r : Redirect.t) : Prop :=
  (Redirect.status r = "error"
   /\ (exists msg, Redirect.message r = Some msg)
   /\ length (Redirect.redirect_chain r) = 1%nat
   /\ Redirect.status_codes r = [])
  \/ ((Redirect.status r = "clean" \/ Redirect.status r = "suspicious")
      /\ Redirect.message r = None
      /\ (1 <= length (Redirect.redirect_chain r))%nat
      /\ length (Redirect.status_codes r) = length (Redirect.redirect_chain r)).

(** The result of the handler for an element that is not a URL. *)
Definition invalid_stub (u : jsval) : UrlCheckResult :=
  invalid_result u (Invalid "Invalid URL format" [u] [] (Safety.only "invalid")).

(** [new URL(url)] throws. *)
Definition unparsable (R : runtime) (u : jsval) : Prop :=
  exists msg, url_hostname R (to_string u) = inl msg.

(** The message of the error that [checkUrlSafety] returns when the
    submission fails: the request is rejected, or its status is not 200. *)
Definition submission_failure (o : outcome) : option string :=
  match o with
  | Threw msg => Some msg
  | Resp scanResponse =>
      if resp_status scanResponse =? 200 then None
      else Some ("API error: " +:+ pretty (resp_status scanResponse))
  end.

(** The chain and the status codes that a traversal has collected. *)
Definition collected (t : traversal) : list jsval :=
  match t with
  | Thrown _ redirectChain _ | Arrived redirectChain _ => redirectChain
  end.

Definition recorded (t : traversal) : list Z :=
  match t with
  | Thrown _ _ statusCodes | Arrived _ statusCodes => statusCodes
  end.

Definition arrived (t : traversal) : bool :=
  match t with
  | Arrived _ _ => true
  | Thrown _ _ _ => false
  end.

(** *** Budgets of requests *)

Definition is_request {X} (e : eff X) : bool :=
  match e with
  | Axios _ => true
  | _ => false
  end.

(** [within n p]: whatever the answers, [p] sends at most [n] requests. *)
Fixpoint within (n : nat) {A} (p : prog A) {struct p} : Prop :=
  match p with
  | Ret _ => True
  | Vis e k =>
      if is_request e then
        match n with
        | O => False
        | S n' => forall x, within n' (k x)
        end
      else forall x, within n (k x)
  end.

(** The requests that a task may still send. *)
Definition owed (t : task) (b : nat) : Prop :=
  match t with
  | Settled _ => True
  | Joining _ _ safety redirects =>
      exists n m, within n safety /\ within m redirects /\ (n + m <= b)%nat
  end.

Inductive pool_owes : list task -> nat -> Prop :=
| owes_nil : pool_owes [] 0
| owes_cons (t : task) (b : nat) (rest : list task) (n : nat) :
    owed t b -> pool_owes rest n -> pool_owes (t :: rest) (b + n).

(** *** The keys that a program writes *)

(** The contract of a program that stores and deletes only under the keys
    of [K]. *)
Definition writes_only (K : string -> Prop) : contract :=
  {| allowed := fun X e =>
       match e with
       | CacheSet key _ | CacheDelete key => K key
       | _ => True
       end;
     assumed := fun X e x => True |}.

(** The entries outside [K] are those of the cache [c]. *)
Definition same_outside (K : string -> Prop) (c : gmap string entry)
    (w : world) : Prop :=
  forall key, ~ K key -> cache w !! key = c !! key.

(** The keys of [checkRedirects(url)]: its own, and the safety keys. *)
Definition redirect_keys (u : jsval) (key : string) : Prop :=
  key = redirect_key u \/ exists v, key = safety_key v.

(** ** The page: [App] and its [handleCheckUrls] *)

(** The built-in functions of the browser that the page calls:
    [String.prototype.trim], and the message of the [TypeError] raised by
    the spread of a value that is not iterable. *)
Record browser : Type := mkBrowser {
  trim : string -> string;
  spread_error : string;
}.

(** [s.split(sep)] for a separator of one character: the pieces between
    the separators, at least one. *)
Fixpoint js_split (sep : Ascii.ascii) (s : string) : list string :=
  match s with
  | EmptyString => [""]
  | String c rest =>
      if Ascii.eqb c sep then "" :: js_split sep rest
      else match js_split sep rest with
           | first :: others => String c first :: others
           | [] => [String c ""]
           end
  end.

Definition newline : Ascii.ascii := Ascii.ascii_of_nat 10.

(** Line 18: [urls.split('\n').map(url => url.trim()).filter(url => url)]. *)
Definition url_list (B : browser) (urls : string) : list string :=
  List.filter (fun url => negb (String.eqb url ""))
    (List.map (trim B) (js_split newline urls)).

Definition BATCH_SIZE : nat := 1.

(** [l.slice(i, j)] for [i <= j]. *)
Definition slice {A} (l : list A) (i j : nat) : list A :=
  take (j - i) (drop i l).

(** Lines 26-29: the loop that cuts the list into batches. *)
Equations? make_batches (urlList : list string) (i : nat)
    : list (list string) by wf (length urlList - i)%nat lt :=
  make_batches urlList i
    with Equations.Prop.Logic.inspect (i <? length urlList)%nat := {
    | exist _ true Hloop =>
        slice urlList i (i + BATCH_SIZE)
          :: make_batches urlList (i + BATCH_SIZE)
    | exist _ false Hloop => []
    }.
Proof.
  apply Nat.ltb_lt in Hloop. unfold BATCH_SIZE. lia.
Qed.

(** What [await fetch(...)] followed by [await response.json()] gives: an
    exception (the request fails, or the body is not JSON), a body that is
    an array, or a body that is another JSON value and cannot be spread
    (an object, a number, [null]).  A body that is a string is not
    modelled. *)
Inductive fetched (A : Type) : Type :=
| FetchThrew (msg : string)
| FetchArray (data : list A)
| FetchOther.

Arguments FetchThrew {A} msg.
Arguments FetchArray {A} data.
Arguments FetchOther {A}.

(** The value given to [setProgress]: a number of percent, or the quotient
    [((i + 1) / batches.length) * 100], kept as written. *)
Inductive progress : Type :=
| Percent (p : Z)
| Quotient (done total : nat).

(** The state of the component. *)
Record page (A : Type) : Type := mkPage {
  results : list A;
  loading : bool;
  error : string;
  page_progress : progress;
}.

Arguments mkPage {A}.
Arguments results {A}.
Arguments loading {A}.
Arguments error {A}.
Arguments page_progress {A}.

Section Page.

Context {A Srv : Type} (B : browser).

(** The server as the page sees it: the answer to the batch posted, and
    the new state of the server. *)
Context (fetch : list string -> Srv -> fetched A * Srv).

(** Lines 31-43: the loop over the batches.  It ends with the message of
    the exception that left it, if any. *)
Fixpoint send (batches : list (list string)) (i total : nat)
    (allResults : list A) (p : page A) (s : Srv)
    : option string * page A * Srv :=
  match batches with
  | [] => (None, p, s)
  | batch :: rest =>
      match fetch batch s with
      | (FetchThrew msg, s') => (Some msg, p, s')
      | (FetchOther, s') => (Some (spread_error B), p, s')
      | (FetchArray data, s') =>
          let allResults := allResults ++ data in
          send rest (S i) total allResults
            {| results := allResults;
               loading := loading p;
               error := error p;
               page_progress := Quotient (S i) total |}
            s'
      end
  end.

(** Lines 12-50.  The four setters of lines 13-16 replace the state that
    the component had. *)
Definition handleCheckUrls (urls : string) (s : Srv) : page A * Srv :=
  let p := {| results := []; loading := true; error := "";
              page_progress := Percent 0 |} in
  let urlList := url_list B urls in
  if (length urlList =? 0)%nat then
    ({| results := results p;
        loading := false;
        error := "Please enter at least one URL";
        page_progress := page_progress p |}, s)
  else
    let batches := make_batches urlList 0 in
    let '(thrown, p, s) := send batches 0 (length batches) [] p s in
    let error :=
      match thrown with
      | Some msg => "Failed to check URLs: " +:+ msg
      | None => error p
      end in
    ({| results := results p;
        loading := false;
        error := error;
        page_progress := Percent 100 |}, s).

End Page.

(** *** The table *)

(** [codes.join(', ')] *)
Fixpoint join_codes (codes : list Z) : string :=
  match codes with
  | [] => ""
  | [c] => pretty c
  | c :: rest => pretty c +:+ ", " +:+ join_codes rest
  end.

(** [message && <span> ({message})</span>] *)
Definition note (message : option string) : option string :=
  match message with
  | Some m => if String.eqb m "" then None else Some (" (" +:+ m +:+ ")")
  | None => None
  end.

(** Lines 98-101: the cell of the column [Flagged as Malicious]. *)
Definition flagged_cell (result : UrlCheckResult) : string * option string :=
  (if negb (String.eqb (Safety.status (safety result)) "")
   then if gt_zero (Safety.positives (safety result)) then "Yes" else "No"
   else "N/A",
   note (Safety.message (safety result))).

(** Lines 102-109: the cell of the column [Malicious Redirects].  The
    field [status_codes] is an array in every result of the server, and an
    array is truthy. *)
Definition redirects_cell (result : UrlCheckResult) : string * option string :=
  (if negb (String.eqb (Redirect.status (redirects result)) "")
   then if String.eqb (Redirect.status (redirects result)) "suspicious"
        then "Yes (Status codes: "
               +:+ join_codes (Redirect.status_codes (redirects result)) +:+ ")"
        else "No (Status codes: "
               +:+ join_codes (Redirect.status_codes (redirects result)) +:+ ")"
   else "N/A",
   note (Redirect.message (redirects result))).

(** *** The page and the server together *)

(** The handler as the page reaches it: the body [{urls: batch}] arrives
    as an array of strings; the reply 400 carries an object.  The state of
    the server comes with the schedules of the requests to come. *)
Definition serve (N : outside) (R : runtime) (batch : list string)
    (s : world * list schedule)
    : fetched UrlCheckResult * (world * list schedule) :=
  match handler N R (List.hd [] (snd s)) (JArr (JStr <$> batch)) (fst s) with
  | (Status200 results, w') => (FetchArray results, (w', List.tl (snd s)))
  | (Status400 _, w') => (FetchOther, (w', List.tl (snd s)))
  end.

(** The message of the exception that ends the loop of the page at an
    answer, if the answer is not an array. *)
Definition fetch_failure {A} (B : browser) (f : fetched A) : option string :=
  match f with
  | FetchThrew msg => Some msg
  | FetchOther => Some (spread_error B)
  | FetchArray _ => None
  end.

Module DemoPage.

(** A browser whose [trim] removes nothing, for inputs without spaces. *)
Definition browser : browser :=
  {| trim := fun s => s; spread_error := "data is not iterable" |}.

(** The text of a few lines. *)
Fixpoint lines (l : list string) : string :=
  match l with
  | [] => ""
  | [x] => x
  | x :: rest => x +:+ String newline (lines rest)
  end.

(** A server that answers the first batch and is down afterwards. *)
Definition flaky (batch : list string) (n : nat) : fetched string * nat :=
  match n with
  | O => (FetchArray batch, 1%nat)
  | _ => (FetchThrew "Failed to fetch", Datatypes.S n)
  end.

End DemoPage.

(** ** The client as line 75 configures it *)

(** A response that is a redirect with a location: the first three tests
    of the [while] of line 90. *)
Definition handed_redirect (response : response) : bool :=
  (300 <=? resp_status response) && (resp_status response <? 400)
  && match location response with
     | Some loc => negb (String.eqb loc "")
     | None => false
     end.

(** The client of lines 74-78 is created with [maxRedirects: 3] (and the
    default client of [axios.get] and [axios.post] follows five): in Node
    such a client follows a redirect that has a location itself, and
    rejects when there are too many; it never resolves with a response
    that is a redirect with a location.  [exec] answers a call with any
    outcome; this is the condition on the outside under which the
    outcomes are those of that client. *)
Definition client_follows_redirects (N : outside) : Prop :=
  forall n req r, http N n req = Resp r -> handed_redirect r = false.

(** The same condition on a list of answers, as a test. *)
Definition no_redirect_handed (answers : list outcome) : bool :=
  forallb (fun o => match o with
                    | Resp r => negb (handed_redirect r)
                    | Threw _ => true
                    end) answers.

(** A result of [checkRedirects] for which the loop of line 90 was not
    entered. *)
Definition not_redirected (r : Redirect.t) : Prop :=
  Redirect.status r = "clean"
  /\ Redirect.message r = None
  /\ length (Redirect.redirect_chain r) = 1%nat
  /\ length (Redirect.status_codes r) = 1%nat
  /\ Redirect.final_url_safety r = Safety.only "no_redirect".

(** The error objects of lines 128-134 and 169-175, for the URL [u]. *)
Definition failed_for (u : jsval) (r : Redirect.t) : Prop :=
  redirect_failed r /\ Redirect.redirect_chain r = [u].

Definition redirect_returned_for (u : jsval) (r : Redirect.t) : Prop :=
  redirect_stored r \/ failed_for u r.

Definition not_redirected_or_failed (u : jsval) (r : Redirect.t) : Prop :=
  not_redirected r \/ failed_for u r.

(** A redirect result for the URL [u] is well formed, and when it failed
    its chain is [[u]]. *)
Definition redirect_well_formed_for (u : jsval) (r : Redirect.t) : Prop :=
  redirect_well_formed r
  /\ (Redirect.status r = "error" -> Redirect.redirect_chain r = [u]).

(** An entry of the cache when no redirect is handed to the code. *)
Definition entry_plain (key : string) (e : entry) : Prop :=
  match data e with
  | DSafety _ => exists u, key = safety_key u
  | DRedirect r => (exists u, key = redirect_key u) /\ not_redirected r
  end.

Definition cache_plain (w : world) : Prop :=
  forall key e, cache w !! key = Some e -> entry_plain key e.

(** The contract of a program that runs with that client: it may assume
    that no answer is a redirect with a location, and that the entries it
    reads are plain; it stores plain entries. *)
Definition with_following_client : contract :=
  {| allowed := fun X e =>
       match e with
       | CacheSet key en => entry_plain key en
       | _ => True
       end;
     assumed := fun X e =>
       match e in eff X return X -> Prop with
       | CacheLookup key => fun x =>
           match x with
           | Some en => entry_plain key en
           | None => True
           end
       | Axios _ => fun o =>
           match o with
           | Resp r => handed_redirect r = false
           | Threw _ => True
           end
       | _ => fun _ => True
       end |}.

(** The result that lines 100-120 build from the chain and the status codes
    of the traversal and from [finalUrlSafety], the result of
    [checkUrlSafety] on the last URL of the chain. *)
Definition classified_from (chain : list jsval) (codes : list Z)
    (finalUrlSafety : Safety.t) (result : Redirect.t) : Prop :=
  Redirect.redirect_chain result = chain
  /\ Redirect.status_codes result = codes
  /\ Redirect.final_url_safety result
     = (if (1 <? length chain)%nat then finalUrlSafety
        else Safety.only "no_redirect")
  /\ (Redirect.status result = "suspicious"
      <-> (1 < length chain)%nat
          /\ Safety.status finalUrlSafety = "unsafe"
          /\ exists n, Safety.positives finalUrlSafety = Some n /\ 0 < n)
  /\ (Redirect.status result = "suspicious" \/ Redirect.status result = "clean").

(** * Properties *)

(** ** Execution of programs *)

Section ExecutionFacts.

Context (N : outside).

Lemma run_bind {A B} (p : prog A) (f : A -> prog B) (w : world) :
  run N (bind p f) w = run N (f (fst (run N p w))) (snd (run N p w)).
Proof.
  revert w. induction p as [a | X e k IH]; intros w; simpl.
  - reflexivity.
  - destruct (exec N e w) as [x w']. apply IH.
Qed.

(** The requests sent are only ever added to. *)
Lemma exec_sent {X} (e : eff X) (w : world) :
  exists l, sent (snd (exec N e w)) = sent w ++ l.
Proof.
  destruct e; simpl; try (exists []; symmetry; apply app_nil_r).
  exists [r]. reflexivity.
Qed.

Lemma run_sent {A} (p : prog A) (w : world) :
  exists l, sent (snd (run N p w)) = sent w ++ l.
Proof.
  revert w. induction p as [a | X e k IH]; intros w; simpl.
  - exists []. symmetry. apply app_nil_r.
  - destruct (exec_sent e w) as [l1 H1].
    destruct (exec N e w) as [x w']. simpl in H1.
    destruct (IH x w') as [l2 H2].
    exists (l1 ++ l2). rewrite H2, H1. symmetry. apply app_assoc.
Qed.

(** The read of the cache, in one step. *)
Lemma run_cache_read (key : string) (w : world) :
  run N (cache_read key) w =
  match cache w !! key with
  | Some e =>
      if clock N (reads w) - timestamp e <? CACHE_TTL
      then (Some (data e), ticked w)
      else (None, evicted key w)
  | None => (None, w)
  end.
Proof.
  unfold cache_read. simpl.
  destruct (cache w !! key) as [e |]; simpl; [| reflexivity].
  destruct (clock N (reads w) - timestamp e <? CACHE_TTL); reflexivity.
Qed.

(** Running a program up to its next suspension and then to its end is
    running it to its end. *)
Lemma run_advance {A} (p : prog A) (w : world) :
  run N (fst (advance N p w)) (snd (advance N p w)) = run N p w.
Proof.
  revert w. induction p as [a | X e k IH]; intros w; simpl.
  - reflexivity.
  - destruct (suspends e); simpl.
    + reflexivity.
    + destruct (exec N e w) as [x w']. apply IH.
Qed.

Lemma run_resume {A} (p : prog A) (w : world) :
  run N (fst (resume N p w)) (snd (resume N p w)) = run N p w.
Proof.
  destruct p as [a | X e k]; simpl.
  - reflexivity.
  - destruct (exec N e w) as [x w']. apply run_advance.
Qed.

End ExecutionFacts.

(** ** The slots of a batch *)

Section Slots.

Context (N : outside) (R : runtime).

Lemma task_url_settle (t : task) : task_url (settle t) = task_url t.
Proof.
  destruct t as [r | u st ps pr]; [reflexivity |].
  destruct ps, pr; reflexivity.
Qed.

Lemma task_url_spawn (u : jsval) (w : world) :
  task_url (fst (spawn N R u w)) = u.
Proof.
  unfold spawn, start.
  destruct (validateUrlStructure R u); [| reflexivity].
  generalize (checkUrlSafety R u), (checkRedirects R u). intros ps pr.
  destruct (advance N ps w) as [ps' w1].
  destruct (advance N pr w1) as [pr' w2].
  cbn [fst]. rewrite task_url_settle. reflexivity.
Qed.

Lemma task_url_spawn_all (urls : list jsval) (w : world) :
  map task_url (fst (spawn_all N R urls w)) = urls.
Proof.
  revert w. induction urls as [| u rest IH]; intros w; simpl.
  - reflexivity.
  - pose proof (task_url_spawn u w) as Hu.
    destruct (spawn N R u w) as [t w1]. simpl in Hu.
    specialize (IH w1).
    destruct (spawn_all N R rest w1) as [ts w2]. simpl in *.
    congruence.
Qed.

Lemma task_url_step (s : side) (t : task) (w : world) :
  task_url (fst (step_task N s t w)) = task_url t.
Proof.
  destruct t as [r | u st ps pr]; [reflexivity |].
  destruct s; cbn [step_task].
  - destruct (resume N ps w) as [ps' w']. cbn [fst].
    rewrite task_url_settle. reflexivity.
  - destruct (resume N pr w) as [pr' w']. cbn [fst].
    rewrite task_url_settle. reflexivity.
Qed.

(** A resumed task writes to its own slot: the URLs of the slots do not
    move, whatever the order of the completions. *)
Lemma task_url_interleave (sched : schedule) (tasks : list task) (w : world) :
  map task_url (fst (interleave N sched tasks w)) = map task_url tasks.
Proof.
  revert tasks w. induction sched as [| [i s] rest IH]; intros tasks w; simpl.
  - reflexivity.
  - destruct (tasks !! i) as [t |] eqn:Hi; [| apply IH].
    pose proof (task_url_step s t w) as Hs.
    destruct (step_task N s t w) as [t' w']. simpl in Hs.
    rewrite IH, list_fmap_insert, Hs.
    apply list_insert_id. rewrite list_lookup_fmap, Hi. reflexivity.
Qed.

Lemma url_finish (t : task) (w : world) :
  url (fst (finish N t w)) = task_url t.
Proof.
  destruct t as [r | u st ps pr]; simpl; [reflexivity |].
  destruct (run N ps w) as [s w1]. destruct (run N pr w1) as [r w2].
  reflexivity.
Qed.

Lemma url_finish_all (tasks : list task) (w : world) :
  map url (fst (finish_all N tasks w)) = map task_url tasks.
Proof.
  revert w. induction tasks as [| t rest IH]; intros w; simpl.
  - reflexivity.
  - pose proof (url_finish t w) as Ht.
    destruct (finish N t w) as [r w1]. simpl in Ht.
    specialize (IH w1).
    destruct (finish_all N rest w1) as [rs w2]. simpl in *.
    congruence.
Qed.

(** The handler on an array: it replies 200, and the results are those of
    the slots, in the order of the slots. *)
Lemma handler_on_array (sched : schedule) (items : list jsval) (w : world) :
  exists results w',
    handler N R sched (JArr items) w = (Status200 results, w')
    /\ map url results = items.
Proof.
  unfold handler. simpl.
  pose proof (task_url_spawn_all items w) as H1.
  destruct (spawn_all N R items w) as [tasks w1]. simpl in H1.
  pose proof (task_url_interleave sched tasks w1) as H2.
  destruct (interleave N sched tasks w1) as [tasks' w2]. simpl in H2.
  pose proof (url_finish_all tasks' w2) as H3.
  destruct (finish_all N tasks' w2) as [results w3]. simpl in H3.
  exists results, w3. split; [reflexivity | congruence].
Qed.

(** C1. For every array [items] that the handler accepts and every order
    in which the awaited events of the tasks complete, the reply holds
    exactly one result per element of [items], and the [url] field of the
    i-th result is the i-th element. *)
Theorem batch_preserves_input_order
    (sched : schedule) (items : list jsval) (w : world) :
  exists results w',
    handler N R sched (JArr items) w = (Status200 results, w')
    /\ length results = length items
    /\ forall i, url <$> (results !! i) = items !! i.
Proof.
  destruct (handler_on_array sched items w) as (results & w' & H & Hmap).
  exists results, w'. split; [exact H |]. split.
  - rewrite <- Hmap. symmetry. apply length_map.
  - intros i. rewrite <- Hmap. symmetry. apply list_lookup_fmap.
Qed.

(** C9, as amended. The handler replies 400, with the error
    [Invalid input: URLs must be an array] and without touching the world,
    exactly when [urls] is not an array; every array is accepted, whatever
    its elements are. *)
Theorem handler_rejects_exactly_non_arrays
    (sched : schedule) (urls : jsval) (w : world) :
  if isArray urls
  then exists results w', handler N R sched urls w = (Status200 results, w')
  else handler N R sched urls w
       = (Status400 "Invalid input: URLs must be an array", w).
Proof.
  destruct urls as [| | b | n | s | items | fields];
    try (simpl; unfold handler; simpl; rewrite ?orb_true_r; reflexivity).
  destruct (handler_on_array sched items w) as (rs & w' & H & _).
  simpl. eauto.
Qed.

End Slots.

(** C9, as the claim states it, fails: the array of the number 1 is not a
    sequence of strings, and the handler accepts it. *)
Lemma array_of_number_accepted :
  string_sequence (JArr [JNum 1]) = false
  /\ exists results,
       fst (handler (Demo.scripted [] (fun _ => 0)) Demo.runtime []
              (JArr [JNum 1]) boot)
       = Status200 results.
Proof.
  split; [reflexivity |].
  eexists. vm_compute. reflexivity.
Qed.

(** ** The safety scanner *)

Section Scanner.

Context (N : outside) (R : runtime).

Lemma delete_absent (key : string) (c : gmap string entry) :
  c !! key = None -> delete key c = c.
Proof. apply delete_id. Qed.

(** A miss leaves the cache without an entry for the key. *)
Lemma cache_read_miss (key : string) (w : world) :
  fst (run N (cache_read key) w) = None ->
  cache (snd (run N (cache_read key) w)) = delete key (cache w)
  /\ sent (snd (run N (cache_read key) w)) = sent w.
Proof.
  rewrite run_cache_read.
  destruct (cache w !! key) as [e |] eqn:He.
  - destruct (clock N (reads w) - timestamp e <? CACHE_TTL); simpl.
    + discriminate.
    + intros _. split; reflexivity.
  - simpl. intros _. split; [| reflexivity].
    symmetry. apply delete_absent. exact He.
Qed.

(** The polls that find the report incomplete: the loop runs out, sends
    one request per attempt and leaves the cache as it was. *)
Lemma run_poll_incomplete (n : nat) (key enc : string) (w : world) :
  (forall i, (i < n)%nat ->
     exists resp,
       http N (length (sent w) + i)%nat (Get (JStr (report_url R enc))) = Resp resp
       /\ strict_eq (response_code (resp_data resp)) 1 = false) ->
  run N (poll R n key enc) w =
  (Safety.error "No scan results available",
   {| cache := cache w;
      sent := sent w ++ repeat (Get (JStr (report_url R enc))) n;
      reads := reads w |}).
Proof.
  revert w. induction n as [| n IH]; intros w Hpolls.
  - simpl. rewrite app_nil_r. destruct w; reflexivity.
  - destruct (Hpolls O ltac:(lia)) as (resp & Hresp & Hcode).
    rewrite Nat.add_0_r in Hresp.
    cbn [poll]. simpl. rewrite Hresp. simpl. rewrite Hcode. simpl.
    rewrite IH.
    + simpl. rewrite <- app_assoc. reflexivity.
    + intros i Hi. simpl. rewrite length_app. simpl.
      destruct (Hpolls (S i) ltac:(lia)) as (resp' & Hresp' & Hcode').
      exists resp'. split; [| exact Hcode'].
      rewrite <- Hresp'. f_equal. lia.
Qed.

(** The [try] block starts with the submission. *)
Lemma scan_submits (url : jsval) (key enc : string) (w : world) :
  encodeURIComponent R (to_string url) = inr enc ->
  exists rest,
    sent (snd (run N (scan R url key) w))
    = sent w ++ Post scan_endpoint (scan_body R enc) :: rest.
Proof.
  intros Henc. unfold scan. rewrite Henc. cbn [bind trigger run exec].
  match goal with
  | |- context [run N ?p ?w'] => destruct (run_sent N p w') as [l Hl]
  end.
  exists l. rewrite Hl. simpl. rewrite <- app_assoc. reflexivity.
Qed.

(** The call of [checkUrlSafety] on a miss is the [try] block. *)
Lemma checkUrlSafety_miss (url : jsval) (w : world) :
  fst (run N (cache_read (safety_key url)) w) = None ->
  run N (checkUrlSafety R url) w
  = run N (scan R url (safety_key url))
      (snd (run N (cache_read (safety_key url)) w)).
Proof.
  intros Hmiss. unfold checkUrlSafety.
  rewrite run_bind, Hmiss. reflexivity.
Qed.

(** The call of [checkUrlSafety] on a fresh entry returns its data and
    only reads the clock. *)
Lemma checkUrlSafety_hit (url : jsval) (w : world) (e : entry) :
  cache w !! safety_key url = Some e ->
  clock N (reads w) - timestamp e < CACHE_TTL ->
  run N (checkUrlSafety R url) w = (as_safety (data e), ticked w).
Proof.
  intros He Hfresh. unfold checkUrlSafety.
  rewrite run_bind, run_cache_read, He.
  apply Z.ltb_lt in Hfresh. rewrite Hfresh. reflexivity.
Qed.

(** C5. If the submission succeeds and each of the 5 polls finds the
    report incomplete, [checkUrlSafety] returns the error
    [No scan results available] and leaves no entry for the URL in the
    cache, so that the next call for the URL starts with a submission
    again. *)
Theorem poll_exhaustion_not_cached
    (url : jsval) (enc : string) (scanResponse : response) (w : world) :
  fst (run N (cache_read (safety_key url)) w) = None ->
  encodeURIComponent R (to_string url) = inr enc ->
  http N (length (sent w)) (Post scan_endpoint (scan_body R enc))
    = Resp scanResponse ->
  resp_status scanResponse = 200 ->
  (forall i, (i < 5)%nat ->
     exists resp,
       http N (S (length (sent w)) + i)%nat (Get (JStr (report_url R enc)))
         = Resp resp
       /\ strict_eq (response_code (resp_data resp)) 1 = false) ->
  let result := fst (run N (checkUrlSafety R url) w) in
  let w' := snd (run N (checkUrlSafety R url) w) in
  result = Safety.error "No scan results available"
  /\ cache w' = delete (safety_key url) (cache w)
  /\ cache w' !! safety_key url = None
  /\ sent w' = sent w ++ Post scan_endpoint (scan_body R enc)
                 :: repeat (Get (JStr (report_url R enc))) 5
  /\ exists rest,
       sent (snd (run N (checkUrlSafety R url) w'))
       = sent w' ++ Post scan_endpoint (scan_body R enc) :: rest.
Proof.
  intros Hmiss Henc Hscan Hstatus Hpolls result w'.
  destruct (cache_read_miss (safety_key url) w Hmiss) as [Hcache Hsent].
  assert (Hrun : run N (checkUrlSafety R url) w =
    (Safety.error "No scan results available",
     {| cache := delete (safety_key url) (cache w);
        sent := sent w ++ Post scan_endpoint (scan_body R enc)
                  :: repeat (Get (JStr (report_url R enc))) 5;
        reads := reads (snd (run N (cache_read (safety_key url)) w)) |})).
  { rewrite checkUrlSafety_miss by exact Hmiss.
    unfold scan. rewrite Henc. cbn [bind trigger run exec].
    rewrite Hsent, Hscan. cbn [bind trigger run exec].
    rewrite Hstatus. cbn [negb Z.eqb Pos.eqb].
    rewrite run_poll_incomplete.
    - cbn [cache sent reads]. rewrite Hcache, <- app_assoc. reflexivity.
    - intros i Hi. cbn [sent]. rewrite length_app. simpl length.
      destruct (Hpolls i Hi) as (resp & Hresp & Hcode).
      exists resp. split; [| exact Hcode].
      rewrite <- Hresp. f_equal. lia. }
  subst result w'. rewrite Hrun. cbn [fst snd cache sent].
  assert (Hnone : delete (safety_key url) (cache w) !! safety_key url = None)
    by apply lookup_delete_eq.
  repeat split; try reflexivity; try exact Hnone.
  match goal with
  | |- context [run N _ ?w1] => set (w1' := w1)
  end.
  assert (Hmiss' : run N (cache_read (safety_key url)) w1' = (None, w1')).
  { rewrite run_cache_read. subst w1'. cbn [cache]. rewrite Hnone. reflexivity. }
  rewrite checkUrlSafety_miss by (rewrite Hmiss'; reflexivity).
  rewrite Hmiss'. cbn [snd].
  apply scan_submits. exact Henc.
Qed.

(** C8. When the cache holds an entry for the URL that is fresh at both
    reads, two consecutive calls of [checkUrlSafety] return the same
    result, the data of the entry; no request is sent, so that at most one
    submission (in fact none) occurs across the two calls; and the cache
    is left as it was. *)
Theorem fresh_entry_idempotent (url : jsval) (e : entry) (w : world) :
  cache w !! safety_key url = Some e ->
  clock N (reads w) - timestamp e < CACHE_TTL ->
  clock N (S (reads w)) - timestamp e < CACHE_TTL ->
  let first := run N (checkUrlSafety R url) w in
  let second := run N (checkUrlSafety R url) (snd first) in
  fst first = fst second
  /\ fst first = as_safety (data e)
  /\ sent (snd second) = sent w
  /\ (submissions (sent (snd second)) - submissions (sent w) <= 1)%nat
  /\ cache (snd second) = cache w.
Proof.
  intros He Hfresh1 Hfresh2 first second.
  subst second first.
  rewrite (checkUrlSafety_hit url w e He Hfresh1). cbn [fst snd].
  rewrite (checkUrlSafety_hit url (ticked w) e He Hfresh2). cbn [fst snd].
  cbn [ticked sent cache]. repeat split. lia.
Qed.

Lemma submissions_app (l1 l2 : list request) :
  submissions (l1 ++ l2) = (submissions l1 + submissions l2)%nat.
Proof. unfold submissions. rewrite filter_app, length_app. reflexivity. Qed.

Lemma submissions_get (target : jsval) : submissions [Get target] = 0%nat.
Proof.
  unfold submissions. rewrite filter_cons, filter_nil.
  destruct (decide (is_submission (Get target) = true)) as [H | _];
    [discriminate H | reflexivity].
Qed.

Lemma submissions_one (r : request) : (submissions [r] <= 1)%nat.
Proof.
  unfold submissions. rewrite filter_cons, filter_nil.
  destruct (decide (is_submission r = true)); simpl; lia.
Qed.

(** The polls send no submission; they leave the cache as it was, or they
    store the result that they return. *)
Lemma run_poll_outcome (n : nat) (key enc : string) (w : world) :
  let result := fst (run N (poll R n key enc) w) in
  let w' := snd (run N (poll R n key enc) w) in
  submissions (sent w') = submissions (sent w)
  /\ (cache w' = cache w
      \/ exists now,
           cache w' = <[key := {| data := DSafety result; timestamp := now |}]>
                        (cache w)).
Proof.
  revert w. induction n as [| n IH]; intros w; cbn [poll].
  - split; [reflexivity | left; reflexivity].
  - cbn [bind trigger run exec].
    destruct (http N (length (sent w)) (Get (JStr (report_url R enc))))
      as [msg | resp]; cbn [bind run fst snd sent cache].
    + rewrite submissions_app, submissions_get.
      split; [lia | left; reflexivity].
    + destruct (strict_eq (response_code (resp_data resp)) 1);
        cbn [bind trigger run exec fst snd sent cache].
      * rewrite submissions_app, submissions_get. split; [lia |]. right. eauto.
      * match goal with
        | |- context [run N (poll R n key enc) ?w1] =>
            destruct (IH w1) as [Hs Hc]
        end.
        cbn [sent cache] in Hs, Hc. rewrite Hs, submissions_app, submissions_get.
        split; [lia | exact Hc].
Qed.

(** The [try] block sends at most one submission; it leaves the cache as
    it was, or it stores the result that it returns. *)
Lemma run_scan_outcome (url : jsval) (key : string) (w : world) :
  let result := fst (run N (scan R url key) w) in
  let w' := snd (run N (scan R url key) w) in
  (submissions (sent w') <= submissions (sent w) + 1)%nat
  /\ (cache w' = cache w
      \/ exists now,
           cache w' = <[key := {| data := DSafety result; timestamp := now |}]>
                        (cache w)).
Proof.
  unfold scan.
  destruct (encodeURIComponent R (to_string url)) as [msg | enc].
  - cbn. split; [lia | left; reflexivity].
  - cbn [bind trigger run exec].
    destruct (http N (length (sent w)) (Post scan_endpoint (scan_body R enc)))
      as [msg | resp]; cbn [bind run fst snd sent cache].
    + rewrite submissions_app.
      pose proof (submissions_one (Post scan_endpoint (scan_body R enc))).
      split; [lia | left; reflexivity].
    + destruct (negb (resp_status resp =? 200)); cbn [run fst snd sent cache].
      * rewrite submissions_app.
        pose proof (submissions_one (Post scan_endpoint (scan_body R enc))).
        split; [lia | left; reflexivity].
      * match goal with
        | |- context [run N (poll R 5 key enc) ?w1] =>
            destruct (run_poll_outcome 5 key enc w1) as [Hs Hc]
        end.
        cbn [sent cache] in Hs, Hc. rewrite Hs, submissions_app.
        pose proof (submissions_one (Post scan_endpoint (scan_body R enc))).
        split; [lia | exact Hc].
Qed.

(** X19. Two consecutive calls when the first one may fill the cache: whatever
    the first call does, if the cache holds a fresh entry for the URL when
    the second call reads it, the second call returns what the first
    returned, and at most one submission occurs across the two calls. *)
Lemma second_call_repeats_first (url : jsval) (e : entry) (w : world) :
  let first := run N (checkUrlSafety R url) w in
  let second := run N (checkUrlSafety R url) (snd first) in
  cache (snd first) !! safety_key url = Some e ->
  clock N (reads (snd first)) - timestamp e < CACHE_TTL ->
  fst second = fst first
  /\ (submissions (sent (snd second)) <= submissions (sent w) + 1)%nat.
Proof.
  intros first second He Hfresh. subst second.
  rewrite (checkUrlSafety_hit url (snd first) e He Hfresh).
  cbn [fst snd ticked sent]. subst first. revert He.
  unfold checkUrlSafety at 1 2 3. rewrite run_bind, run_cache_read.
  destruct (cache w !! safety_key url) as [e0 |] eqn:He0.
  - destruct (clock N (reads w) - timestamp e0 <? CACHE_TTL).
    + cbn [fst snd run ticked cache sent]. rewrite He0.
      intros [= <-]. split; [reflexivity | lia].
    + cbn [fst snd].
      destruct (run_scan_outcome url (safety_key url)
                  (evicted (safety_key url) w)) as [Hs [Hc | [now Hc]]].
      * rewrite Hc. cbn [evicted cache]. rewrite lookup_delete_eq. discriminate.
      * rewrite Hc, lookup_insert_eq. intros [= <-].
        split; [reflexivity | exact Hs].
  - cbn [fst snd].
    destruct (run_scan_outcome url (safety_key url) w) as [Hs [Hc | [now Hc]]].
    + rewrite Hc, He0. discriminate.
    + rewrite Hc, lookup_insert_eq. intros [= <-].
      split; [reflexivity | exact Hs].
Qed.

(** The status and the count of a completed report agree whenever the
    report has its [positives] field and the field is not negative. *)
Lemma scan_result_consistent (reportData : report) (n : Z) :
  rep_positives reportData = Some n ->
  0 <= n ->
  (Safety.status (scan_result reportData) = "unsafe" ->
   gt_zero (Safety.positives (scan_result reportData)) = true)
  /\ (Safety.status (scan_result reportData) = "safe" ->
      Safety.positives (scan_result reportData) = Some 0).
Proof.
  intros Hn Hpos. unfold scan_result. rewrite Hn. simpl.
  destruct (Z.eqb_spec n 0) as [-> | Hne]; simpl.
  - split; [discriminate | reflexivity].
  - split; [| discriminate]. intros _. apply Z.ltb_lt. lia.
Qed.

(** A result with status [safe] always counts no positives. *)
Lemma scan_result_safe (reportData : report) :
  Safety.status (scan_result reportData) = "safe" ->
  Safety.positives (scan_result reportData) = Some 0.
Proof.
  unfold scan_result. simpl.
  destruct (rep_positives reportData) as [n |]; simpl; [| discriminate].
  destruct (Z.eqb_spec n 0) as [-> | Hne]; [reflexivity | discriminate].
Qed.

End Scanner.

(** C3, at the failing input. The report is complete and lacks its
    [positives] field: the result has status [unsafe] and counts 0
    positives. *)
Lemma unsafe_with_zero_positives :
  let report := {| response_code := Some 1; rep_positives := None;
                   rep_total := Some 70 |} in
  let N := Demo.scripted [Demo.ok 200 None no_report;
                          Demo.ok 200 None report] (fun _ => 0) in
  let result := fst (run N (checkUrlSafety Demo.runtime (JStr "http://a/")) boot) in
  Safety.status result = "unsafe"
  /\ Safety.positives result = Some 0
  /\ Safety.total_scans result = Some 70.
Proof. vm_compute. repeat split. Qed.

(** C5, on a concrete run: one submission that succeeds, then five reports
    that are not complete. *)
Lemma poll_exhaustion_not_cached_witness :
  let N := Demo.scripted
             (Demo.ok 200 None no_report :: repeat (Demo.ok 200 None Demo.pending) 5)
             (fun _ => 0) in
  let u := JStr "http://a/" in
  let result := fst (run N (checkUrlSafety Demo.runtime u) boot) in
  let w' := snd (run N (checkUrlSafety Demo.runtime u) boot) in
  result = Safety.error "No scan results available"
  /\ cache w' = delete (safety_key u) (cache boot)
  /\ cache w' !! safety_key u = None
  /\ sent w' = sent boot ++ Post scan_endpoint (scan_body Demo.runtime "http://a/")
                 :: repeat (Get (JStr (report_url Demo.runtime "http://a/"))) 5
  /\ exists rest,
       sent (snd (run N (checkUrlSafety Demo.runtime u) w'))
       = sent w' ++ Post scan_endpoint (scan_body Demo.runtime "http://a/") :: rest.
Proof.
  intros N u.
  apply (poll_exhaustion_not_cached N Demo.runtime u "http://a/"
           {| resp_status := 200; location := None; resp_data := no_report |} boot).
  - reflexivity.
  - reflexivity.
  - reflexivity.
  - reflexivity.
  - intros i Hi.
    exists {| resp_status := 200; location := None; resp_data := Demo.pending |}.
    do 5 (destruct i as [| i]; [split; reflexivity |]). lia.
Defined.

(** C8, on a concrete run: the entry was stored at time 0 and is read at
    times 1000 and 2000. *)
Lemma fresh_entry_idempotent_witness :
  let N := Demo.scripted [] (fun n => 1000 * Z.of_nat (S n)) in
  let u := JStr "http://a/" in
  let e := {| data := DSafety (scan_result {| response_code := Some 1;
                                              rep_positives := Some 0;
                                              rep_total := Some 70 |});
              timestamp := 0 |} in
  let w := {| cache := {[ safety_key u := e ]}; sent := []; reads := 0 |} in
  let first := run N (checkUrlSafety Demo.runtime u) w in
  let second := run N (checkUrlSafety Demo.runtime u) (snd first) in
  fst first = fst second
  /\ fst first = as_safety (data e)
  /\ sent (snd second) = sent w
  /\ (submissions (sent (snd second)) - submissions (sent w) <= 1)%nat
  /\ cache (snd second) = cache w.
Proof.
  intros N u e w.
  apply (fresh_entry_idempotent N Demo.runtime u e w).
  - apply lookup_singleton_eq.
  - vm_compute. reflexivity.
  - vm_compute. reflexivity.
Defined.

(** ** The redirect resolver *)

Section Resolver.

Context (N : outside) (R : runtime).

(** One turn of the loop of line 90. *)
Lemma follow_eq (currentUrl : jsval) (redirectChain : list jsval)
    (statusCodes : list Z) (response : response) :
  follow R currentUrl redirectChain statusCodes response =
  if redirecting response redirectChain then
    match url_resolve R (location_of response) (to_string currentUrl) with
    | inl msg => Ret (Thrown msg redirectChain statusCodes)
    | inr next =>
        Vis (Axios (Get (JStr next))) (fun o =>
          match o with
          | Threw msg =>
              Ret (Thrown msg (redirectChain ++ [JStr next]) statusCodes)
          | Resp response' =>
              follow R (JStr next) (redirectChain ++ [JStr next])
                (statusCodes ++ [resp_status response']) response'
          end)
    end
  else Ret (Arrived redirectChain statusCodes).
Proof.
  funelim (follow R currentUrl redirectChain statusCodes response);
    rewrite Hloop; reflexivity.
Qed.

(** The traversal sends requests and does nothing else: it leaves the
    cache and the clock alone. *)
Lemma run_follow_cache (currentUrl : jsval) (redirectChain : list jsval)
    (statusCodes : list Z) (response : response) (w : world) :
  cache (snd (run N (follow R currentUrl redirectChain statusCodes response) w))
    = cache w
  /\ reads (snd (run N (follow R currentUrl redirectChain statusCodes response) w))
    = reads w.
Proof.
  revert w.
  funelim (follow R currentUrl redirectChain statusCodes response);
    intros w; [| split; reflexivity].
  destruct (url_resolve R (location_of response0) (to_string currentUrl))
    as [msg | next]; [split; reflexivity |].
  cbn [run exec].
  destruct (http N (length (sent w)) (Get (JStr next))) as [msg | response'].
  - split; reflexivity.
  - match goal with
    | |- context [run N _ ?w1] =>
        destruct (H next (Resp response') response' w1) as [Hc Hr]
    end.
    rewrite Hc, Hr. split; reflexivity.
Qed.

Lemma run_traverse_cache (url : jsval) (w : world) :
  cache (snd (run N (traverse R url) w)) = cache w
  /\ reads (snd (run N (traverse R url) w)) = reads w.
Proof.
  unfold traverse. cbn [bind trigger run exec].
  destruct (http N (length (sent w)) (Get url)) as [msg | response].
  - split; reflexivity.
  - cbn [bind]. 
    match goal with
    | |- context [run N (follow R ?a ?b ?c ?d) ?w1] =>
        destruct (run_follow_cache a b c d w1) as [Hc Hr]
    end.
    rewrite Hc, Hr. split; reflexivity.
Qed.

(** The traversal starts with a request to the URL. *)
Lemma traverse_requests (url : jsval) (w : world) :
  exists rest, sent (snd (run N (traverse R url) w)) = sent w ++ Get url :: rest.
Proof.
  unfold traverse. cbn [bind trigger run exec].
  match goal with
  | |- context [run N ?p ?w1] => destruct (run_sent N p w1) as [l Hl]
  end.
  exists l. rewrite Hl. cbn [sent]. rewrite <- app_assoc. reflexivity.
Qed.

(** The call of [checkRedirects] on a miss is the [try] block. *)
Lemma checkRedirects_miss (url : jsval) (w : world) :
  fst (run N (cache_read (redirect_key url)) w) = None ->
  run N (checkRedirects R url) w
  = run N (resolve R url (redirect_key url))
      (snd (run N (cache_read (redirect_key url)) w)).
Proof.
  intros Hmiss. unfold checkRedirects.
  rewrite run_bind, Hmiss. reflexivity.
Qed.

(** The call of [checkRedirects] on a fresh entry returns its data and
    only reads the clock. *)
Lemma checkRedirects_hit (url : jsval) (w : world) (e : entry) :
  cache w !! redirect_key url = Some e ->
  clock N (reads w) - timestamp e < CACHE_TTL ->
  run N (checkRedirects R url) w = (as_redirect (data e), ticked w).
Proof.
  intros He Hfresh. unfold checkRedirects.
  rewrite run_bind, run_cache_read, He.
  apply Z.ltb_lt in Hfresh. rewrite Hfresh. reflexivity.
Qed.

(** The [catch]: the result when the traversal throws. *)
Lemma run_resolve_thrown (url : jsval) (key msg : string)
    (chain : list jsval) (codes : list Z) (w : world) :
  fst (run N (traverse R url) w) = Thrown msg chain codes ->
  run N (resolve R url key) w
  = (redirect_error url msg, snd (run N (traverse R url) w)).
Proof.
  intros Ht. unfold resolve. rewrite run_bind, Ht. reflexivity.
Qed.

(** The end of the [try] block: the result is stored and returned. *)
Lemma run_resolve_arrived (url : jsval) (key : string)
    (chain : list jsval) (codes : list Z) (w : world) :
  fst (run N (traverse R url) w) = Arrived chain codes ->
  let w1 := snd (run N (traverse R url) w) in
  let result := fst (run N (classify R chain codes) w1) in
  let w2 := snd (run N (classify R chain codes) w1) in
  run N (resolve R url key) w
  = (result,
     {| cache := <[key := {| data := DRedirect result;
                             timestamp := clock N (reads w2) |}]> (cache w2);
        sent := sent w2;
        reads := S (reads w2) |}).
Proof.
  intros Ht. unfold resolve. rewrite run_bind, Ht.
  cbn [bind trigger run exec]. rewrite run_bind.
  cbn [bind trigger run exec cache sent reads]. reflexivity.
Qed.

(** The classification when a redirect occurred. *)
Lemma run_classify_redirected (chain : list jsval) (codes : list Z) (w : world) :
  (1 < length chain)%nat ->
  let finalUrlSafety := fst (run N (checkUrlSafety R (List.last chain JUndefined)) w) in
  run N (classify R chain codes) w
  = ({| Redirect.status :=
          if String.eqb (Safety.status finalUrlSafety) "unsafe"
             && gt_zero (Safety.positives finalUrlSafety)
          then "suspicious" else "clean";
        Redirect.message := None;
        Redirect.redirect_chain := chain;
        Redirect.status_codes := codes;
        Redirect.final_url_safety := finalUrlSafety |},
     snd (run N (checkUrlSafety R (List.last chain JUndefined)) w)).
Proof.
  intros Hlen. unfold classify.
  apply Nat.ltb_lt in Hlen. rewrite Hlen.
  rewrite run_bind. reflexivity.
Qed.


(** Lines 101-125 on a traversal that arrives with more than one URL,
    for which the client has to hand a redirect to the code (the client
    of line 75 does not).  When the safety check of the last URL returns
    an error, the result of [checkRedirects] has status [clean] and
    embeds that error; it is stored in the cache all the same, and every
    later call that reads the entry within 24h returns it without sending
    any request. *)
Lemma embedded_safety_error_is_cached
    (url : jsval) (chain : list jsval) (codes : list Z) (w : world) :
  let w0 := snd (run N (cache_read (redirect_key url)) w) in
  let w1 := snd (run N (traverse R url) w0) in
  let finalUrlSafety := fst (run N (checkUrlSafety R (List.last chain JUndefined)) w1) in
  let w2 := snd (run N (checkUrlSafety R (List.last chain JUndefined)) w1) in
  fst (run N (cache_read (redirect_key url)) w) = None ->
  fst (run N (traverse R url) w0) = Arrived chain codes ->
  (1 < length chain)%nat ->
  Safety.status finalUrlSafety = "error" ->
  let result := fst (run N (checkRedirects R url) w) in
  let stored := {| data := DRedirect result; timestamp := clock N (reads w2) |} in
  Redirect.status result = "clean"
  /\ Redirect.final_url_safety result = finalUrlSafety
  /\ cache (snd (run N (checkRedirects R url) w))
     = <[redirect_key url := stored]> (cache w2)
  /\ forall later : world,
       cache later !! redirect_key url = Some stored ->
       clock N (reads later) - timestamp stored < CACHE_TTL ->
       run N (checkRedirects R url) later = (result, ticked later)
       /\ Safety.status (Redirect.final_url_safety
                           (fst (run N (checkRedirects R url) later))) = "error"
       /\ sent (snd (run N (checkRedirects R url) later)) = sent later.
Proof.
  intros w0 w1 finalUrlSafety w2 Hmiss Ht Hlen Herr result stored.
  assert (Hrun : run N (checkRedirects R url) w =
    ({| Redirect.status := "clean"; Redirect.message := None;
        Redirect.redirect_chain := chain; Redirect.status_codes := codes;
        Redirect.final_url_safety := finalUrlSafety |},
     {| cache := <[redirect_key url :=
                     {| data := DRedirect
                          {| Redirect.status := "clean"; Redirect.message := None;
                             Redirect.redirect_chain := chain;
                             Redirect.status_codes := codes;
                             Redirect.final_url_safety := finalUrlSafety |};
                        timestamp := clock N (reads w2) |}]> (cache w2);
        sent := sent w2; reads := S (reads w2) |})).
  { rewrite checkRedirects_miss by exact Hmiss.
    rewrite (run_resolve_arrived _ _ _ _ _ Ht).
    fold w0 w1. rewrite (run_classify_redirected _ _ _ Hlen).
    fold finalUrlSafety w2. cbn [fst snd]. rewrite Herr. reflexivity. }
  subst result stored. rewrite Hrun. cbn [fst snd cache Redirect.status
    Redirect.final_url_safety].
  do 3 (split; [reflexivity |]).
  intros later Hlater Hfresh.
  rewrite (checkRedirects_hit _ _ _ Hlater Hfresh).
  cbn [fst snd data as_redirect Redirect.final_url_safety ticked sent].
  split; [reflexivity |]. split; [exact Herr | reflexivity].
Qed.

(** The read of an entry that has reached the age [CACHE_TTL] removes it
    and reports a miss. *)
Lemma run_cache_read_stale (key : string) (e : entry) (w : world) :
  cache w !! key = Some e ->
  CACHE_TTL <= clock N (reads w) - timestamp e ->
  run N (cache_read key) w = (None, evicted key w).
Proof.
  intros He Hold. rewrite run_cache_read, He.
  destruct (Z.ltb_spec (clock N (reads w) - timestamp e) CACHE_TTL);
    [lia | reflexivity].
Qed.

Lemma evicted_with_data (key : string) (e : entry) (d : cached) (w : world) :
  evicted key (with_data key e d w) = evicted key w.
Proof.
  unfold evicted, with_data. cbn [cache sent reads].
  rewrite delete_insert_eq. reflexivity.
Qed.

(** C7. When the entry under the key of a call is older than 24h, the call
    removes it on its read and is the fresh computation run on the cache
    without it: the [try] block of [checkUrlSafety], which starts with the
    submission, or that of [checkRedirects], which starts with the request
    to the URL.  The outcome does not depend on the data of the stale
    entry. *)
Theorem stale_entry_is_evicted_and_recomputed
    (s : side) (url : jsval) (e : entry) (w : world) :
  cache w !! key_of s url = Some e ->
  CACHE_TTL < clock N (reads w) - timestamp e ->
  cache (evicted (key_of s url) w) !! key_of s url = None
  /\ (forall key, key <> key_of s url ->
        cache (evicted (key_of s url) w) !! key = cache w !! key)
  /\ match s with
     | SafetyCall =>
         run N (checkUrlSafety R url) w
         = run N (scan R url (safety_key url)) (evicted (safety_key url) w)
         /\ (forall d : cached,
               run N (checkUrlSafety R url) (with_data (safety_key url) e d w)
               = run N (checkUrlSafety R url) w)
         /\ match encodeURIComponent R (to_string url) with
            | inr enc =>
                exists rest,
                  sent (snd (run N (checkUrlSafety R url) w))
                  = sent w ++ Post scan_endpoint (scan_body R enc) :: rest
            | inl msg =>
                fst (run N (checkUrlSafety R url) w) = Safety.error msg
            end
     | RedirectsCall =>
         run N (checkRedirects R url) w
         = run N (resolve R url (redirect_key url)) (evicted (redirect_key url) w)
         /\ (forall d : cached,
               run N (checkRedirects R url) (with_data (redirect_key url) e d w)
               = run N (checkRedirects R url) w)
         /\ exists rest,
              sent (snd (run N (checkRedirects R url) w))
              = sent w ++ Get url :: rest
     end.
Proof.
  intros He Hold.
  assert (Hread : run N (cache_read (key_of s url)) w
                  = (None, evicted (key_of s url) w))
    by (apply (run_cache_read_stale _ e); [exact He | lia]).
  assert (Hread' : forall d,
            run N (cache_read (key_of s url)) (with_data (key_of s url) e d w)
            = (None, evicted (key_of s url) w)).
  { intros d. rewrite <- (evicted_with_data (key_of s url) e d w).
    apply (run_cache_read_stale _ {| data := d; timestamp := timestamp e |}).
    - cbn [with_data cache]. apply lookup_insert_eq.
    - cbn [with_data reads timestamp]. lia. }
  split; [apply lookup_delete_eq |].
  split; [intros key Hkey; apply lookup_delete_ne; congruence |].
  destruct s; cbn [key_of] in *.
  - assert (Hrun : run N (checkUrlSafety R url) w
                   = run N (scan R url (safety_key url))
                       (evicted (safety_key url) w)).
    { rewrite checkUrlSafety_miss by (rewrite Hread; reflexivity).
      rewrite Hread. reflexivity. }
    split; [exact Hrun |]. split.
    + intros d. rewrite Hrun.
      rewrite checkUrlSafety_miss by (rewrite Hread'; reflexivity).
      rewrite Hread'. reflexivity.
    + rewrite Hrun.
      destruct (encodeURIComponent R (to_string url)) as [msg | enc] eqn:Henc.
      * unfold scan. rewrite Henc. reflexivity.
      * apply (scan_submits N R url (safety_key url) enc
                 (evicted (safety_key url) w) Henc).
  - assert (Hrun : run N (checkRedirects R url) w
                   = run N (resolve R url (redirect_key url))
                       (evicted (redirect_key url) w)).
    { rewrite checkRedirects_miss by (rewrite Hread; reflexivity).
      rewrite Hread. reflexivity. }
    split; [exact Hrun |]. split.
    + intros d. rewrite Hrun.
      rewrite checkRedirects_miss by (rewrite Hread'; reflexivity).
      rewrite Hread'. reflexivity.
    + rewrite Hrun. unfold resolve. rewrite run_bind.
      destruct (traverse_requests url (evicted (redirect_key url) w))
        as [l Hl].
      match goal with
      | |- context [run N ?p ?w1] =>
          match p with
          | traverse _ _ => fail 1
          | _ => destruct (run_sent N p w1) as [l2 Hl2]
          end
      end.
      exists (l ++ l2). rewrite Hl2, Hl. cbn [evicted sent].
      rewrite <- app_assoc. reflexivity.
Qed.

End Resolver.

(** The catch block of lines 127-134 does not see [redirectChain].  With a
    client that hands redirects to the code (not the one of line 75): the
    first request is answered by a redirect, the second request fails;
    two URLs had been collected, and the result holds the first alone. *)
Example error_result_without_following_client :
  let N := Demo.scripted [Demo.ok 302 (Some "http://b/") no_report;
                          Threw "socket hang up"] (fun _ => 0) in
  let u := JStr "http://a/" in
  let collected := [JStr "http://a/"; JStr "http://b/"] in
  fst (run N (traverse Demo.runtime u) boot) = Thrown "socket hang up" collected [302]
  /\ Redirect.status (fst (run N (checkRedirects Demo.runtime u) boot)) = "error"
  /\ Redirect.redirect_chain (fst (run N (checkRedirects Demo.runtime u) boot))
     <> collected.
Proof. vm_compute. repeat split. discriminate. Qed.

(** ** Invariants of the cache and of the tasks *)

Lemma safety_key_not_redirect_key (u v : jsval) : safety_key u <> redirect_key v.
Proof. unfold safety_key, redirect_key. simpl. discriminate. Qed.

Lemma entry_ok_safety (u : jsval) (e : entry) :
  entry_ok (safety_key u) e -> exists r, data e = DSafety r.
Proof.
  unfold entry_ok. destruct (data e) as [r | r].
  - eauto.
  - intros [[v Hv] _]. destruct (safety_key_not_redirect_key u v Hv).
Qed.

Lemma entry_ok_redirect (u : jsval) (e : entry) :
  entry_ok (redirect_key u) e ->
  exists r, data e = DRedirect r /\ redirect_ok r.
Proof.
  unfold entry_ok. destruct (data e) as [r | r].
  - intros [v Hv]. symmetry in Hv.
    destruct (safety_key_not_redirect_key v u Hv).
  - intros [_ Hr]. eauto.
Qed.

Lemma wp_mono {A} (p : prog A) (Q Q' : A -> Prop) :
  (forall a, Q a -> Q' a) -> wp p Q -> wp p Q'.
Proof.
  intros HQ. induction p as [a | X e k IH]; simpl.
  - apply HQ.
  - intros [Hg Hk]. split; [exact Hg |]. intros x Hx. apply IH, Hk, Hx.
Qed.

Lemma wp_bind {A B} (p : prog A) (f : A -> prog B) (Q : B -> Prop) :
  wp p (fun a => wp (f a) Q) -> wp (bind p f) Q.
Proof.
  induction p as [a | X e k IH]; simpl.
  - trivial.
  - intros [Hg Hk]. split; [exact Hg |]. intros x Hx. apply IH, Hk, Hx.
Qed.

Section Soundness.

Context (N : outside).

(** An effect that keeps its guarantee preserves the invariant of the
    cache, and its answer can be relied upon. *)
Lemma exec_sound {X} (e : eff X) (w : world) :
  cache_ok (cache w) -> guar e ->
  cache_ok (cache (snd (exec N e w))) /\ rely e (fst (exec N e w)).
Proof.
  intros Hc Hg. destruct e; simpl; try (split; [exact Hc | exact I]).
  - split; [exact Hc |].
    destruct (cache w !! key) as [en |] eqn:Hen; [| exact I].
    apply (Hc key en Hen).
  - split; [| exact I]. intros k en Hk.
    apply lookup_delete_Some in Hk as [_ Hk]. apply (Hc k en Hk).
  - split; [| exact I]. intros k en Hk.
    apply lookup_insert_Some in Hk as [[<- <-] | [_ Hk]].
    + exact Hg.
    + apply (Hc k en Hk).
Qed.

Lemma run_sound {A} (p : prog A) (Q : A -> Prop) (w : world) :
  cache_ok (cache w) -> wp p Q ->
  cache_ok (cache (snd (run N p w))) /\ Q (fst (run N p w)).
Proof.
  revert w. induction p as [a | X e k IH]; intros w Hc Hp; simpl in *.
  - split; assumption.
  - destruct Hp as [Hg Hk].
    destruct (exec_sound e w Hc Hg) as [Hc' Hr].
    destruct (exec N e w) as [x w']. apply IH; [exact Hc' | apply Hk, Hr].
Qed.

Lemma advance_sound {A} (p : prog A) (Q : A -> Prop) (w : world) :
  cache_ok (cache w) -> wp p Q ->
  cache_ok (cache (snd (advance N p w))) /\ wp (fst (advance N p w)) Q.
Proof.
  revert w. induction p as [a | X e k IH]; intros w Hc Hp.
  - split; assumption.
  - cbn [advance]. destruct (suspends e); [split; assumption |].
    simpl in Hp. destruct Hp as [Hg Hk].
    destruct (exec_sound e w Hc Hg) as [Hc' Hr].
    destruct (exec N e w) as [x w']. apply IH; [exact Hc' | apply Hk, Hr].
Qed.

Lemma resume_sound {A} (p : prog A) (Q : A -> Prop) (w : world) :
  cache_ok (cache w) -> wp p Q ->
  cache_ok (cache (snd (resume N p w))) /\ wp (fst (resume N p w)) Q.
Proof.
  intros Hc Hp. destruct p as [a | X e k].
  - split; assumption.
  - cbn [resume]. simpl in Hp. destruct Hp as [Hg Hk].
    destruct (exec_sound e w Hc Hg) as [Hc' Hr].
    destruct (exec N e w) as [x w'].
    apply advance_sound; [exact Hc' | apply Hk, Hr].
Qed.

End Soundness.

Section ProgramsKeepInvariants.

Context (R : runtime).

Lemma wp_cache_read (key : string) :
  wp (cache_read key)
     (fun hit => match hit with
                 | Some d => exists e, data e = d /\ entry_ok key e
                 | None => True
                 end).
Proof.
  unfold cache_read. simpl. split; [exact I |].
  intros [e |] He; simpl; [| exact I].
  split; [exact I |]. intros now _.
  destruct (now - timestamp e <? CACHE_TTL); simpl.
  - exists e. split; [reflexivity | exact He].
  - split; [exact I |]. intros _ _. exact I.
Qed.

Lemma wp_poll (n : nat) (u : jsval) (enc : string) :
  wp (poll R n (safety_key u) enc) (fun _ => True).
Proof.
  induction n as [| n IH]; simpl; [exact I |].
  split; [exact I |]. intros [msg | resp] _; simpl; [exact I |].
  destruct (strict_eq (response_code (resp_data resp)) 1); simpl.
  - split; [exact I |]. intros now _. split.
    + exists u. reflexivity.
    + intros _ _. exact I.
  - split; [exact I |]. intros _ _. exact IH.
Qed.

Lemma wp_checkUrlSafety (u : jsval) :
  wp (checkUrlSafety R u) (fun _ => True).
Proof.
  unfold checkUrlSafety. apply wp_bind.
  eapply wp_mono; [| apply wp_cache_read].
  intros [d |] _; cbn [wp]; [exact I |].
  unfold scan.
  destruct (encodeURIComponent R (to_string u)) as [msg | enc];
    cbn [wp bind trigger]; [exact I |].
  split; [exact I |]. intros [msg | resp] _; cbn [wp]; [exact I |].
  destruct (negb (resp_status resp =? 200)); cbn [wp]; [exact I |].
  apply wp_poll.
Qed.

(** The loop keeps the chain within four URLs: it is entered only with at
    most three. *)
Lemma wp_follow (currentUrl : jsval) (redirectChain : list jsval)
    (statusCodes : list Z) (response : response) :
  (length redirectChain <= 4)%nat ->
  wp (follow R currentUrl redirectChain statusCodes response) traversal_ok.
Proof.
  funelim (follow R currentUrl redirectChain statusCodes response);
    intros Hlen; [| exact Hlen].
  destruct (url_resolve R (location_of response0) (to_string currentUrl))
    as [msg | next]; cbn [wp]; [exact I |].
  split; [exact I |]. intros [msg | response'] _; cbn [wp]; [exact I |].
  apply (H next (Resp response') response').
  pose proof Hloop as Hcond. unfold redirecting in Hcond.
  rewrite !andb_true_iff in Hcond. destruct Hcond as [_ Hle].
  apply Nat.leb_le in Hle. rewrite length_app. simpl. lia.
Qed.

Lemma wp_traverse (u : jsval) : wp (traverse R u) traversal_ok.
Proof.
  unfold traverse. cbn [wp bind trigger].
  split; [exact I |]. intros [msg | response] _; cbn [wp bind]; [exact I |].
  apply wp_follow. simpl. lia.
Qed.

Lemma wp_classify (redirectChain : list jsval) (statusCodes : list Z) :
  (length redirectChain <= 4)%nat ->
  wp (classify R redirectChain statusCodes) redirect_ok.
Proof.
  intros Hlen. unfold classify.
  destruct (1 <? length redirectChain)%nat eqn:Hmany.
  - apply wp_bind. eapply wp_mono; [| apply wp_checkUrlSafety].
    intros finalUrlSafety _. cbn [wp].
    unfold redirect_ok, flagged. cbn [Redirect.redirect_chain Redirect.status
      Redirect.final_url_safety]. rewrite Hmany. split; [exact Hlen |].
    right. reflexivity.
  - cbn [wp]. unfold redirect_ok, flagged.
    cbn [Redirect.redirect_chain Redirect.status Redirect.final_url_safety].
    rewrite Hmany. split; [exact Hlen |]. right. reflexivity.
Qed.

Lemma redirect_error_ok (u : jsval) (msg : string) :
  redirect_ok (redirect_error u msg).
Proof. split; [simpl; lia | left; reflexivity]. Qed.

Lemma wp_resolve (u : jsval) :
  wp (resolve R u (redirect_key u)) redirect_ok.
Proof.
  unfold resolve. apply wp_bind. eapply wp_mono; [| apply wp_traverse].
  intros [msg chain codes | chain codes] Ht; cbn [wp bind trigger].
  - split; [exact I |]. intros _ _. apply redirect_error_ok.
  - split; [exact I |]. intros _ _. apply wp_bind.
    eapply wp_mono; [| apply wp_classify; exact Ht].
    intros result Hresult. cbn [wp bind trigger].
    split; [exact I |]. intros _ _.
    split; [exact I |]. intros now _.
    split.
    + split; [exists u; reflexivity | exact Hresult].
    + intros _ _. exact Hresult.
Qed.

Lemma wp_checkRedirects (u : jsval) :
  wp (checkRedirects R u) redirect_ok.
Proof.
  unfold checkRedirects. apply wp_bind.
  eapply wp_mono; [| apply wp_cache_read].
  intros [d |] Hd; cbn [wp]; [| apply wp_resolve].
  destruct Hd as (e & <- & He).
  destruct (entry_ok_redirect u e He) as (r & -> & Hr). exact Hr.
Qed.

Lemma task_ok_settle (t : task) : task_ok t -> task_ok (settle t).
Proof.
  destruct t as [r | u st ps pr]; [trivial |].
  destruct ps as [s |]; [| trivial].
  destruct pr as [r |]; [| trivial].
  intros [_ Hr]. exact Hr.
Qed.

Lemma task_ok_start (u : jsval) : task_ok (start R u).
Proof.
  unfold start. destruct (validateUrlStructure R u); cbn [task_ok].
  - split; [apply wp_checkUrlSafety | apply wp_checkRedirects].
  - split; [simpl; lia | left; reflexivity].
Qed.

End ProgramsKeepInvariants.

Section TasksKeepInvariants.

Context (N : outside) (R : runtime).

Lemma spawn_sound (u : jsval) (w : world) :
  cache_ok (cache w) ->
  cache_ok (cache (snd (spawn N R u w))) /\ task_ok (fst (spawn N R u w)).
Proof.
  intros Hc. unfold spawn.
  pose proof (task_ok_start R u) as Hstart.
  destruct (start R u) as [r | v st ps pr]; [split; assumption |].
  destruct Hstart as [Hps Hpr].
  destruct (advance_sound N ps _ w Hc Hps) as [Hc1 Hps'].
  destruct (advance N ps w) as [ps' w1]. cbn [fst snd] in *.
  destruct (advance_sound N pr _ w1 Hc1 Hpr) as [Hc2 Hpr'].
  destruct (advance N pr w1) as [pr' w2]. cbn [fst snd] in *.
  split; [exact Hc2 |]. apply task_ok_settle. split; assumption.
Qed.

Lemma spawn_all_sound (urls : list jsval) (w : world) :
  cache_ok (cache w) ->
  cache_ok (cache (snd (spawn_all N R urls w)))
  /\ Forall task_ok (fst (spawn_all N R urls w)).
Proof.
  revert w. induction urls as [| u rest IH]; intros w Hc; cbn [spawn_all].
  - split; [exact Hc | constructor].
  - destruct (spawn_sound u w Hc) as [Hc1 Ht].
    destruct (spawn N R u w) as [t w1]. cbn [fst snd] in *.
    destruct (IH w1 Hc1) as [Hc2 Hts].
    destruct (spawn_all N R rest w1) as [ts w2]. cbn [fst snd] in *.
    split; [exact Hc2 | constructor; assumption].
Qed.

Lemma step_task_sound (s : side) (t : task) (w : world) :
  cache_ok (cache w) -> task_ok t ->
  cache_ok (cache (snd (step_task N s t w)))
  /\ task_ok (fst (step_task N s t w)).
Proof.
  intros Hc Ht. destruct t as [r | u st ps pr]; [split; assumption |].
  destruct Ht as [Hps Hpr]. destruct s; cbn [step_task].
  - destruct (resume_sound N ps _ w Hc Hps) as [Hc' Hps'].
    destruct (resume N ps w) as [ps' w']. cbn [fst snd] in *.
    split; [exact Hc' |]. apply task_ok_settle. split; assumption.
  - destruct (resume_sound N pr _ w Hc Hpr) as [Hc' Hpr'].
    destruct (resume N pr w) as [pr' w']. cbn [fst snd] in *.
    split; [exact Hc' |]. apply task_ok_settle. split; assumption.
Qed.

Lemma interleave_sound (sched : schedule) (tasks : list task) (w : world) :
  cache_ok (cache w) -> Forall task_ok tasks ->
  cache_ok (cache (snd (interleave N sched tasks w)))
  /\ Forall task_ok (fst (interleave N sched tasks w)).
Proof.
  revert tasks w.
  induction sched as [| [i s] rest IH]; intros tasks w Hc Hts; cbn [interleave].
  - split; assumption.
  - destruct (tasks !! i) as [t |] eqn:Hi; [| apply IH; assumption].
    assert (Ht : task_ok t)
      by (eapply Forall_lookup_1; [exact Hts | exact Hi]).
    destruct (step_task_sound s t w Hc Ht) as [Hc' Ht'].
    destruct (step_task N s t w) as [t' w']. cbn [fst snd] in *.
    apply IH; [exact Hc' |]. apply Forall_insert; assumption.
Qed.

Lemma finish_sound (t : task) (w : world) :
  cache_ok (cache w) -> task_ok t ->
  cache_ok (cache (snd (finish N t w)))
  /\ redirect_ok (redirects (fst (finish N t w))).
Proof.
  intros Hc Ht. destruct t as [r | u st ps pr]; [split; assumption |].
  destruct Ht as [Hps Hpr]. cbn [finish].
  destruct (run_sound N ps _ w Hc Hps) as [Hc1 _].
  destruct (run N ps w) as [s w1]. cbn [fst snd] in *.
  destruct (run_sound N pr _ w1 Hc1 Hpr) as [Hc2 Hr].
  destruct (run N pr w1) as [r w2]. cbn [fst snd] in *.
  split; assumption.
Qed.

Lemma finish_all_sound (tasks : list task) (w : world) :
  cache_ok (cache w) -> Forall task_ok tasks ->
  cache_ok (cache (snd (finish_all N tasks w)))
  /\ Forall (fun result => redirect_ok (redirects result))
       (fst (finish_all N tasks w)).
Proof.
  revert w. induction tasks as [| t rest IH]; intros w Hc Hts; cbn [finish_all].
  - split; [exact Hc | constructor].
  - apply Forall_cons in Hts as [Ht Hts].
    destruct (finish_sound t w Hc Ht) as [Hc1 Hr].
    destruct (finish N t w) as [r w1]. cbn [fst snd] in *.
    destruct (IH w1 Hc1 Hts) as [Hc2 Hrs].
    destruct (finish_all N rest w1) as [rs w2]. cbn [fst snd] in *.
    split; [exact Hc2 | constructor; assumption].
Qed.

Lemma handler_sound (sched : schedule) (urls : jsval) (w : world) :
  cache_ok (cache w) ->
  cache_ok (cache (snd (handler N R sched urls w)))
  /\ forall results,
       fst (handler N R sched urls w) = Status200 results ->
       Forall (fun result => redirect_ok (redirects result)) results.
Proof.
  intros Hc. unfold handler.
  destruct (negb (truthy urls) || negb (isArray urls)).
  - split; [exact Hc | discriminate].
  - destruct (spawn_all_sound (elements urls) w Hc) as [Hc1 Hts].
    destruct (spawn_all N R (elements urls) w) as [tasks w1]. cbn [fst snd] in *.
    destruct (interleave_sound sched tasks w1 Hc1 Hts) as [Hc2 Hts'].
    destruct (interleave N sched tasks w1) as [tasks' w2]. cbn [fst snd] in *.
    destruct (finish_all_sound tasks' w2 Hc2 Hts') as [Hc3 Hrs].
    destruct (finish_all N tasks' w2) as [results w3]. cbn [fst snd] in *.
    split; [exact Hc3 |]. intros rs [= <-]. exact Hrs.
Qed.

(** In every reachable state the entries of the cache and the tasks are
    good. *)
Lemma reachable_sound (w : world) (pool : list task) :
  reachable N R w pool -> cache_ok (cache w) /\ Forall task_ok pool.
Proof.
  induction 1 as [| sched urls w pool _ [Hc Hp] | urls w pool _ [Hc Hp]
                  | i s t w pool _ [Hc Hp] Hi].
  - split; [| constructor]. intros key e He.
    cbn [boot cache] in He. rewrite lookup_empty in He. discriminate.
  - split; [| exact Hp]. apply handler_sound, Hc.
  - destruct (spawn_all_sound urls w Hc) as [Hc' Hts].
    split; [exact Hc' |]. apply Forall_app. split; assumption.
  - assert (Ht : task_ok t) by (eapply Forall_lookup_1; [exact Hp | exact Hi]).
    destruct (step_task_sound s t w Hc Ht) as [Hc' Ht'].
    split; [exact Hc' |]. apply Forall_insert; assumption.
Qed.

(** The results of [checkRedirects] in a reachable state: those of a call
    that runs from start to end, those of the tasks that have settled,
    those of a request handled under any schedule. *)
Lemma reachable_results (w : world) (pool : list task) :
  reachable N R w pool ->
  (forall u, redirect_ok (fst (run N (checkRedirects R u) w)))
  /\ (forall result, Settled result ∈ pool -> redirect_ok (redirects result))
  /\ (forall sched urls results,
        fst (handler N R sched urls w) = Status200 results ->
        forall result, result ∈ results -> redirect_ok (redirects result)).
Proof.
  intros Hreach. destruct (reachable_sound w pool Hreach) as [Hc Hp].
  split; [| split].
  - intros u. apply (run_sound N _ _ w Hc (wp_checkRedirects R u)).
  - intros result Hin.
    apply (proj1 (Forall_forall _ _) Hp (Settled result) Hin).
  - intros sched urls results Hreply result Hin.
    destruct (handler_sound sched urls w Hc) as [_ Hrs].
    apply (proj1 (Forall_forall _ _) (Hrs results Hreply) result Hin).
Qed.

End TasksKeepInvariants.

(** ** The results of the redirect resolver *)

Lemma redirect_ok_hop_bound (r : Redirect.t) : redirect_ok r -> hop_bound r.
Proof. intros [Hlen _]. unfold hop_bound. lia. Qed.

Lemma flagged_spec (r : Redirect.t) :
  flagged r = true <-> redirected_to_unsafe r.
Proof.
  unfold flagged, redirected_to_unsafe, gt_zero.
  rewrite !andb_true_iff, Nat.ltb_lt, String.eqb_eq.
  destruct (Safety.positives (Redirect.final_url_safety r)) as [n |].
  - rewrite Z.ltb_lt. split.
    + intros [[H1 H2] H3]. eauto.
    + intros (H1 & H2 & m & [= <-] & H3). auto.
  - split.
    + intros [_ H]. discriminate.
    + intros (_ & _ & m & H & _). discriminate.
Qed.

Lemma redirect_ok_classification (r : Redirect.t) :
  redirect_ok r -> classification_law r.
Proof.
  intros [_ [Herr | Hstatus]] Hne; [contradiction |].
  pose proof (flagged_spec r) as Hspec.
  destruct (flagged r).
  - split; [| intros Hno; destruct Hno; apply Hspec; reflexivity].
    split; [intros _; apply Hspec; reflexivity | intros _; exact Hstatus].
  - split; [| intros _; exact Hstatus].
    rewrite Hstatus. split; [discriminate |].
    intros H. apply Hspec in H. discriminate.
Qed.

Section ResolverResults.

Context (N : outside) (R : runtime).

(** C2. In every reachable state of the server and whatever the servers
    answer, a result of [checkRedirects] satisfies
    [len(redirect_chain) - 1 <= 3]: the result of a call that runs from
    start to end, read from the cache or computed; the result of every
    task that has settled; and the results of a request handled under any
    schedule. *)
Theorem redirect_chain_within_three_hops (w : world) (pool : list task) :
  reachable N R w pool ->
  (forall u, hop_bound (fst (run N (checkRedirects R u) w)))
  /\ (forall result, Settled result ∈ pool -> hop_bound (redirects result))
  /\ (forall sched urls results,
        fst (handler N R sched urls w) = Status200 results ->
        forall result, result ∈ results -> hop_bound (redirects result)).
Proof.
  intros Hreach.
  destruct (reachable_results N R w pool Hreach) as (Hrun & Hpool & Hreply).
  split; [| split].
  - intros u. apply redirect_ok_hop_bound, Hrun.
  - intros result Hin. apply redirect_ok_hop_bound, Hpool, Hin.
  - intros sched urls results Hres result Hin.
    apply redirect_ok_hop_bound. exact (Hreply sched urls results Hres result Hin).
Qed.

(** The result of a call that computes: it is built from the chain of the
    traversal and from the safety check of the last URL. *)
Lemma run_checkRedirects_arrived (u : jsval) (chain : list jsval)
    (codes : list Z) (w : world) :
  let w0 := snd (run N (cache_read (redirect_key u)) w) in
  let w1 := snd (run N (traverse R u) w0) in
  let finalUrlSafety :=
    fst (run N (checkUrlSafety R (List.last chain JUndefined)) w1) in
  fst (run N (cache_read (redirect_key u)) w) = None ->
  fst (run N (traverse R u) w0) = Arrived chain codes ->
  classified_from chain codes finalUrlSafety
    (fst (run N (checkRedirects R u) w)).
Proof.
  intros w0 w1 finalUrlSafety Hmiss Ht.
  rewrite (checkRedirects_miss N R u w Hmiss). fold w0.
  rewrite (run_resolve_arrived N R _ _ _ _ _ Ht). fold w1. cbn [fst].
  unfold classified_from.
  destruct (1 <? length chain)%nat eqn:Hmany.
  - rewrite (run_classify_redirected N R chain codes w1
               (proj1 (Nat.ltb_lt _ _) Hmany)).
    fold finalUrlSafety. cbn [fst Redirect.redirect_chain Redirect.status_codes
      Redirect.final_url_safety Redirect.status].
    do 3 (split; [reflexivity |]).
    apply Nat.ltb_lt in Hmany.
    destruct (String.eqb_spec (Safety.status finalUrlSafety) "unsafe")
      as [Hu | Hu]; cbn [andb].
    + unfold gt_zero.
      destruct (Safety.positives finalUrlSafety) as [n |].
      * destruct (Z.ltb_spec 0 n) as [Hn | Hn].
        -- split; [| left; reflexivity].
           split; [intros _; eauto | reflexivity].
        -- split; [| right; reflexivity].
           split; [discriminate |]. intros (_ & _ & m & [= <-] & Hm). lia.
      * split; [| right; reflexivity].
        split; [discriminate |]. intros (_ & _ & m & Hm & _). discriminate.
    + split; [| right; reflexivity].
      split; [discriminate |]. intros (_ & H & _). contradiction.
  - unfold classify. rewrite Hmany. cbn [run fst Redirect.redirect_chain
      Redirect.status_codes Redirect.final_url_safety Redirect.status].
    do 3 (split; [reflexivity |]).
    apply Nat.ltb_ge in Hmany.
    split; [| right; reflexivity].
    split; [discriminate |]. intros (H & _). lia.
Qed.

(** C4. In every reachable state of the server, a result of
    [checkRedirects] that is not an error has status [suspicious] if and
    only if a redirect occurred ([len(redirect_chain) > 1]) and the safety
    result of the last URL has status [unsafe] with [positives > 0]; in
    every other case that is not an error its status is [clean].  This
    holds of the fields of every result, read from the cache or computed;
    and a result that is computed has the chain and the status codes of
    its traversal, and its [final_url_safety] is what [checkUrlSafety]
    returns for the last URL of that chain (or [no_redirect] when the
    chain is the URL alone), which decides its status. *)
Theorem suspicious_iff_redirected_to_unsafe (w : world) (pool : list task) :
  reachable N R w pool ->
  (forall u, classification_law (fst (run N (checkRedirects R u) w)))
  /\ (forall result,
        Settled result ∈ pool -> classification_law (redirects result))
  /\ (forall sched urls results,
        fst (handler N R sched urls w) = Status200 results ->
        forall result,
          result ∈ results -> classification_law (redirects result))
  /\ (forall u chain codes,
        let w0 := snd (run N (cache_read (redirect_key u)) w) in
        let w1 := snd (run N (traverse R u) w0) in
        let finalUrlSafety :=
          fst (run N (checkUrlSafety R (List.last chain JUndefined)) w1) in
        fst (run N (cache_read (redirect_key u)) w) = None ->
        fst (run N (traverse R u) w0) = Arrived chain codes ->
        classified_from chain codes finalUrlSafety
          (fst (run N (checkRedirects R u) w))).
Proof.
  intros Hreach.
  destruct (reachable_results N R w pool Hreach) as (Hrun & Hpool & Hreply).
  split; [| split; [| split]].
  - intros u. apply redirect_ok_classification, Hrun.
  - intros result Hin. apply redirect_ok_classification, Hpool, Hin.
  - intros sched urls results Hres result Hin.
    apply redirect_ok_classification.
    exact (Hreply sched urls results Hres result Hin).
  - intros u chain codes. apply run_checkRedirects_arrived.
Qed.

End ResolverResults.

(** C2, on a concrete run: a request for one URL whose servers redirect
    without end is handled, and the URL is checked again. *)
Lemma redirect_chain_within_three_hops_witness :
  let u := JStr "http://a/" in
  let w := snd (handler Demo.endless Demo.runtime [] (JArr [u]) boot) in
  hop_bound (fst (run Demo.endless (checkRedirects Demo.runtime u) w)).
Proof.
  intros u w.
  apply (redirect_chain_within_three_hops Demo.endless Demo.runtime w []).
  apply reach_handled, reach_boot.
Defined.

(** When the servers redirect without end and each redirect is handed to
    the code, the traversal stops with four URLs in the chain, after four
    calls. *)
Example endless_redirects_stop_at_four :
  let r := fst (run Demo.endless
                  (checkRedirects Demo.runtime (JStr "http://a/")) boot) in
  length (Redirect.redirect_chain r) = 4%nat
  /\ Redirect.status_codes r = [302; 302; 302; 302]
  /\ Redirect.status r = "clean".
Proof. vm_compute. repeat split. Qed.

(** C4, on two concrete runs from the start of the process.  In the first
    the response to the URL is not a redirect.  In the second the code is
    handed a redirect to a URL that three engines flag (which takes a
    client that does not follow redirects itself). *)
Lemma suspicious_iff_redirected_to_unsafe_witness :
  let plain := Demo.scripted [Demo.ok 200 None no_report] (fun _ => 0) in
  let direct := fst (run plain (checkRedirects Demo.runtime
                                  (JStr "http://plain.example")) boot) in
  let flagged := fst (run Demo.flagged_redirect
                        (checkRedirects Demo.runtime (JStr "http://redir/a"))
                        boot) in
  (classification_law direct
   /\ Redirect.status direct = "clean"
   /\ Redirect.final_url_safety direct = Safety.only "no_redirect")
  /\ (classification_law flagged
      /\ Redirect.status flagged = "suspicious"
      /\ Redirect.redirect_chain flagged
         = [JStr "http://redir/a"; JStr "http://evil/"]
      /\ Safety.positives (Redirect.final_url_safety flagged) = Some 3).
Proof.
  intros plain direct flagged. split.
  - destruct (suspicious_iff_redirected_to_unsafe plain Demo.runtime boot []
                (reach_boot plain Demo.runtime)) as (Hlaw & _ & _ & Hfrom).
    split; [apply Hlaw |].
    destruct (Hfrom (JStr "http://plain.example")
                [JStr "http://plain.example"] [200] eq_refl eq_refl)
      as (_ & _ & Hfinal & _ & [Hs | Hc]).
    + exfalso. revert Hs. vm_compute. discriminate.
    + split; [exact Hc | exact Hfinal].
  - destruct (suspicious_iff_redirected_to_unsafe Demo.flagged_redirect
                Demo.runtime boot []
                (reach_boot Demo.flagged_redirect Demo.runtime))
      as (Hlaw & _ & _ & Hfrom).
    split; [apply Hlaw |].
    destruct (Hfrom (JStr "http://redir/a")
                [JStr "http://redir/a"; JStr "http://evil/"] [302; 200]
                eq_refl ltac:(vm_compute; reflexivity))
      as (Hchain & _ & Hfinal & Hiff & _).
    split; [| split; [exact Hchain |]].
    + apply Hiff. split; [cbn; lia |]. split; [vm_compute; reflexivity |].
      exists 3. split; [vm_compute; reflexivity | lia].
    + fold flagged in Hfinal. rewrite Hfinal. vm_compute. reflexivity.
Defined.

(** The third scenario of the specification, with a client that hands
    the redirect to the code. *)
Example redirect_to_flagged_is_suspicious :
  let r := fst (run Demo.flagged_redirect
                  (checkRedirects Demo.runtime (JStr "http://redir/a")) boot) in
  length (Redirect.redirect_chain r) = 2%nat
  /\ Redirect.status_codes r = [302; 200]
  /\ Redirect.status r = "suspicious".
Proof. vm_compute. repeat split. Qed.

(** C7, on a concrete run: both entries were stored at time 0 and are read
    one millisecond after they have reached 24h. *)
Lemma stale_entry_is_evicted_and_recomputed_witness :
  let N := Demo.scripted [] (fun _ => CACHE_TTL + 1) in
  let u := JStr "http://a/" in
  let w := Demo.cached_world u in
  (run N (checkUrlSafety Demo.runtime u) w
   = run N (scan Demo.runtime u (safety_key u)) (evicted (safety_key u) w))
  /\ (run N (checkRedirects Demo.runtime u) w
      = run N (resolve Demo.runtime u (redirect_key u))
          (evicted (redirect_key u) w)).
Proof.
  intros N u w. split.
  - refine (proj1 (proj2 (proj2 (stale_entry_is_evicted_and_recomputed
                            N Demo.runtime SafetyCall u
                            {| data := DSafety (Safety.only "safe");
                               timestamp := 0 |} w _ _)))).
    + vm_compute. reflexivity.
    + vm_compute. reflexivity.
  - refine (proj1 (proj2 (proj2 (stale_entry_is_evicted_and_recomputed
                            N Demo.runtime RedirectsCall u
                            {| data := DRedirect
                                 {| Redirect.status := "clean";
                                    Redirect.message := None;
                                    Redirect.redirect_chain := [u];
                                    Redirect.status_codes := [200];
                                    Redirect.final_url_safety :=
                                      Safety.only "no_redirect" |};
                               timestamp := 0 |} w _ _)))).
    + vm_compute. reflexivity.
    + vm_compute. reflexivity.
Defined.

(** ** The scenarios of the specification *)

(** A URL that does not parse: no request is sent. *)
Example invalid_url_sends_nothing :
  let N := Demo.scripted [] (fun _ => 0) in
  let u := JStr "not-a-url" in
  handler N Demo.runtime [] (JArr [u]) boot
  = (Status200 [invalid_result u
                  (Invalid "Invalid URL format" [u] [] (Safety.only "invalid"))],
     boot).
Proof. vm_compute. reflexivity. Qed.

(** A URL without redirect and with a clean report. *)
Example plain_url_is_safe_and_clean :
  let clean := {| response_code := Some 1; rep_positives := Some 0;
                  rep_total := Some 70 |} in
  let N := Demo.scripted [Demo.ok 200 None no_report;
                          Demo.ok 200 None clean;
                          Demo.ok 200 None no_report] (fun _ => 0) in
  exists result w',
    handler N Demo.runtime [] (JArr [JStr "http://plain.example"]) boot
    = (Status200 [result], w')
    /\ Safety.status (safety result) = "safe"
    /\ Redirect.status (redirects result) = "clean"
    /\ Safety.status (Redirect.final_url_safety (redirects result))
       = "no_redirect".
Proof. do 2 eexists. vm_compute. repeat split. Qed.

(** A string in place of the array. *)
Example string_body_is_rejected :
  handler (Demo.scripted [] (fun _ => 0)) Demo.runtime []
    (JStr "http://not-an-array") boot
  = (Status400 "Invalid input: URLs must be an array", boot).
Proof. reflexivity. Qed.

(** The task of the second URL may settle while that of the first still
    waits; the results are in the order of the URLs all the same. *)
Example later_slot_settles_first :
  let N := Demo.scripted [] (fun _ => 0) in
  let urls := [JStr "http://a/"; JStr "http://b/"] in
  let sched := [(1%nat, SafetyCall); (1%nat, RedirectsCall)] in
  let spawned := spawn_all N Demo.runtime urls boot in
  let tasks := fst (interleave N sched (fst spawned) (snd spawned)) in
  is_settled <$> tasks = [false; true]
  /\ exists results w',
       handler N Demo.runtime sched (JArr urls) boot = (Status200 results, w')
       /\ url <$> results = urls.
Proof.
  split; [vm_compute; reflexivity |].
  do 2 eexists. vm_compute. split; reflexivity.
Qed.

(** * Further properties of the server *)

(** ** Programs that meet a contract *)

Lemma meets_mono (C : contract) {A} (p : prog A) (Q Q' : A -> Prop) :
  (forall a, Q a -> Q' a) -> meets C p Q -> meets C p Q'.
Proof.
  intros HQ. induction p as [a | X e k IH]; cbn [meets].
  - apply HQ.
  - intros [Hg Hk]. split; [exact Hg |]. intros x Hx. apply IH, Hk, Hx.
Qed.

Lemma meets_bind (C : contract) {A B} (p : prog A) (f : A -> prog B)
    (Q : B -> Prop) :
  meets C p (fun a => meets C (f a) Q) -> meets C (bind p f) Q.
Proof.
  induction p as [a | X e k IH]; cbn [meets bind].
  - trivial.
  - intros [Hg Hk]. split; [exact Hg |]. intros x Hx. apply IH, Hk, Hx.
Qed.

Section ContractSoundness.

Context (N : outside) (C : contract) (Inv : world -> Prop).

(** The invariant of the world goes with the contract: an allowed effect
    keeps it, and under it the answers are as assumed. *)
Hypothesis exec_keeps :
  forall X (e : eff X) (w : world),
    Inv w -> allowed C X e ->
    Inv (snd (exec N e w)) /\ assumed C X e (fst (exec N e w)).

Lemma run_meets {A} (p : prog A) (Q : A -> Prop) (w : world) :
  Inv w -> meets C p Q ->
  Inv (snd (run N p w)) /\ Q (fst (run N p w)).
Proof.
  revert w. induction p as [a | X e k IH]; intros w Hi Hp; cbn [meets run] in *.
  - split; assumption.
  - destruct Hp as [Hg Hk].
    destruct (exec_keeps X e w Hi Hg) as [Hi' Hr].
    destruct (exec N e w) as [x w']. apply IH; [exact Hi' | apply Hk, Hr].
Qed.

Lemma advance_meets {A} (p : prog A) (Q : A -> Prop) (w : world) :
  Inv w -> meets C p Q ->
  Inv (snd (advance N p w)) /\ meets C (fst (advance N p w)) Q.
Proof.
  revert w. induction p as [a | X e k IH]; intros w Hi Hp.
  - split; assumption.
  - cbn [advance]. destruct (suspends e); [split; assumption |].
    cbn [meets] in Hp. destruct Hp as [Hg Hk].
    destruct (exec_keeps X e w Hi Hg) as [Hi' Hr].
    destruct (exec N e w) as [x w']. apply IH; [exact Hi' | apply Hk, Hr].
Qed.

Lemma resume_meets {A} (p : prog A) (Q : A -> Prop) (w : world) :
  Inv w -> meets C p Q ->
  Inv (snd (resume N p w)) /\ meets C (fst (resume N p w)) Q.
Proof.
  intros Hi Hp. destruct p as [a | X e k].
  - split; assumption.
  - cbn [resume]. cbn [meets] in Hp. destruct Hp as [Hg Hk].
    destruct (exec_keeps X e w Hi Hg) as [Hi' Hr].
    destruct (exec N e w) as [x w'].
    apply advance_meets; [exact Hi' | apply Hk, Hr].
Qed.

Context (R : runtime)
  (QS : jsval -> Safety.t -> Prop) (QR : jsval -> Redirect.t -> Prop).

Hypothesis safety_meets : forall u, meets C (checkUrlSafety R u) (QS u).
Hypothesis redirects_meets : forall u, meets C (checkRedirects R u) (QR u).
Hypothesis stub_meets :
  forall u st, QS u (safety (invalid_result u st))
               /\ QR u (redirects (invalid_result u st)).
Hypothesis boot_inv : Inv boot.

Lemma task_meets_settle (t : task) :
  task_meets C QS QR t -> task_meets C QS QR (settle t).
Proof.
  destruct t as [r | u st ps pr]; [trivial |].
  destruct ps as [s |]; [| trivial].
  destruct pr as [r |]; [| trivial].
  trivial.
Qed.

Lemma spawn_meets (u : jsval) (w : world) :
  Inv w ->
  Inv (snd (spawn N R u w)) /\ task_meets C QS QR (fst (spawn N R u w)).
Proof.
  intros Hi. unfold spawn, start.
  destruct (validateUrlStructure R u) as [domain | msg chain codes final].
  - pose proof (safety_meets u) as Hps. pose proof (redirects_meets u) as Hpr.
    revert Hps Hpr.
    generalize (checkUrlSafety R u), (checkRedirects R u). intros ps pr Hps Hpr.
    destruct (advance_meets ps _ w Hi Hps) as [Hi1 Hps'].
    destruct (advance N ps w) as [ps' w1]. cbn [fst snd] in *.
    destruct (advance_meets pr _ w1 Hi1 Hpr) as [Hi2 Hpr'].
    destruct (advance N pr w1) as [pr' w2]. cbn [fst snd] in *.
    split; [exact Hi2 |]. apply task_meets_settle. split; assumption.
  - split; [exact Hi |]. apply stub_meets.
Qed.

Lemma spawn_all_meets (urls : list jsval) (w : world) :
  Inv w ->
  Inv (snd (spawn_all N R urls w))
  /\ Forall (task_meets C QS QR) (fst (spawn_all N R urls w)).
Proof.
  revert w. induction urls as [| u rest IH]; intros w Hi; cbn [spawn_all].
  - split; [exact Hi | constructor].
  - destruct (spawn_meets u w Hi) as [Hi1 Ht].
    destruct (spawn N R u w) as [t w1]. cbn [fst snd] in *.
    destruct (IH w1 Hi1) as [Hi2 Hts].
    destruct (spawn_all N R rest w1) as [ts w2]. cbn [fst snd] in *.
    split; [exact Hi2 | constructor; assumption].
Qed.

Lemma step_task_meets (s : side) (t : task) (w : world) :
  Inv w -> task_meets C QS QR t ->
  Inv (snd (step_task N s t w))
  /\ task_meets C QS QR (fst (step_task N s t w)).
Proof.
  intros Hi Ht. destruct t as [r | u st ps pr]; [split; assumption |].
  destruct Ht as [Hps Hpr]. destruct s; cbn [step_task].
  - destruct (resume_meets ps _ w Hi Hps) as [Hi' Hps'].
    destruct (resume N ps w) as [ps' w']. cbn [fst snd] in *.
    split; [exact Hi' |]. apply task_meets_settle. split; assumption.
  - destruct (resume_meets pr _ w Hi Hpr) as [Hi' Hpr'].
    destruct (resume N pr w) as [pr' w']. cbn [fst snd] in *.
    split; [exact Hi' |]. apply task_meets_settle. split; assumption.
Qed.

Lemma interleave_meets (sched : schedule) (tasks : list task) (w : world) :
  Inv w -> Forall (task_meets C QS QR) tasks ->
  Inv (snd (interleave N sched tasks w))
  /\ Forall (task_meets C QS QR) (fst (interleave N sched tasks w)).
Proof.
  revert tasks w.
  induction sched as [| [i s] rest IH]; intros tasks w Hi Hts; cbn [interleave].
  - split; assumption.
  - destruct (tasks !! i) as [t |] eqn:Hti; [| apply IH; assumption].
    assert (Ht : task_meets C QS QR t)
      by (eapply Forall_lookup_1; [exact Hts | exact Hti]).
    destruct (step_task_meets s t w Hi Ht) as [Hi' Ht'].
    destruct (step_task N s t w) as [t' w']. cbn [fst snd] in *.
    apply IH; [exact Hi' |]. apply Forall_insert; assumption.
Qed.

Lemma finish_meets (t : task) (w : world) :
  Inv w -> task_meets C QS QR t ->
  Inv (snd (finish N t w))
  /\ QS (url (fst (finish N t w))) (safety (fst (finish N t w)))
  /\ QR (url (fst (finish N t w))) (redirects (fst (finish N t w))).
Proof.
  intros Hi Ht. destruct t as [r | u st ps pr].
  - destruct Ht. repeat split; assumption.
  - destruct Ht as [Hps Hpr]. cbn [finish].
    destruct (run_meets ps _ w Hi Hps) as [Hi1 Hs].
    destruct (run N ps w) as [s w1]. cbn [fst snd] in *.
    destruct (run_meets pr _ w1 Hi1 Hpr) as [Hi2 Hr].
    destruct (run N pr w1) as [r w2]. cbn [fst snd] in *.
    repeat split; assumption.
Qed.

Lemma finish_all_meets (tasks : list task) (w : world) :
  Inv w -> Forall (task_meets C QS QR) tasks ->
  Inv (snd (finish_all N tasks w))
  /\ Forall (fun result => QS (url result) (safety result)
                            /\ QR (url result) (redirects result))
       (fst (finish_all N tasks w)).
Proof.
  revert w. induction tasks as [| t rest IH]; intros w Hi Hts; cbn [finish_all].
  - split; [exact Hi | constructor].
  - apply Forall_cons in Hts as [Ht Hts].
    destruct (finish_meets t w Hi Ht) as [Hi1 Hr].
    destruct (finish N t w) as [r w1]. cbn [fst snd] in *.
    destruct (IH w1 Hi1 Hts) as [Hi2 Hrs].
    destruct (finish_all N rest w1) as [rs w2]. cbn [fst snd] in *.
    split; [exact Hi2 | constructor; assumption].
Qed.

Lemma handler_meets (sched : schedule) (urls : jsval) (w : world) :
  Inv w ->
  Inv (snd (handler N R sched urls w))
  /\ forall results,
       fst (handler N R sched urls w) = Status200 results ->
       Forall (fun result => QS (url result) (safety result)
                              /\ QR (url result) (redirects result))
         results.
Proof.
  intros Hi. unfold handler.
  destruct (negb (truthy urls) || negb (isArray urls)).
  - split; [exact Hi | discriminate].
  - destruct (spawn_all_meets (elements urls) w Hi) as [Hi1 Hts].
    destruct (spawn_all N R (elements urls) w) as [tasks w1]. cbn [fst snd] in *.
    destruct (interleave_meets sched tasks w1 Hi1 Hts) as [Hi2 Hts'].
    destruct (interleave N sched tasks w1) as [tasks' w2]. cbn [fst snd] in *.
    destruct (finish_all_meets tasks' w2 Hi2 Hts') as [Hi3 Hrs].
    destruct (finish_all N tasks' w2) as [results w3]. cbn [fst snd] in *.
    split; [exact Hi3 |]. intros rs [= <-]. exact Hrs.
Qed.

(** In every reachable state the invariant holds and the tasks meet the
    contract. *)
Lemma reachable_meets (w : world) (pool : list task) :
  reachable N R w pool -> Inv w /\ Forall (task_meets C QS QR) pool.
Proof.
  induction 1 as [| sched urls w pool _ [Hi Hp] | urls w pool _ [Hi Hp]
                  | i s t w pool _ [Hi Hp] Hti].
  - split; [exact boot_inv | constructor].
  - split; [| exact Hp]. apply handler_meets, Hi.
  - destruct (spawn_all_meets urls w Hi) as [Hi' Hts].
    split; [exact Hi' |]. apply Forall_app. split; assumption.
  - assert (Ht : task_meets C QS QR t)
      by (eapply Forall_lookup_1; [exact Hp | exact Hti]).
    destruct (step_task_meets s t w Hi Ht) as [Hi' Ht'].
    split; [exact Hi' |]. apply Forall_insert; assumption.
Qed.

End ContractSoundness.

(** ** The shape of the results and of the entries *)

Section Shapes.

Context (R : runtime).

Lemma exec_keeps_good (N : outside) X (e : eff X) (w : world) :
  cache_good w -> allowed stores_good X e ->
  cache_good (snd (exec N e w)) /\ assumed stores_good X e (fst (exec N e w)).
Proof.
  intros Hc Hg. destruct e; cbn; try (split; [exact Hc | exact I]).
  - split; [exact Hc |].
    destruct (cache w !! key) as [en |] eqn:Hen; [| exact I].
    apply (Hc key en Hen).
  - split; [| exact I]. intros k en Hk. cbn in Hk.
    apply lookup_delete_Some in Hk as [_ Hk]. apply (Hc k en Hk).
  - split; [| exact I]. intros k en Hk. cbn in Hk.
    apply lookup_insert_Some in Hk as [[<- <-] | [_ Hk]].
    + exact Hg.
    + apply (Hc k en Hk).
Qed.

Lemma boot_good : cache_good boot.
Proof.
  intros key e He. cbn in He. rewrite lookup_empty in He. discriminate.
Qed.

Lemma entry_good_safety (u : jsval) (e : entry) :
  entry_good (safety_key u) e ->
  exists r, data e = DSafety r /\ safety_stored r.
Proof.
  unfold entry_good. destruct (data e) as [r | r].
  - intros [_ Hr]. eauto.
  - intros [[v Hv] _]. destruct (safety_key_not_redirect_key u v Hv).
Qed.

Lemma entry_good_redirect (u : jsval) (e : entry) :
  entry_good (redirect_key u) e ->
  exists r, data e = DRedirect r /\ redirect_stored r.
Proof.
  unfold entry_good. destruct (data e) as [r | r].
  - intros [[v Hv] _]. symmetry in Hv.
    destruct (safety_key_not_redirect_key v u Hv).
  - intros [_ Hr]. eauto.
Qed.

Lemma good_cache_read (key : string) :
  meets stores_good (cache_read key)
    (fun hit => match hit with
                | Some d => exists e, data e = d /\ entry_good key e
                | None => True
                end).
Proof.
  unfold cache_read. cbn. split; [exact I |].
  intros [e |] He; cbn; [| exact I].
  split; [exact I |]. intros now _.
  destruct (now - timestamp e <? CACHE_TTL); cbn.
  - exists e. split; [reflexivity | exact He].
  - split; [exact I |]. intros _ _. exact I.
Qed.

Lemma good_poll (n : nat) (u : jsval) (enc : string) :
  meets stores_good (poll R n (safety_key u) enc) safety_returned.
Proof.
  induction n as [| n IH]; cbn [poll meets bind trigger].
  - left. eauto.
  - split; [exact I |]. intros [msg | resp] _; cbn [meets bind].
    + left. eauto.
    + destruct (strict_eq (response_code (resp_data resp)) 1);
        cbn [meets bind trigger].
      * split; [exact I |]. intros now _. split.
        -- split; [exists u; reflexivity | eexists; reflexivity].
        -- intros _ _. right. eexists. reflexivity.
      * split; [exact I |]. intros _ _. exact IH.
Qed.

Lemma good_checkUrlSafety (u : jsval) :
  meets stores_good (checkUrlSafety R u) safety_returned.
Proof.
  unfold checkUrlSafety. apply meets_bind.
  eapply meets_mono; [| apply good_cache_read].
  intros [d |] Hd; cbn [meets].
  - destruct Hd as (e & <- & He).
    destruct (entry_good_safety u e He) as (r & -> & Hr). right. exact Hr.
  - unfold scan.
    destruct (encodeURIComponent R (to_string u)) as [msg | enc];
      cbn [meets bind trigger]; [left; eauto |].
    split; [exact I |]. intros [msg | resp] _; cbn [meets]; [left; eauto |].
    destruct (negb (resp_status resp =? 200)); cbn [meets]; [left; eauto |].
    apply good_poll.
Qed.

Lemma good_follow (currentUrl : jsval) (redirectChain : list jsval)
    (statusCodes : list Z) (response : response) :
  chain_good redirectChain statusCodes ->
  meets stores_good (follow R currentUrl redirectChain statusCodes response)
    traversal_good.
Proof.
  funelim (follow R currentUrl redirectChain statusCodes response);
    intros Hgood; [| exact Hgood].
  destruct (url_resolve R (location_of response0) (to_string currentUrl))
    as [msg | next]; cbn [meets]; [exact I |].
  split; [exact I |]. intros [msg | response'] _; cbn [meets]; [exact I |].
  apply (H next (Resp response') response').
  pose proof Hloop as Hcond. unfold redirecting in Hcond.
  rewrite !andb_true_iff in Hcond. destruct Hcond as [_ Hle].
  apply Nat.leb_le in Hle. destruct Hgood as [[Hlo Hhi] Hcodes].
  unfold chain_good. rewrite !length_app. cbn [length]. lia.
Qed.

Lemma good_traverse (u : jsval) :
  meets stores_good (traverse R u) traversal_good.
Proof.
  unfold traverse. cbn [meets bind trigger].
  split; [exact I |]. intros [msg | response] _; cbn [meets bind]; [exact I |].
  apply good_follow. unfold chain_good. cbn [length]. lia.
Qed.

Lemma good_classify (redirectChain : list jsval) (statusCodes : list Z) :
  chain_good redirectChain statusCodes ->
  meets stores_good (classify R redirectChain statusCodes) redirect_stored.
Proof.
  intros [Hlen Hcodes]. unfold classify.
  destruct (1 <? length redirectChain)%nat eqn:Hmany.
  - apply meets_bind. eapply meets_mono; [| apply good_checkUrlSafety].
    intros finalUrlSafety Hfinal. cbn [meets].
    unfold redirect_stored, flagged.
    cbn [Redirect.redirect_chain Redirect.status Redirect.final_url_safety
         Redirect.message Redirect.status_codes].
    rewrite Hmany. repeat split; try assumption; try lia.
  - cbn [meets]. unfold redirect_stored, flagged.
    cbn [Redirect.redirect_chain Redirect.status Redirect.final_url_safety
         Redirect.message Redirect.status_codes].
    rewrite Hmany. repeat split; try assumption; try lia.
Qed.

Lemma redirect_error_failed (u : jsval) (msg : string) :
  redirect_failed (redirect_error u msg).
Proof.
  unfold redirect_failed, redirect_error. cbn.
  repeat split; eauto.
Qed.

Lemma good_resolve (u : jsval) :
  meets stores_good (resolve R u (redirect_key u)) redirect_returned.
Proof.
  unfold resolve. apply meets_bind. eapply meets_mono; [| apply good_traverse].
  intros [msg chain codes | chain codes] Ht; cbn [meets bind trigger].
  - split; [exact I |]. intros _ _. right. apply redirect_error_failed.
  - split; [exact I |]. intros _ _. apply meets_bind.
    eapply meets_mono; [| apply good_classify; exact Ht].
    intros result Hresult. cbn [meets bind trigger].
    split; [exact I |]. intros _ _.
    split; [exact I |]. intros now _.
    split.
    + split; [exists u; reflexivity | exact Hresult].
    + intros _ _. left. exact Hresult.
Qed.

Lemma good_checkRedirects (u : jsval) :
  meets stores_good (checkRedirects R u) redirect_returned.
Proof.
  unfold checkRedirects. apply meets_bind.
  eapply meets_mono; [| apply good_cache_read].
  intros [d |] Hd; cbn [meets]; [| apply good_resolve].
  destruct Hd as (e & <- & He).
  destruct (entry_good_redirect u e He) as (r & -> & Hr). left. exact Hr.
Qed.

Lemma good_stub (u : jsval) (st : structure) :
  safety_returned (safety (invalid_result u st))
  /\ redirect_returned (redirects (invalid_result u st)).
Proof.
  split.
  - left. eexists. reflexivity.
  - right. unfold redirect_failed. cbn. repeat split; eauto.
Qed.

(** In every reachable state, the entries of the cache were stored by one
    of the two functions, and the results are of the shapes that the two
    functions build. *)
Lemma reachable_good (N : outside) (w : world) (pool : list task) :
  reachable N R w pool ->
  cache_good w
  /\ (forall u, safety_returned (fst (run N (checkUrlSafety R u) w)))
  /\ (forall u, redirect_returned (fst (run N (checkRedirects R u) w)))
  /\ (forall result,
        Settled result ∈ pool ->
        safety_returned (safety result)
        /\ redirect_returned (redirects result))
  /\ (forall sched urls results,
        fst (handler N R sched urls w) = Status200 results ->
        forall result,
          result ∈ results ->
          safety_returned (safety result)
          /\ redirect_returned (redirects result)).
Proof.
  intros Hreach.
  destruct (reachable_meets N stores_good cache_good (exec_keeps_good N) R
              (fun _ => safety_returned) (fun _ => redirect_returned)
              good_checkUrlSafety good_checkRedirects good_stub boot_good
              w pool Hreach) as [Hc Hp].
  split; [exact Hc |]. split; [| split; [| split]].
  - intros u.
    apply (run_meets N stores_good cache_good (exec_keeps_good N)
             _ _ w Hc (good_checkUrlSafety u)).
  - intros u.
    apply (run_meets N stores_good cache_good (exec_keeps_good N)
             _ _ w Hc (good_checkRedirects u)).
  - intros result Hin.
    apply (proj1 (Forall_forall _ _) Hp (Settled result) Hin).
  - intros sched urls results Hreply result Hin.
    destruct (handler_meets N stores_good cache_good (exec_keeps_good N) R
                (fun _ => safety_returned) (fun _ => redirect_returned)
                good_checkUrlSafety good_checkRedirects good_stub
                sched urls w Hc) as [_ Hrs].
    apply (proj1 (Forall_forall _ _) (Hrs results Hreply) result Hin).
Qed.

End Shapes.

(** ** The redirect results, with the URL of the call *)

Section ShapesForUrl.

Context (R : runtime).

Lemma good_resolve_for (u : jsval) :
  meets stores_good (resolve R u (redirect_key u)) (redirect_returned_for u).
Proof.
  unfold resolve. apply meets_bind. eapply meets_mono; [| apply good_traverse].
  intros [msg chain codes | chain codes] Ht; cbn [meets bind trigger].
  - split; [exact I |]. intros _ _. right.
    split; [apply redirect_error_failed | reflexivity].
  - split; [exact I |]. intros _ _. apply meets_bind.
    eapply meets_mono; [| apply good_classify; exact Ht].
    intros result Hresult. cbn [meets bind trigger].
    split; [exact I |]. intros _ _.
    split; [exact I |]. intros now _.
    split.
    + split; [exists u; reflexivity | exact Hresult].
    + intros _ _. left. exact Hresult.
Qed.

Lemma good_checkRedirects_for (u : jsval) :
  meets stores_good (checkRedirects R u) (redirect_returned_for u).
Proof.
  unfold checkRedirects. apply meets_bind.
  eapply meets_mono; [| apply good_cache_read].
  intros [d |] Hd; cbn [meets]; [| apply good_resolve_for].
  destruct Hd as (e & <- & He).
  destruct (entry_good_redirect u e He) as (r & -> & Hr). left. exact Hr.
Qed.

Lemma good_stub_for (u : jsval) (st : structure) :
  safety_returned (safety (invalid_result u st))
  /\ redirect_returned_for u (redirects (invalid_result u st)).
Proof.
  split.
  - left. eexists. reflexivity.
  - right. split; [| reflexivity].
    unfold redirect_failed. cbn. repeat split; eauto.
Qed.

(** In every reachable state, a redirect result that failed holds the URL
    of its call as its chain. *)
Lemma reachable_good_for (N : outside) (w : world) (pool : list task) :
  reachable N R w pool ->
  (forall u, redirect_returned_for u (fst (run N (checkRedirects R u) w)))
  /\ (forall sched urls results,
        fst (handler N R sched urls w) = Status200 results ->
        forall result,
          result ∈ results ->
          redirect_returned_for (url result) (redirects result)).
Proof.
  intros Hreach.
  destruct (reachable_meets N stores_good cache_good (exec_keeps_good N) R
              (fun _ => safety_returned) redirect_returned_for
              (good_checkUrlSafety R) good_checkRedirects_for good_stub_for
              boot_good w pool Hreach) as [Hc _].
  split.
  - intros u.
    apply (run_meets N stores_good cache_good (exec_keeps_good N)
             _ _ w Hc (good_checkRedirects_for u)).
  - intros sched urls results Hreply result Hin.
    destruct (handler_meets N stores_good cache_good (exec_keeps_good N) R
                (fun _ => safety_returned) redirect_returned_for
                (good_checkUrlSafety R) good_checkRedirects_for good_stub_for
                sched urls w Hc) as [_ Hrs].
    apply (proj1 (Forall_forall _ _) (Hrs results Hreply) result Hin).
Qed.

End ShapesForUrl.

Lemma redirect_returned_for_well_formed (u : jsval) (r : Redirect.t) :
  redirect_returned_for u r -> redirect_well_formed_for u r.
Proof.
  intros [Hs | [Hf Hchain]].
  - split.
    + destruct Hs as (Hmsg & Hlen & Hcodes & Hstatus & _).
      right. repeat split; try assumption; try lia.
      rewrite Hstatus. destruct (flagged r); [right | left]; reflexivity.
    + destruct Hs as (_ & _ & _ & Hstatus & _). rewrite Hstatus.
      destruct (flagged r); discriminate.
  - split; [| intros _; exact Hchain].
    destruct Hf as (Hst & Hmsg & Hlen & Hcodes & _).
    left. repeat split; assumption.
Qed.

(** ** The server with the client that follows redirects *)

(** The answers of a script are those of such a client when none of them
    is a redirect with a location. *)
Lemma scripted_follows_redirects (answers : list outcome) (now : nat -> Z) :
  no_redirect_handed answers = true ->
  client_follows_redirects (Demo.scripted answers now).
Proof.
  intros Hall n req r. cbn. revert n.
  induction answers as [| o rest IH]; intros n.
  - destruct n; discriminate.
  - cbn in Hall. apply andb_prop in Hall as [Ho Hrest].
    destruct n as [| n]; cbn.
    + intros ->. apply negb_true_iff. exact Ho.
    + apply IH. exact Hrest.
Qed.

Section FollowingClient.

Context (N : outside) (R : runtime).

Hypothesis client : client_follows_redirects N.

Lemma follow_not_entered (currentUrl : jsval) (redirectChain : list jsval)
    (statusCodes : list Z) (response : response) :
  handed_redirect response = false ->
  follow R currentUrl redirectChain statusCodes response
  = Ret (Arrived redirectChain statusCodes).
Proof.
  intros Hplain. rewrite follow_eq. unfold redirecting.
  unfold handed_redirect in Hplain. rewrite Hplain. reflexivity.
Qed.

(** With that client the loop of line 90 is not entered: the traversal is
    one call, and its chain is the URL of the call. *)
Lemma run_traverse_following (u : jsval) (w : world) :
  run N (traverse R u) w
  = (match http N (length (sent w)) (Get u) with
     | Threw msg => Thrown msg [u] []
     | Resp response => Arrived [u] [resp_status response]
     end,
     {| cache := cache w; sent := sent w ++ [Get u]; reads := reads w |}).
Proof.
  unfold traverse. cbn [bind trigger run exec].
  destruct (http N (length (sent w)) (Get u)) as [msg | response] eqn:Hr.
  - reflexivity.
  - cbn [bind]. rewrite (follow_not_entered _ _ _ _ (client _ _ _ Hr)).
    reflexivity.
Qed.

Lemma exec_keeps_plain X (e : eff X) (w : world) :
  cache_plain w -> allowed with_following_client X e ->
  cache_plain (snd (exec N e w))
  /\ assumed with_following_client X e (fst (exec N e w)).
Proof.
  intros Hc Hg. destruct e; cbn; try (split; [exact Hc | exact I]).
  - split; [exact Hc |].
    destruct (cache w !! key) as [en |] eqn:Hen; [| exact I].
    apply (Hc key en Hen).
  - split; [| exact I]. intros k en Hk. cbn in Hk.
    apply lookup_delete_Some in Hk as [_ Hk]. apply (Hc k en Hk).
  - split; [| exact I]. intros k en Hk. cbn in Hk.
    apply lookup_insert_Some in Hk as [[<- <-] | [_ Hk]].
    + exact Hg.
    + apply (Hc k en Hk).
  - split; [exact Hc |].
    destruct (http N (length (sent w)) r) as [msg | response] eqn:Hr;
      [exact I |].
    apply (client _ _ _ Hr).
Qed.

Lemma boot_plain : cache_plain boot.
Proof.
  intros key e He. cbn in He. rewrite lookup_empty in He. discriminate.
Qed.

Lemma entry_plain_redirect (u : jsval) (e : entry) :
  entry_plain (redirect_key u) e ->
  exists r, data e = DRedirect r /\ not_redirected r.
Proof.
  unfold entry_plain. destruct (data e) as [r | r].
  - intros [v Hv]. symmetry in Hv.
    destruct (safety_key_not_redirect_key v u Hv).
  - intros [_ Hr]. eauto.
Qed.

Lemma plain_cache_read (key : string) :
  meets with_following_client (cache_read key)
    (fun hit => match hit with
                | Some d => exists e, data e = d /\ entry_plain key e
                | None => True
                end).
Proof.
  unfold cache_read. cbn. split; [exact I |].
  intros [e |] He; cbn; [| exact I].
  split; [exact I |]. intros now _.
  destruct (now - timestamp e <? CACHE_TTL); cbn.
  - exists e. split; [reflexivity | exact He].
  - split; [exact I |]. intros _ _. exact I.
Qed.

Lemma plain_poll (n : nat) (u : jsval) (enc : string) :
  meets with_following_client (poll R n (safety_key u) enc) (fun _ => True).
Proof.
  induction n as [| n IH]; cbn [poll meets bind trigger]; [exact I |].
  split; [exact I |]. intros [msg | resp] _; cbn [meets bind]; [exact I |].
  destruct (strict_eq (response_code (resp_data resp)) 1);
    cbn [meets bind trigger].
  - split; [exact I |]. intros now _. split.
    + exists u. reflexivity.
    + intros _ _. exact I.
  - split; [exact I |]. intros _ _. exact IH.
Qed.

Lemma plain_checkUrlSafety (u : jsval) :
  meets with_following_client (checkUrlSafety R u) (fun _ => True).
Proof.
  unfold checkUrlSafety. apply meets_bind.
  eapply meets_mono; [| apply plain_cache_read].
  intros [d |] _; cbn [meets]; [exact I |].
  unfold scan.
  destruct (encodeURIComponent R (to_string u)) as [msg | enc];
    cbn [meets bind trigger]; [exact I |].
  split; [exact I |]. intros [msg | resp] _; cbn [meets]; [exact I |].
  destruct (negb (resp_status resp =? 200)); cbn [meets]; [exact I |].
  apply plain_poll.
Qed.

Lemma plain_resolve (u : jsval) :
  meets with_following_client (resolve R u (redirect_key u))
    (not_redirected_or_failed u).
Proof.
  unfold resolve, traverse. cbn [meets bind trigger].
  split; [exact I |]. intros [msg | response] Hplain; cbn [meets bind trigger].
  - split; [exact I |]. intros _ _. right.
    split; [apply redirect_error_failed | reflexivity].
  - rewrite (follow_not_entered _ _ _ _ Hplain). cbn [meets bind trigger].
    split; [exact I |]. intros _ _.
    unfold classify. cbn [length Nat.ltb Nat.leb bind meets trigger].
    split; [exact I |]. intros _ _.
    split; [exact I |]. intros now _.
    split.
    + split; [exists u; reflexivity |]. repeat split.
    + intros _ _. left. repeat split.
Qed.

Lemma plain_checkRedirects (u : jsval) :
  meets with_following_client (checkRedirects R u)
    (not_redirected_or_failed u).
Proof.
  unfold checkRedirects. apply meets_bind.
  eapply meets_mono; [| apply plain_cache_read].
  intros [d |] Hd; cbn [meets]; [| apply plain_resolve].
  destruct Hd as (e & <- & He).
  destruct (entry_plain_redirect u e He) as (r & -> & Hr). left. exact Hr.
Qed.

Lemma plain_stub (u : jsval) (st : structure) :
  True /\ not_redirected_or_failed u (redirects (invalid_result u st)).
Proof.
  split; [exact I |]. right. split; [| reflexivity].
  unfold redirect_failed. cbn. repeat split; eauto.
Qed.

(** With that client, in every reachable state, the redirect entries of
    the cache and the redirect results are those of a URL that did not
    redirect, or errors. *)
Lemma reachable_plain (w : world) (pool : list task) :
  reachable N R w pool ->
  cache_plain w
  /\ (forall u,
        not_redirected_or_failed u (fst (run N (checkRedirects R u) w)))
  /\ (forall sched urls results,
        fst (handler N R sched urls w) = Status200 results ->
        forall result,
          result ∈ results ->
          not_redirected_or_failed (url result) (redirects result)).
Proof.
  intros Hreach.
  destruct (reachable_meets N with_following_client cache_plain
              exec_keeps_plain R
              (fun _ _ => True) not_redirected_or_failed
              plain_checkUrlSafety plain_checkRedirects plain_stub
              boot_plain w pool Hreach) as [Hc _].
  split; [exact Hc |]. split.
  - intros u.
    apply (run_meets N with_following_client cache_plain exec_keeps_plain
             _ _ w Hc (plain_checkRedirects u)).
  - intros sched urls results Hreply result Hin.
    destruct (handler_meets N with_following_client cache_plain
                exec_keeps_plain R
                (fun _ _ => True) not_redirected_or_failed
                plain_checkUrlSafety plain_checkRedirects plain_stub
                sched urls w Hc) as [_ Hrs].
    apply (proj1 (Forall_forall _ _) (Hrs results Hreply) result Hin).
Qed.

(** With that client a call of [checkRedirects] sends nothing, or the one
    request to its URL: it never calls the scanning service. *)
Lemma run_checkRedirects_sent (u : jsval) (w : world) :
  sent (snd (run N (checkRedirects R u) w)) = sent w
  \/ sent (snd (run N (checkRedirects R u) w)) = sent w ++ [Get u].
Proof.
  unfold checkRedirects. rewrite run_bind, run_cache_read.
  assert (Hresolve : forall w0,
            sent (snd (run N (resolve R u (redirect_key u)) w0))
            = sent w0 ++ [Get u]).
  { intros w0. unfold resolve. rewrite run_bind, run_traverse_following.
    cbn [fst snd].
    destruct (http N (length (sent w0)) (Get u)) as [msg | response];
      reflexivity. }
  destruct (cache w !! redirect_key u) as [e |].
  - destruct (clock N (reads w) - timestamp e <? CACHE_TTL); cbn [fst snd].
    + left. reflexivity.
    + right. rewrite Hresolve. reflexivity.
  - cbn [fst snd]. right. apply Hresolve.
Qed.


(** C10, on the code as it runs.  With the client of line 75 the loop of
    line 90 is not entered and [checkRedirects] never calls
    [checkUrlSafety]: in every reachable state, a result of
    [checkRedirects] that is not an error has status [clean], the chain
    of its URL alone and [final_url_safety = {status: no_redirect}]; no
    redirect entry of the cache embeds a safety result; and a call sends
    no submission to the scanning service. *)
Theorem no_safety_result_is_ever_embedded (w : world) (pool : list task) :
  reachable N R w pool ->
  (forall u,
     let result := fst (run N (checkRedirects R u) w) in
     Redirect.status result <> "error" ->
     Redirect.status result = "clean"
     /\ length (Redirect.redirect_chain result) = 1%nat
     /\ Redirect.final_url_safety result = Safety.only "no_redirect")
  /\ (forall key e r,
        cache w !! key = Some e -> data e = DRedirect r ->
        Redirect.final_url_safety r = Safety.only "no_redirect")
  /\ (forall u,
        submissions (sent (snd (run N (checkRedirects R u) w)))
        = submissions (sent w))
  /\ (forall sched urls results,
        fst (handler N R sched urls w) = Status200 results ->
        forall result,
          result ∈ results ->
          Redirect.status (redirects result) <> "error" ->
          Redirect.status (redirects result) = "clean"
          /\ Redirect.final_url_safety (redirects result)
             = Safety.only "no_redirect").
Proof.
  intros Hreach.
  destruct (reachable_plain w pool Hreach) as (Hc & Hrun & Hh).
  split; [| split; [| split]].
  - intros u result Hne. subst result.
    destruct (Hrun u) as [(Hst & _ & Hlen & _ & Hfinal) | [(Hst & _) _]];
      [| contradiction].
    repeat split; assumption.
  - intros key e r He Hd. specialize (Hc key e He).
    unfold entry_plain in Hc. rewrite Hd in Hc.
    destruct Hc as (_ & _ & _ & _ & _ & Hfinal). exact Hfinal.
  - intros u. destruct (run_checkRedirects_sent u w) as [-> | ->];
      [reflexivity |].
    rewrite submissions_app, submissions_get. lia.
  - intros sched urls results Hres result Hin Hne.
    destruct (Hh sched urls results Hres result Hin)
      as [(Hst & _ & _ & _ & Hfinal) | [(Hst & _) _]]; [| contradiction].
    split; assumption.
Qed.

End FollowingClient.


(** C10, on a concrete run: a request for one URL is handled; the client
    has followed whatever redirect there was and hands the final
    response, 200, to the code; the scan of the URL never completes. *)
Lemma no_safety_result_is_ever_embedded_witness :
  let N := Demo.scripted
             (Demo.ok 200 None no_report
              :: repeat (Demo.ok 200 None Demo.pending) 5
              ++ [Demo.ok 200 None no_report])
             (fun _ => 0) in
  let u := JStr "http://redir.example/a" in
  let w := snd (handler N Demo.runtime [] (JArr [u]) boot) in
  let result := fst (run N (checkRedirects Demo.runtime u) w) in
  Redirect.status result = "clean"
  /\ length (Redirect.redirect_chain result) = 1%nat
  /\ Redirect.final_url_safety result = Safety.only "no_redirect".
Proof.
  intros N u w.
  refine (proj1 (no_safety_result_is_ever_embedded N Demo.runtime
                   (scripted_follows_redirects
                      (Demo.ok 200 None no_report
                       :: repeat (Demo.ok 200 None Demo.pending) 5
                       ++ [Demo.ok 200 None no_report])
                      (fun _ => 0) eq_refl) w []
                   (reach_handled _ _ _ _ _ _ (reach_boot _ _))) u _).
  vm_compute. discriminate.
Defined.

Lemma safety_returned_well_formed (r : Safety.t) :
  safety_returned r -> safety_well_formed r.
Proof.
  intros [[msg ->] | [d ->]].
  - left. cbn. repeat split; eauto.
  - right. unfold scan_result. cbn.
    repeat split; eauto.
    destruct (strict_eq (rep_positives d) 0); [left | right]; reflexivity.
Qed.

Lemma redirect_returned_well_formed (r : Redirect.t) :
  redirect_returned r -> redirect_well_formed r.
Proof.
  intros [(Hmsg & Hlen & Hcodes & Hstatus & _) | (Hst & Hmsg & Hlen & Hcodes & _)].
  - right. repeat split; try assumption; try lia.
    rewrite Hstatus. destruct (flagged r); [right | left]; reflexivity.
  - left. repeat split; assumption.
Qed.

Section Caller.

Context (N : outside) (R : runtime).

(** X1. In every reachable state, whatever the services answer and under
    any schedule, each result of a batch is well formed: a failed check
    has status [error] and a message, a check that succeeded has a verdict
    and no message; the successful redirect results have one status code
    per URL of the chain, and the failed ones have none and the chain
    [[url]], where [url] is the URL of the call (for a result of a batch,
    its field [url]). *)
Theorem results_are_well_formed (w : world) (pool : list task) :
  reachable N R w pool ->
  (forall u, safety_well_formed (fst (run N (checkUrlSafety R u) w)))
  /\ (forall u,
        redirect_well_formed_for u (fst (run N (checkRedirects R u) w)))
  /\ (forall sched urls results,
        fst (handler N R sched urls w) = Status200 results ->
        forall result,
          result ∈ results ->
          safety_well_formed (safety result)
          /\ redirect_well_formed_for (url result) (redirects result)).
Proof.
  intros Hreach.
  destruct (reachable_good R N w pool Hreach) as (_ & Hs & _ & _ & Hh).
  destruct (reachable_good_for R N w pool Hreach) as (Hr & Hh').
  split; [| split].
  - intros u. apply safety_returned_well_formed, Hs.
  - intros u. apply redirect_returned_for_well_formed, Hr.
  - intros sched urls results Hres result Hin.
    destruct (Hh sched urls results Hres result Hin) as [H1 _].
    split; [apply safety_returned_well_formed; assumption |].
    apply redirect_returned_for_well_formed.
    apply (Hh' sched urls results Hres result Hin).
Qed.

(** X2. In every reachable state, an entry of the cache never holds a
    failed check of [checkUrlSafety]: a safety entry is stored under a
    safety key and holds a verdict [safe] or [unsafe] with its counts;
    when the verdict is [safe] the count of positives is 0. *)
Theorem cache_never_holds_safety_error
    (w : world) (pool : list task) (key : string) (e : entry) (r : Safety.t) :
  reachable N R w pool ->
  cache w !! key = Some e ->
  data e = DSafety r ->
  (exists u, key = safety_key u)
  /\ Safety.status r <> "error"
  /\ (Safety.status r = "safe" \/ Safety.status r = "unsafe")
  /\ Safety.message r = None
  /\ (Safety.status r = "safe" -> Safety.positives r = Some 0).
Proof.
  intros Hreach He Hd.
  destruct (reachable_good R N w pool Hreach) as (Hc & _).
  specialize (Hc key e He). unfold entry_good in Hc. rewrite Hd in Hc.
  destruct Hc as [Hkey [d ->]].
  split; [exact Hkey |].
  assert (Hst : Safety.status (scan_result d) = "safe"
                \/ Safety.status (scan_result d) = "unsafe").
  { unfold scan_result. cbn.
    destruct (strict_eq (rep_positives d) 0); [left | right]; reflexivity. }
  split; [destruct Hst as [-> | ->]; discriminate |].
  split; [exact Hst |]. split; [reflexivity |].
  apply scan_result_safe.
Qed.

End Caller.

(** X1, on a concrete run: a request for one URL is handled while no
    server can be reached, and the URL is checked again. *)
Lemma results_are_well_formed_witness :
  let N := Demo.scripted [Threw "connect ECONNREFUSED";
                          Threw "connect ECONNREFUSED";
                          Threw "connect ECONNREFUSED"] (fun _ => 0) in
  let u := JStr "http://a/" in
  let w := snd (handler N Demo.runtime [] (JArr [u]) boot) in
  let result := fst (run N (checkRedirects Demo.runtime u) w) in
  redirect_well_formed_for u result
  /\ Redirect.status result = "error"
  /\ Redirect.redirect_chain result = [u].
Proof.
  intros N u w result.
  pose proof (proj1 (proj2 (results_are_well_formed N Demo.runtime w []
                              (reach_handled _ _ _ _ _ _ (reach_boot _ _))))
                u) as H.
  split; [exact H |].
  assert (Hst : Redirect.status result = "error") by (vm_compute; reflexivity).
  split; [exact Hst |]. apply (proj2 H Hst).
Defined.

(** X2, on a concrete run: a request for one URL with a clean report has
    been handled. *)
Lemma cache_never_holds_safety_error_witness :
  let clean := {| response_code := Some 1; rep_positives := Some 0;
                  rep_total := Some 70 |} in
  let N := Demo.scripted [Demo.ok 200 None no_report;
                          Demo.ok 200 None clean;
                          Demo.ok 200 None no_report] (fun _ => 5) in
  let u := JStr "http://plain.example" in
  let w := snd (handler N Demo.runtime [] (JArr [u]) boot) in
  let r := scan_result clean in
  (exists v, safety_key u = safety_key v)
  /\ Safety.status r <> "error"
  /\ (Safety.status r = "safe" \/ Safety.status r = "unsafe")
  /\ Safety.message r = None
  /\ (Safety.status r = "safe" -> Safety.positives r = Some 0).
Proof.
  intros clean N u w r.
  apply (cache_never_holds_safety_error N Demo.runtime w [] (safety_key u)
           {| data := DSafety r; timestamp := 5 |} r).
  - apply reach_handled, reach_boot.
  - vm_compute. reflexivity.
  - reflexivity.
Defined.

(** ** Elements that are not URLs *)

Section Unparsable.

Context (N : outside) (R : runtime).

Lemma spawn_unparsable (u : jsval) (w : world) :
  unparsable R u -> spawn N R u w = (Settled (invalid_stub u), w).
Proof.
  intros [msg Hmsg]. unfold spawn, start, validateUrlStructure.
  rewrite Hmsg. reflexivity.
Qed.

Lemma spawn_all_unparsable_slot (items : list jsval) (w : world) (i : nat)
    (u : jsval) :
  items !! i = Some u -> unparsable R u ->
  fst (spawn_all N R items w) !! i = Some (Settled (invalid_stub u)).
Proof.
  revert w i. induction items as [| v rest IH]; intros w i Hi Hu;
    [discriminate |].
  cbn [spawn_all]. destruct i as [| i]; cbn in Hi.
  - injection Hi as ->. rewrite (spawn_unparsable u w Hu).
    destruct (spawn_all N R rest w). reflexivity.
  - destruct (spawn N R v w) as [t w1]. specialize (IH w1 i Hi Hu).
    destruct (spawn_all N R rest w1). exact IH.
Qed.

(** A slot that has settled keeps its result, whatever is resumed. *)
Lemma interleave_settled_slot (sched : schedule) (tasks : list task)
    (w : world) (i : nat) (r : UrlCheckResult) :
  tasks !! i = Some (Settled r) ->
  fst (interleave N sched tasks w) !! i = Some (Settled r).
Proof.
  revert tasks w. induction sched as [| [j s] rest IH]; intros tasks w Hi;
    cbn [interleave]; [exact Hi |].
  destruct (tasks !! j) as [t |] eqn:Hj; [| apply IH, Hi].
  destruct (step_task N s t w) as [t' w'] eqn:Hstep.
  apply IH. destruct (decide (j = i)) as [-> | Hne].
  - rewrite Hi in Hj. injection Hj as <-. cbn in Hstep.
    injection Hstep as <- _. rewrite list_insert_id; assumption.
  - rewrite list_lookup_insert_ne; assumption.
Qed.

Lemma finish_all_settled_slot (tasks : list task) (w : world) (i : nat)
    (r : UrlCheckResult) :
  tasks !! i = Some (Settled r) ->
  fst (finish_all N tasks w) !! i = Some r.
Proof.
  revert w i. induction tasks as [| t rest IH]; intros w i Hi; [discriminate |].
  cbn [finish_all]. destruct i as [| i]; cbn in Hi.
  - injection Hi as ->. cbn [finish].
    destruct (finish_all N rest w). reflexivity.
  - destruct (finish N t w) as [r0 w1]. specialize (IH w1 i Hi).
    destruct (finish_all N rest w1). exact IH.
Qed.

(** X3. In any batch and under any schedule, the result in the slot of an
    element that does not parse as a URL is the fixed stub: structure
    [invalid], safety and redirects with status [error] and the message
    [Invalid URL]. *)
Theorem unparsable_element_gets_stub
    (sched : schedule) (items : list jsval) (w : world) (i : nat) (u : jsval) :
  items !! i = Some u ->
  unparsable R u ->
  exists results w',
    handler N R sched (JArr items) w = (Status200 results, w')
    /\ results !! i = Some (invalid_stub u).
Proof.
  intros Hi Hu. unfold handler. cbn [truthy isArray negb orb elements].
  pose proof (spawn_all_unparsable_slot items w i u Hi Hu) as H1.
  destruct (spawn_all N R items w) as [tasks w1]. cbn [fst] in H1.
  pose proof (interleave_settled_slot sched tasks w1 i _ H1) as H2.
  destruct (interleave N sched tasks w1) as [tasks' w2]. cbn [fst] in H2.
  pose proof (finish_all_settled_slot tasks' w2 i _ H2) as H3.
  destruct (finish_all N tasks' w2) as [results w3]. cbn [fst] in H3.
  exists results, w3. split; [reflexivity | exact H3].
Qed.

Lemma spawn_all_unparsable (items : list jsval) (w : world) :
  Forall (unparsable R) items ->
  spawn_all N R items w = (Settled <$> (invalid_stub <$> items), w).
Proof.
  induction 1 as [| u rest Hu _ IH]; cbn [spawn_all]; [reflexivity |].
  rewrite (spawn_unparsable u w Hu), IH. reflexivity.
Qed.

Lemma interleave_all_settled (sched : schedule) (results : list UrlCheckResult)
    (w : world) :
  interleave N sched (Settled <$> results) w = (Settled <$> results, w).
Proof.
  induction sched as [| [j s] rest IH]; cbn [interleave]; [reflexivity |].
  destruct ((Settled <$> results) !! j) as [t |] eqn:Hj; [| exact IH].
  rewrite list_lookup_fmap in Hj.
  destruct (results !! j) as [r |] eqn:Hr; [| discriminate].
  injection Hj as <-. cbn [step_task].
  rewrite list_insert_id; [exact IH |].
  rewrite list_lookup_fmap, Hr. reflexivity.
Qed.

Lemma finish_all_settled (results : list UrlCheckResult) (w : world) :
  finish_all N (Settled <$> results) w = (results, w).
Proof.
  induction results as [| r rest IH]; cbn; [reflexivity |].
  cbn in IH. rewrite IH. reflexivity.
Qed.

(** X4. When no element of the array parses as a URL (in particular when
    the array is empty), the handler replies with one stub per element,
    in order, sends no request and leaves the cache and the clock
    untouched, under any schedule. *)
Theorem unparsable_batch_does_nothing
    (sched : schedule) (items : list jsval) (w : world) :
  Forall (unparsable R) items ->
  handler N R sched (JArr items) w
  = (Status200 (invalid_stub <$> items), w).
Proof.
  intros Hall. unfold handler. cbn [truthy isArray negb orb elements].
  rewrite (spawn_all_unparsable items w Hall).
  rewrite interleave_all_settled, finish_all_settled. reflexivity.
Qed.

End Unparsable.

(** X3, on a concrete batch: the second of three elements is the number 7,
    and the task of the third is resumed first. *)
Lemma unparsable_element_gets_stub_witness :
  let N := Demo.scripted [] (fun _ => 0) in
  let items := [JStr "http://a/"; JNum 7; JStr "http://b/"] in
  exists results w',
    handler N Demo.runtime [(2%nat, RedirectsCall)] (JArr items) boot
    = (Status200 results, w')
    /\ results !! 1%nat = Some (invalid_stub (JNum 7)).
Proof.
  intros N items.
  apply (unparsable_element_gets_stub N Demo.runtime
           [(2%nat, RedirectsCall)] items boot 1 (JNum 7)).
  - reflexivity.
  - exists "Invalid URL". reflexivity.
Defined.

(** X4, on a concrete batch, and on the empty one. *)
Lemma unparsable_batch_does_nothing_witness :
  let N := Demo.scripted [] (fun _ => 0) in
  handler N Demo.runtime [(0%nat, SafetyCall)]
    (JArr [JStr "not-a-url"; JNull]) boot
  = (Status200 [invalid_stub (JStr "not-a-url"); invalid_stub JNull], boot)
  /\ handler N Demo.runtime [] (JArr []) boot = (Status200 [], boot).
Proof.
  intros N. split.
  - apply (unparsable_batch_does_nothing N Demo.runtime
             [(0%nat, SafetyCall)] [JStr "not-a-url"; JNull] boot).
    repeat constructor; exists "Invalid URL"; reflexivity.
  - apply (unparsable_batch_does_nothing N Demo.runtime [] [] boot).
    constructor.
Defined.

(** ** More on the safety scanner *)

Section ScannerCases.

Context (N : outside) (R : runtime).

(** X5. When the submission fails (the request is rejected, or its status
    is not 200), [checkUrlSafety] returns an error with the message of the
    failure, sends no report request and stores nothing. *)
Theorem failed_submission_is_not_polled
    (url : jsval) (enc msg : string) (w : world) :
  fst (run N (cache_read (safety_key url)) w) = None ->
  encodeURIComponent R (to_string url) = inr enc ->
  submission_failure
    (http N (length (sent w)) (Post scan_endpoint (scan_body R enc)))
    = Some msg ->
  let result := fst (run N (checkUrlSafety R url) w) in
  let w' := snd (run N (checkUrlSafety R url) w) in
  result = Safety.error msg
  /\ sent w' = sent w ++ [Post scan_endpoint (scan_body R enc)]
  /\ cache w' = delete (safety_key url) (cache w).
Proof.
  intros Hmiss Henc Hfail result w'. subst result w'.
  destruct (cache_read_miss N (safety_key url) w Hmiss) as [Hcache Hsent].
  rewrite (checkUrlSafety_miss N R url w Hmiss).
  unfold scan. rewrite Henc. cbn [bind trigger run exec]. rewrite Hsent.
  destruct (http N (length (sent w)) (Post scan_endpoint (scan_body R enc)))
    as [m | scanResponse]; cbn [submission_failure] in Hfail.
  - injection Hfail as ->. cbn [bind run fst snd sent cache].
    rewrite Hcache. repeat split.
  - cbn [bind]. destruct (resp_status scanResponse =? 200); [discriminate |].
    injection Hfail as <-. cbn [negb run fst snd sent cache].
    rewrite Hcache. repeat split.
Qed.

(** The polls when the report is complete at the attempt [k]: the loop
    stops there, stores the result and returns it. *)
Lemma run_poll_complete (n k : nat) (key enc : string) (resp : response)
    (w : world) :
  (k < n)%nat ->
  (forall i, (i < k)%nat ->
     exists r,
       http N (length (sent w) + i)%nat (Get (JStr (report_url R enc))) = Resp r
       /\ strict_eq (response_code (resp_data r)) 1 = false) ->
  http N (length (sent w) + k)%nat (Get (JStr (report_url R enc))) = Resp resp ->
  strict_eq (response_code (resp_data resp)) 1 = true ->
  run N (poll R n key enc) w =
  (scan_result (resp_data resp),
   {| cache := <[key := {| data := DSafety (scan_result (resp_data resp));
                           timestamp := clock N (reads w) |}]> (cache w);
      sent := sent w ++ repeat (Get (JStr (report_url R enc))) (S k);
      reads := S (reads w) |}).
Proof.
  revert k w. induction n as [| n IH]; intros k w Hk Hbefore Hat Hdone; [lia |].
  cbn [poll bind trigger run exec].
  destruct k as [| k].
  - rewrite Nat.add_0_r in Hat. rewrite Hat. cbn [bind resp_data].
    rewrite Hdone. cbn [bind trigger run exec cache sent reads]. reflexivity.
  - destruct (Hbefore O ltac:(lia)) as (r & Hr & Hcode).
    rewrite Nat.add_0_r in Hr. rewrite Hr. cbn [bind]. rewrite Hcode.
    cbn [bind trigger run exec].
    rewrite (IH k).
    + cbn [cache sent reads]. rewrite <- app_assoc. reflexivity.
    + lia.
    + intros i Hi. cbn [sent]. rewrite length_app. cbn [length].
      destruct (Hbefore (S i) ltac:(lia)) as (r' & Hr' & Hcode').
      exists r'. split; [| exact Hcode']. rewrite <- Hr'. f_equal. lia.
    + cbn [sent]. rewrite length_app. cbn [length].
      rewrite <- Hat. f_equal. lia.
    + exact Hdone.
Qed.

(** X6. When the submission succeeds and the report is complete at the
    attempt [k] (after [k] incomplete reports, [k < 5]), [checkUrlSafety]
    stops polling there: it has sent the submission and [k + 1] report
    requests, returns the verdict of that report and stores it under the
    key of the URL with the time of the clock. *)
Theorem complete_report_is_stored_and_returned
    (url : jsval) (enc : string) (scanResponse resp : response) (k : nat)
    (w : world) :
  let w0 := snd (run N (cache_read (safety_key url)) w) in
  fst (run N (cache_read (safety_key url)) w) = None ->
  encodeURIComponent R (to_string url) = inr enc ->
  http N (length (sent w)) (Post scan_endpoint (scan_body R enc))
    = Resp scanResponse ->
  resp_status scanResponse = 200 ->
  (k < 5)%nat ->
  (forall i, (i < k)%nat ->
     exists r,
       http N (S (length (sent w)) + i)%nat (Get (JStr (report_url R enc)))
         = Resp r
       /\ strict_eq (response_code (resp_data r)) 1 = false) ->
  http N (S (length (sent w)) + k)%nat (Get (JStr (report_url R enc)))
    = Resp resp ->
  strict_eq (response_code (resp_data resp)) 1 = true ->
  let result := fst (run N (checkUrlSafety R url) w) in
  let w' := snd (run N (checkUrlSafety R url) w) in
  result = scan_result (resp_data resp)
  /\ sent w' = sent w ++ Post scan_endpoint (scan_body R enc)
                 :: repeat (Get (JStr (report_url R enc))) (S k)
  /\ cache w' = <[safety_key url :=
                    {| data := DSafety result;
                       timestamp := clock N (reads w0) |}]>
                  (delete (safety_key url) (cache w)).
Proof.
  intros w0 Hmiss Henc Hscan Hstatus Hk Hbefore Hat Hdone result w'.
  subst result w'.
  destruct (cache_read_miss N (safety_key url) w Hmiss) as [Hcache Hsent].
  rewrite (checkUrlSafety_miss N R url w Hmiss). fold w0.
  fold w0 in Hcache, Hsent.
  unfold scan. rewrite Henc. cbn [bind trigger run exec].
  rewrite Hsent, Hscan. cbn [bind]. rewrite Hstatus. cbn [negb Z.eqb Pos.eqb].
  rewrite (run_poll_complete 5 k _ _ resp).
  - cbn [fst snd cache sent reads]. rewrite Hcache, <- app_assoc.
    repeat split.
  - exact Hk.
  - intros i Hi. cbn [sent]. rewrite length_app. cbn [length].
    destruct (Hbefore i Hi) as (r & Hr & Hcode).
    exists r. split; [| exact Hcode]. rewrite <- Hr. f_equal. lia.
  - cbn [sent]. rewrite length_app. cbn [length].
    rewrite <- Hat. f_equal. lia.
  - exact Hdone.
Qed.

(** The ways in which the polls end. *)
Lemma run_poll_cases (n : nat) (key enc : string) (w : world) :
  let result := fst (run N (poll R n key enc) w) in
  let w' := snd (run N (poll R n key enc) w) in
  (Safety.status result = "error" /\ cache w' = cache w)
  \/ (Safety.status result <> "error"
      /\ exists now,
           cache w' = <[key := {| data := DSafety result; timestamp := now |}]>
                        (cache w)).
Proof.
  revert w. induction n as [| n IH]; intros w; cbn [poll].
  - left. split; reflexivity.
  - cbn [bind trigger run exec].
    destruct (http N (length (sent w)) (Get (JStr (report_url R enc))))
      as [msg | resp]; cbn [bind run fst snd cache].
    + left. split; reflexivity.
    + destruct (strict_eq (response_code (resp_data resp)) 1);
        cbn [bind trigger run exec fst snd cache].
      * right. split; [| eauto].
        unfold scan_result. cbn.
        destruct (strict_eq (rep_positives (resp_data resp)) 0); discriminate.
      * match goal with
        | |- context [run N (poll R n key enc) ?w1] => exact (IH w1)
        end.
Qed.

(** X7. On a miss, [checkUrlSafety] stores its result if and only if the
    result is not an error: after the call, the cache is the cache without
    the old entry of the URL when the result is an error (whatever failed:
    the encoding, the submission, a poll) and with the result stored under
    the key of the URL otherwise. *)
Theorem safety_result_stored_iff_not_error (url : jsval) (w : world) :
  fst (run N (cache_read (safety_key url)) w) = None ->
  let result := fst (run N (checkUrlSafety R url) w) in
  let w' := snd (run N (checkUrlSafety R url) w) in
  (Safety.status result = "error"
   /\ cache w' = delete (safety_key url) (cache w))
  \/ (Safety.status result <> "error"
      /\ exists now,
           cache w' = <[safety_key url :=
                          {| data := DSafety result; timestamp := now |}]>
                        (delete (safety_key url) (cache w))).
Proof.
  intros Hmiss result w'. subst result w'.
  destruct (cache_read_miss N (safety_key url) w Hmiss) as [Hcache _].
  rewrite (checkUrlSafety_miss N R url w Hmiss).
  rewrite <- Hcache.
  generalize (snd (run N (cache_read (safety_key url)) w)). intros w0.
  unfold scan.
  destruct (encodeURIComponent R (to_string url)) as [msg | enc].
  - left. split; reflexivity.
  - cbn [bind trigger run exec].
    destruct (http N (length (sent w0)) (Post scan_endpoint (scan_body R enc)))
      as [msg | resp]; cbn [bind run fst snd cache].
    + left. split; reflexivity.
    + destruct (negb (resp_status resp =? 200)); cbn [run fst snd cache].
      * left. split; reflexivity.
      * match goal with
        | |- context [run N (poll R 5 _ enc) ?w1] =>
            exact (run_poll_cases 5 (safety_key url) enc w1)
        end.
Qed.

End ScannerCases.

(** X5, on a concrete run: the scanning service answers 403. *)
Lemma failed_submission_is_not_polled_witness :
  let N := Demo.scripted [Demo.ok 403 None no_report] (fun _ => 0) in
  let u := JStr "http://a/" in
  let result := fst (run N (checkUrlSafety Demo.runtime u) boot) in
  let w' := snd (run N (checkUrlSafety Demo.runtime u) boot) in
  result = Safety.error "API error: 403"
  /\ sent w' = sent boot ++ [Post scan_endpoint (scan_body Demo.runtime "http://a/")]
  /\ cache w' = delete (safety_key u) (cache boot).
Proof.
  intros N u.
  apply (failed_submission_is_not_polled N Demo.runtime u "http://a/"
           "API error: 403" boot).
  - reflexivity.
  - reflexivity.
  - vm_compute. reflexivity.
Defined.

(** X6, on a concrete run: the report is complete at the third attempt. *)
Lemma complete_report_is_stored_and_returned_witness :
  let done := {| response_code := Some 1; rep_positives := Some 2;
                 rep_total := Some 70 |} in
  let N := Demo.scripted [Demo.ok 200 None no_report;
                          Demo.ok 200 None Demo.pending;
                          Demo.ok 200 None Demo.pending;
                          Demo.ok 200 None done] (fun _ => 9) in
  let u := JStr "http://a/" in
  let result := fst (run N (checkUrlSafety Demo.runtime u) boot) in
  let w' := snd (run N (checkUrlSafety Demo.runtime u) boot) in
  result = scan_result done
  /\ sent w' = sent boot ++ Post scan_endpoint (scan_body Demo.runtime "http://a/")
                 :: repeat (Get (JStr (report_url Demo.runtime "http://a/"))) 3
  /\ cache w' = <[safety_key u := {| data := DSafety result; timestamp := 9 |}]>
                  (delete (safety_key u) (cache boot)).
Proof.
  intros done N u.
  apply (complete_report_is_stored_and_returned N Demo.runtime u "http://a/"
           {| resp_status := 200; location := None; resp_data := no_report |}
           {| resp_status := 200; location := None; resp_data := done |}
           2 boot).
  - reflexivity.
  - reflexivity.
  - reflexivity.
  - reflexivity.
  - lia.
  - intros i Hi.
    exists {| resp_status := 200; location := None; resp_data := Demo.pending |}.
    do 2 (destruct i as [| i]; [split; reflexivity |]). lia.
  - reflexivity.
  - reflexivity.
Defined.

(** X7, on a concrete run: the scanning service cannot be reached. *)
Lemma safety_result_stored_iff_not_error_witness :
  let u := JStr "http://a/" in
  let result := fst (run Demo.endless (checkUrlSafety Demo.runtime u) boot) in
  let w' := snd (run Demo.endless (checkUrlSafety Demo.runtime u) boot) in
  (Safety.status result = "error"
   /\ cache w' = delete (safety_key u) (cache boot))
  \/ (Safety.status result <> "error"
      /\ exists now,
           cache w' = <[safety_key u :=
                          {| data := DSafety result; timestamp := now |}]>
                        (delete (safety_key u) (cache boot))).
Proof.
  intros u.
  apply (safety_result_stored_iff_not_error Demo.endless Demo.runtime u boot).
  reflexivity.
Defined.

(** ** More on the redirect resolver *)

Section ResolverCases.

Context (N : outside) (R : runtime).

(** The loop requests each URL that it adds to the chain, once and in
    order, and records a status code for each answer. *)
Lemma run_follow_requests (currentUrl : jsval) (redirectChain : list jsval)
    (statusCodes : list Z) (response : response) (w : world) :
  let t := fst (run N (follow R currentUrl redirectChain statusCodes response) w) in
  let w' := snd (run N (follow R currentUrl redirectChain statusCodes response) w) in
  exists more,
    collected t = redirectChain ++ more
    /\ sent w' = sent w ++ (Get <$> more)
    /\ (length (recorded t) <= length statusCodes + length more
        <= S (length (recorded t)))%nat
    /\ (arrived t = true ->
        length (recorded t) = (length statusCodes + length more)%nat)
    /\ (length redirectChain <= 4 -> length (collected t) <= 4)%nat.
Proof.
  revert w.
  funelim (follow R currentUrl redirectChain statusCodes response); intros w.
  - destruct (url_resolve R (location_of response0) (to_string currentUrl))
      as [msg | next].
    + exists []. cbn. rewrite !app_nil_r. repeat split; lia.
    + cbn [run exec].
      destruct (http N (length (sent w)) (Get (JStr next))) as [msg | response'].
      * exists [JStr next]. cbn. repeat split; try lia.
        intros Hlen. pose proof Hloop as Hcond. unfold redirecting in Hcond.
        rewrite !andb_true_iff in Hcond. destruct Hcond as [_ Hle].
        apply Nat.leb_le in Hle. rewrite length_app. cbn. lia.
      * match goal with
        | |- context [run N _ ?w1] =>
            destruct (H next (Resp response') response' w1)
              as (more & Hc & Hs & Hr & Ha & Hb)
        end.
        exists (JStr next :: more).
        rewrite length_app in Hr, Ha. cbn [length] in Hr, Ha.
        split; [rewrite Hc, <- app_assoc; reflexivity |].
        split; [rewrite Hs; cbn [sent fmap list_fmap];
                rewrite <- app_assoc; reflexivity |].
        split; [cbn [length]; lia |].
        split; [intros Harr; specialize (Ha Harr); cbn [length]; lia |].
        intros Hlen. apply Hb.
        pose proof Hloop as Hcond. unfold redirecting in Hcond.
        rewrite !andb_true_iff in Hcond. destruct Hcond as [_ Hle].
        apply Nat.leb_le in Hle. rewrite length_app. cbn. lia.
  - exists []. cbn. rewrite !app_nil_r. repeat split; lia.
Qed.

(** X8. A traversal calls [axiosInstance.get] once for each URL of the
    chain that it collects, in order, starting with the URL of the call,
    and makes no other call; it never collects more than four URLs.  When
    it ends without exception it has recorded one status code per URL;
    when it throws, the call for the last URL may be the one that failed,
    and its code is missing.  These are the calls of the code: with the
    client of line 75, which follows redirects itself, the traversal is
    the one call for the URL and the chain is that URL alone, whatever
    the client requested on the way. *)
Theorem traversal_calls_client_once_per_url (url : jsval) (w : world) :
  let t := fst (run N (traverse R url) w) in
  let w' := snd (run N (traverse R url) w) in
  head (collected t) = Some url
  /\ sent w' = sent w ++ (Get <$> collected t)
  /\ (length (collected t) <= 4)%nat
  /\ (length (recorded t) <= length (collected t) <= S (length (recorded t)))%nat
  /\ (arrived t = true -> length (recorded t) = length (collected t))
  /\ (client_follows_redirects N ->
      collected t = [url] /\ sent w' = sent w ++ [Get url]).
Proof.
  cbv zeta.
  match goal with
  | |- ?A /\ ?B /\ ?C /\ ?D /\ ?E /\ _ =>
      assert (Hcalls : A /\ B /\ C /\ D /\ E);
      [| destruct Hcalls as (H1 & H2 & H3 & H4 & H5);
         do 5 (split; [assumption |]);
         intros client; rewrite (run_traverse_following N R client);
         cbn [fst snd sent];
         destruct (http N (length (sent w)) (Get url)); split; reflexivity]
  end.
  unfold traverse. cbn [bind trigger run exec].
  destruct (http N (length (sent w)) (Get url)) as [msg | response].
  - cbn. repeat split; lia.
  - cbn [bind].
    match goal with
    | |- context [run N (follow R ?a ?b ?c ?d) ?w1] =>
        destruct (run_follow_requests a b c d w1)
          as (more & Hc & Hs & Hr & Ha & Hb)
    end.
    cbn [length] in Hr, Ha, Hb.
    split; [rewrite Hc; reflexivity |].
    split; [rewrite Hs, Hc; cbn [sent app fmap list_fmap];
            rewrite <- app_assoc; reflexivity |].
    split; [apply Hb; lia |].
    rewrite Hc. cbn [app length].
    split; [lia |]. intros Harr. specialize (Ha Harr). lia.
Qed.

(** The status of a result that [classify] builds. *)
Lemma classify_status (chain : list jsval) (codes : list Z) (w : world) :
  Redirect.status (fst (run N (classify R chain codes) w)) <> "error".
Proof.
  unfold classify. destruct (1 <? length chain)%nat.
  - rewrite run_bind. cbn.
    match goal with
    | |- (if ?b then _ else _) <> _ => destruct b; discriminate
    end.
  - cbn. discriminate.
Qed.

(** X9. On a miss, [checkRedirects] stores its result if and only if the
    result is not an error.  A result that is not an error is stored
    under the key of the URL, and the next call for the URL, when it
    reads the clock within 24h of the time stored, returns the same
    result and sends no request; after an error the cache has no entry
    for the URL. *)
Theorem redirect_result_stored_iff_not_error (url : jsval) (w : world) :
  fst (run N (cache_read (redirect_key url)) w) = None ->
  let first := run N (checkRedirects R url) w in
  if String.eqb (Redirect.status (fst first)) "error"
  then cache (snd first) !! redirect_key url = None
  else exists now,
         cache (snd first) !! redirect_key url
         = Some {| data := DRedirect (fst first); timestamp := now |}
         /\ (clock N (reads (snd first)) - now < CACHE_TTL ->
             run N (checkRedirects R url) (snd first)
             = (fst first, ticked (snd first))).
Proof.
  intros Hmiss first. subst first.
  destruct (cache_read_miss N (redirect_key url) w Hmiss) as [Hcache _].
  rewrite (checkRedirects_miss N R url w Hmiss).
  set (w0 := snd (run N (cache_read (redirect_key url)) w)) in *.
  destruct (fst (run N (traverse R url) w0)) as [msg chain codes | chain codes]
    eqn:Ht.
  - rewrite (run_resolve_thrown N R _ _ _ _ _ _ Ht).
    cbn [fst snd redirect_error Redirect.status]. rewrite String.eqb_refl.
    destruct (run_traverse_cache N R url w0) as [Hc _].
    rewrite Hc, Hcache. apply lookup_delete_eq.
  - rewrite (run_resolve_arrived N R _ _ _ _ _ Ht). cbn [fst snd].
    pose proof (classify_status chain codes (snd (run N (traverse R url) w0)))
      as Hne.
    apply String.eqb_neq in Hne. rewrite Hne.
    eexists. split.
    + cbn [cache]. apply lookup_insert_eq.
    + intros Hfresh.
      match goal with
      | |- context [<[_ := ?e]> _] =>
          rewrite (checkRedirects_hit N R url _ e)
      end.
      * reflexivity.
      * cbn [cache]. apply lookup_insert_eq.
      * exact Hfresh.
Qed.

End ResolverCases.

(** X9, on a concrete run: one redirect to a URL that is flagged; the
    clock stands still. *)
Lemma redirect_result_stored_iff_not_error_witness :
  let N := Demo.flagged_redirect in
  let u := JStr "http://redir/a" in
  let first := run N (checkRedirects Demo.runtime u) boot in
  let second := run N (checkRedirects Demo.runtime u) (snd first) in
  Redirect.status (fst first) = "suspicious"
  /\ fst second = fst first
  /\ sent (snd second) = sent (snd first).
Proof.
  intros N u first second.
  pose proof (redirect_result_stored_iff_not_error N Demo.runtime u boot eq_refl)
    as H.
  cbv zeta in H.
  assert (Hst : Redirect.status (fst first) = "suspicious")
    by (vm_compute; reflexivity).
  subst first second. rewrite Hst in H. cbn [String.eqb Ascii.eqb Bool.eqb] in H.
  destruct H as (now & Hstored & Hagain).
  assert (Hnow : now = 0).
  { assert (Hv : cache (snd (run N (checkRedirects Demo.runtime u) boot))
                   !! redirect_key u
                 = Some {| data := DRedirect
                             (fst (run N (checkRedirects Demo.runtime u) boot));
                           timestamp := 0 |})
      by (vm_compute; reflexivity).
    rewrite Hv in Hstored. injection Hstored as Hn. symmetry. exact Hn. }
  subst now.
  rewrite (Hagain ltac:(vm_compute; reflexivity)).
  split; [exact Hst |]. split; reflexivity.
Defined.

(** ** Bounds on the requests *)

Lemma within_mono {A} (p : prog A) (n m : nat) :
  (n <= m)%nat -> within n p -> within m p.
Proof.
  revert n m. induction p as [a | X e k IH]; intros n m Hle; cbn [within].
  - trivial.
  - destruct (is_request e).
    + destruct n as [| n]; [contradiction |].
      destruct m as [| m]; [lia |].
      intros Hk x. apply (IH x n m); [lia | apply Hk].
    + intros Hk x. apply (IH x n m); [lia | apply Hk].
Qed.

Lemma within_bind {A B} (p : prog A) (f : A -> prog B) (n m : nat) :
  within n p -> (forall a, within m (f a)) -> within (n + m) (bind p f).
Proof.
  revert n. induction p as [a | X e k IH]; intros n Hp Hf; cbn [within bind] in *.
  - apply (within_mono _ m); [lia | apply Hf].
  - destruct (is_request e).
    + destruct n as [| n]; [contradiction |].
      cbn [Nat.add]. intros x. apply IH; [apply Hp | exact Hf].
    + intros x. apply IH; [apply Hp | exact Hf].
Qed.

Section Budgets.

Context (N : outside).

Lemma exec_requests {X} (e : eff X) (w : world) :
  length (sent (snd (exec N e w)))
  = (length (sent w) + if is_request e then 1 else 0)%nat.
Proof.
  destruct e; cbn; try lia. rewrite length_app. cbn. lia.
Qed.

Lemma run_within {A} (p : prog A) (n : nat) (w : world) :
  within n p ->
  (length (sent (snd (run N p w))) <= length (sent w) + n)%nat.
Proof.
  revert n w. induction p as [a | X e k IH]; intros n w Hp; cbn [run within] in *.
  - cbn. lia.
  - pose proof (exec_requests e w) as He.
    destruct (exec N e w) as [x w']. cbn [snd] in He.
    destruct (is_request e).
    + destruct n as [| n]; [contradiction |].
      specialize (IH x n w' (Hp x)). lia.
    + specialize (IH x n w' (Hp x)). lia.
Qed.

Lemma advance_within {A} (p : prog A) (n : nat) (w : world) :
  within n p ->
  exists m,
    within m (fst (advance N p w))
    /\ (length (sent (snd (advance N p w))) + m <= length (sent w) + n)%nat.
Proof.
  revert n w. induction p as [a | X e k IH]; intros n w Hp.
  - exists 0%nat. cbn. split; [exact I | lia].
  - cbn [advance]. destruct (suspends e) eqn:Hs.
    + exists n. cbn [fst snd]. split; [exact Hp | lia].
    + cbn [within] in Hp.
      pose proof (exec_requests e w) as He.
      destruct (exec N e w) as [x w']. cbn [snd] in He.
      assert (Hr : is_request e = false) by (destruct e; cbn in *; congruence).
      rewrite Hr in Hp, He.
      destruct (IH x n w' (Hp x)) as (m & Hm & Hle).
      exists m. split; [exact Hm | lia].
Qed.

Lemma resume_within {A} (p : prog A) (n : nat) (w : world) :
  within n p ->
  exists m,
    within m (fst (resume N p w))
    /\ (length (sent (snd (resume N p w))) + m <= length (sent w) + n)%nat.
Proof.
  intros Hp. destruct p as [a | X e k].
  - exists 0%nat. cbn. split; [exact I | lia].
  - cbn [resume]. cbn [within] in Hp.
    pose proof (exec_requests e w) as He.
    destruct (exec N e w) as [x w']. cbn [snd] in He.
    destruct (is_request e).
    + destruct n as [| n]; [contradiction |].
      destruct (advance_within (k x) n w' (Hp x)) as (m & Hm & Hle).
      exists m. split; [exact Hm | lia].
    + destruct (advance_within (k x) n w' (Hp x)) as (m & Hm & Hle).
      exists m. split; [exact Hm | lia].
Qed.

Context (R : runtime).

Lemma within_cache_read (key : string) : within 0 (cache_read key).
Proof.
  unfold cache_read. cbn. intros [e |]; cbn; [| exact I].
  intros now. destruct (now - timestamp e <? CACHE_TTL); cbn; trivial.
Qed.

Lemma within_poll (n : nat) (key enc : string) : within n (poll R n key enc).
Proof.
  induction n as [| n IH]; cbn; [exact I |].
  intros [msg | resp]; cbn; [exact I |].
  destruct (strict_eq (response_code (resp_data resp)) 1); cbn.
  - intros _ _. exact I.
  - intros _. exact IH.
Qed.

Lemma within_scan (u : jsval) (key : string) : within 6 (scan R u key).
Proof.
  unfold scan. destruct (encodeURIComponent R (to_string u)) as [msg | enc];
    cbn [within bind trigger is_request]; [exact I |].
  intros [msg | resp]; cbn [within]; [exact I |].
  destruct (negb (resp_status resp =? 200)); cbn [within]; [exact I |].
  apply within_poll.
Qed.

Lemma within_checkUrlSafety (u : jsval) : within 6 (checkUrlSafety R u).
Proof.
  unfold checkUrlSafety.
  apply (within_bind _ _ 0 6); [apply within_cache_read |].
  intros [d |]; [exact I | apply within_scan].
Qed.

Lemma within_follow (currentUrl : jsval) (redirectChain : list jsval)
    (statusCodes : list Z) (response : response) :
  within (4 - length redirectChain)
    (follow R currentUrl redirectChain statusCodes response).
Proof.
  funelim (follow R currentUrl redirectChain statusCodes response);
    [| exact I].
  pose proof Hloop as Hcond. unfold redirecting in Hcond.
  rewrite !andb_true_iff in Hcond. destruct Hcond as [_ Hle].
  apply Nat.leb_le in Hle.
  destruct (url_resolve R (location_of response0) (to_string currentUrl))
    as [msg | next]; [exact I |].
  cbn [within is_request].
  destruct (4 - length redirectChain)%nat as [| n] eqn:Hn; [lia |].
  intros [msg | response']; [exact I |].
  eapply within_mono; [| apply (H next (Resp response') response')].
  rewrite length_app. cbn [length]. lia.
Qed.

Lemma within_traverse (u : jsval) : within 4 (traverse R u).
Proof.
  unfold traverse. cbn [within bind trigger is_request].
  intros [msg | response]; cbn [bind]; [exact I |].
  apply (within_follow u [u]).
Qed.

Lemma within_classify (chain : list jsval) (codes : list Z) :
  within 6 (classify R chain codes).
Proof.
  unfold classify. destruct (1 <? length chain)%nat; [| exact I].
  apply (within_bind _ _ 6 0); [apply within_checkUrlSafety |].
  intros s. exact I.
Qed.

Lemma within_resolve (u : jsval) (key : string) : within 10 (resolve R u key).
Proof.
  unfold resolve. apply (within_bind _ _ 4 6); [apply within_traverse |].
  intros [msg chain codes | chain codes]; cbn [within bind trigger is_request].
  - intros _. exact I.
  - intros _. apply (within_bind _ _ 6 0); [apply within_classify |].
    intros r. cbn. intros _ _ _. exact I.
Qed.

Lemma within_checkRedirects (u : jsval) : within 10 (checkRedirects R u).
Proof.
  unfold checkRedirects.
  apply (within_bind _ _ 0 10); [apply within_cache_read |].
  intros [d |]; [exact I | apply within_resolve].
Qed.

(** X10. Whatever the services answer, a call of [checkUrlSafety] sends at
    most 6 requests (one submission and five reports) and a call of
    [checkRedirects] at most 10 (four of the traversal and the six of the
    safety check of the last URL). *)
Theorem calls_send_boundedly_many_requests (u : jsval) (w : world) :
  (length (sent (snd (run N (checkUrlSafety R u) w))) <= length (sent w) + 6)%nat
  /\ (length (sent (snd (run N (checkRedirects R u) w)))
      <= length (sent w) + 10)%nat.
Proof.
  split; apply run_within;
    [apply within_checkUrlSafety | apply within_checkRedirects].
Qed.

Lemma owed_settle (t : task) (b : nat) : owed t b -> owed (settle t) b.
Proof.
  destruct t as [r | u st ps pr]; [trivial |].
  destruct ps as [s |]; [| trivial].
  destruct pr as [r |]; [| trivial].
  intros _. exact I.
Qed.

Lemma spawn_owes (u : jsval) (w : world) :
  exists b,
    owed (fst (spawn N R u w)) b
    /\ (length (sent (snd (spawn N R u w))) + b <= length (sent w) + 16)%nat.
Proof.
  unfold spawn, start. destruct (validateUrlStructure R u).
  - pose proof (within_checkUrlSafety u) as Hps.
    pose proof (within_checkRedirects u) as Hpr. revert Hps Hpr.
    generalize (checkUrlSafety R u), (checkRedirects R u). intros ps pr Hps Hpr.
    destruct (advance_within ps 6 w Hps) as (n & Hn & Hle1).
    destruct (advance N ps w) as [ps' w1]. cbn [fst snd] in *.
    destruct (advance_within pr 10 w1 Hpr) as (m & Hm & Hle2).
    destruct (advance N pr w1) as [pr' w2]. cbn [fst snd] in *.
    exists (n + m)%nat. split; [| lia].
    apply owed_settle. exists n, m. repeat split; [assumption .. | lia].
  - exists 0%nat. cbn. split; [exact I | lia].
Qed.

Lemma spawn_all_owes (urls : list jsval) (w : world) :
  exists b,
    pool_owes (fst (spawn_all N R urls w)) b
    /\ (length (sent (snd (spawn_all N R urls w))) + b
        <= length (sent w) + 16 * length urls)%nat.
Proof.
  revert w. induction urls as [| u rest IH]; intros w; cbn [spawn_all].
  - exists 0%nat. cbn. split; [constructor | lia].
  - destruct (spawn_owes u w) as (b & Hb & Hle1).
    destruct (spawn N R u w) as [t w1]. cbn [fst snd] in *.
    destruct (IH w1) as (n & Hn & Hle2).
    destruct (spawn_all N R rest w1) as [ts w2]. cbn [fst snd length] in *.
    exists (b + n)%nat. split; [constructor; assumption | lia].
Qed.

Lemma step_task_owes (s : side) (t : task) (b : nat) (w : world) :
  owed t b ->
  exists b',
    owed (fst (step_task N s t w)) b'
    /\ (length (sent (snd (step_task N s t w))) + b' <= length (sent w) + b)%nat.
Proof.
  intros Ht. destruct t as [r | u st ps pr].
  - exists 0%nat. cbn. split; [exact I | lia].
  - destruct Ht as (n & m & Hn & Hm & Hle). destruct s; cbn [step_task].
    + destruct (resume_within ps n w Hn) as (n' & Hn' & Hle').
      destruct (resume N ps w) as [ps' w']. cbn [fst snd] in *.
      exists (n' + m)%nat. split; [| lia].
      apply owed_settle. exists n', m. repeat split; [assumption .. | lia].
    + destruct (resume_within pr m w Hm) as (m' & Hm' & Hle').
      destruct (resume N pr w) as [pr' w']. cbn [fst snd] in *.
      exists (n + m')%nat. split; [| lia].
      apply owed_settle. exists n, m'. repeat split; [assumption .. | lia].
Qed.

Lemma pool_owes_slot (tasks : list task) (n : nat) (i : nat) (t : task) :
  pool_owes tasks n -> tasks !! i = Some t ->
  exists b others,
    owed t b /\ n = (b + others)%nat
    /\ forall t' b', owed t' b' -> pool_owes (<[i := t']> tasks) (b' + others).
Proof.
  intros Hp. revert i. induction Hp as [| t0 b0 rest n0 H0 Hrest IH];
    intros i Hi; [discriminate |].
  destruct i as [| i]; cbn in Hi.
  - injection Hi as ->. exists b0, n0. split; [exact H0 |]. split; [reflexivity |].
    intros t' b' Ht'. cbn. constructor; assumption.
  - destruct (IH i Hi) as (b & others & Hb & -> & Hins).
    exists b, (b0 + others)%nat. split; [exact Hb |]. split; [lia |].
    intros t' b' Ht'. cbn.
    replace (b' + (b0 + others))%nat with (b0 + (b' + others))%nat by lia.
    constructor; [exact H0 | apply Hins, Ht'].
Qed.

Lemma interleave_owes (sched : schedule) (tasks : list task) (n : nat)
    (w : world) :
  pool_owes tasks n ->
  exists n',
    pool_owes (fst (interleave N sched tasks w)) n'
    /\ (length (sent (snd (interleave N sched tasks w))) + n'
        <= length (sent w) + n)%nat.
Proof.
  revert tasks n w. induction sched as [| [i s] rest IH]; intros tasks n w Hp;
    cbn [interleave].
  - exists n. split; [exact Hp | cbn; lia].
  - destruct (tasks !! i) as [t |] eqn:Hi; [| apply IH, Hp].
    destruct (pool_owes_slot tasks n i t Hp Hi) as (b & others & Hb & -> & Hins).
    destruct (step_task_owes s t b w Hb) as (b' & Hb' & Hle).
    destruct (step_task N s t w) as [t' w']. cbn [fst snd] in *.
    destruct (IH (<[i := t']> tasks) (b' + others)%nat w' (Hins t' b' Hb'))
      as (n' & Hn' & Hle').
    exists n'. split; [exact Hn' | lia].
Qed.

Lemma finish_owes (t : task) (b : nat) (w : world) :
  owed t b ->
  (length (sent (snd (finish N t w))) <= length (sent w) + b)%nat.
Proof.
  intros Ht. destruct t as [r | u st ps pr]; [cbn; lia |].
  destruct Ht as (n & m & Hn & Hm & Hle). cbn [finish].
  pose proof (run_within ps n w Hn) as H1.
  destruct (run N ps w) as [s w1]. cbn [snd] in H1.
  pose proof (run_within pr m w1 Hm) as H2.
  destruct (run N pr w1) as [r w2]. cbn [snd] in *. lia.
Qed.

Lemma finish_all_owes (tasks : list task) (n : nat) (w : world) :
  pool_owes tasks n ->
  (length (sent (snd (finish_all N tasks w))) <= length (sent w) + n)%nat.
Proof.
  intros Hp. revert w. induction Hp as [| t b rest n Ht Hrest IH]; intros w;
    cbn [finish_all]; [cbn; lia |].
  pose proof (finish_owes t b w Ht) as H1.
  destruct (finish N t w) as [r w1]. cbn [snd] in H1.
  specialize (IH w1).
  destruct (finish_all N rest w1) as [rs w2]. cbn [snd] in *. lia.
Qed.

(** X11. Under any schedule and whatever the services answer, the handler
    sends at most 16 requests per element of the array, and none when it
    rejects the body. *)
Theorem batch_sends_boundedly_many_requests
    (sched : schedule) (urls : jsval) (w : world) :
  (length (sent (snd (handler N R sched urls w)))
   <= length (sent w) + 16 * length (elements urls))%nat.
Proof.
  unfold handler.
  destruct (negb (truthy urls) || negb (isArray urls)); [cbn [snd]; lia |].
  destruct (spawn_all_owes (elements urls) w) as (b & Hb & Hle1).
  destruct (spawn_all N R (elements urls) w) as [tasks w1]. cbn [fst snd] in *.
  destruct (interleave_owes sched tasks b w1 Hb) as (n' & Hn' & Hle2).
  destruct (interleave N sched tasks w1) as [tasks' w2]. cbn [fst snd] in *.
  pose proof (finish_all_owes tasks' n' w2 Hn') as Hle3.
  destruct (finish_all N tasks' w2) as [results w3]. cbn [snd] in *. lia.
Qed.

End Budgets.

(** The bounds are reached: when the servers redirect without end and the
    reports are never complete, one URL costs 16 requests. *)
Example sixteen_requests_for_one_url :
  let N := {| http := fun _ r =>
                match r with
                | Post _ _ => Demo.ok 200 None no_report
                | Get (JStr "http://a/") | Get (JStr "http://loop/") =>
                    Demo.ok 302 (Some "http://loop/") no_report
                | Get _ => Demo.ok 200 None Demo.pending
                end;
              clock := fun _ => 0 |} in
  length (sent (snd (handler N Demo.runtime []
                       (JArr [JStr "http://a/"]) boot))) = 16%nat.
Proof. vm_compute. reflexivity. Qed.

(** ** The keys that the calls write *)

Lemma writes_only_weaken (K K' : string -> Prop) {A} (p : prog A)
    (Q : A -> Prop) :
  (forall key, K key -> K' key) ->
  meets (writes_only K) p Q -> meets (writes_only K') p Q.
Proof.
  intros HK. induction p as [a | X e k IH]; cbn [meets].
  - trivial.
  - intros [Hg Hk]. split.
    + destruct e; cbn in *; auto.
    + intros x _. apply IH, Hk. exact I.
Qed.

Section Frame.

Context (N : outside) (R : runtime).

Lemma exec_keeps_outside (K : string -> Prop) (c : gmap string entry)
    X (e : eff X) (w : world) :
  same_outside K c w -> allowed (writes_only K) X e ->
  same_outside K c (snd (exec N e w))
  /\ assumed (writes_only K) X e (fst (exec N e w)).
Proof.
  intros Hs Hg. split; [| exact I].
  destruct e; cbn in *; try exact Hs.
  - intros k Hk. cbn. rewrite lookup_delete_ne; [apply Hs, Hk |].
    intros ->. apply Hk, Hg.
  - intros k Hk. cbn. rewrite lookup_insert_ne; [apply Hs, Hk |].
    intros ->. apply Hk, Hg.
Qed.

Lemma writes_cache_read (key : string) :
  meets (writes_only (fun k => k = key)) (cache_read key) (fun _ => True).
Proof.
  unfold cache_read. cbn. split; [exact I |].
  intros [e |] _; cbn; [| exact I].
  split; [exact I |]. intros now _.
  destruct (now - timestamp e <? CACHE_TTL); cbn; [exact I |].
  split; [reflexivity |]. intros _ _. exact I.
Qed.

Lemma writes_poll (n : nat) (key enc : string) :
  meets (writes_only (fun k => k = key)) (poll R n key enc) (fun _ => True).
Proof.
  induction n as [| n IH]; cbn [poll meets bind trigger]; [exact I |].
  split; [exact I |]. intros [msg | resp] _; cbn [meets bind]; [exact I |].
  destruct (strict_eq (response_code (resp_data resp)) 1);
    cbn [meets bind trigger].
  - split; [exact I |]. intros now _. split; [reflexivity |].
    intros _ _. exact I.
  - split; [exact I |]. intros _ _. exact IH.
Qed.

Lemma writes_checkUrlSafety (u : jsval) :
  meets (writes_only (fun k => k = safety_key u)) (checkUrlSafety R u)
    (fun _ => True).
Proof.
  unfold checkUrlSafety. apply meets_bind.
  eapply meets_mono; [| apply writes_cache_read].
  intros [d |] _; cbn [meets]; [exact I |].
  unfold scan.
  destruct (encodeURIComponent R (to_string u)) as [msg | enc];
    cbn [meets bind trigger]; [exact I |].
  split; [exact I |]. intros [msg | resp] _; cbn [meets]; [exact I |].
  destruct (negb (resp_status resp =? 200)); cbn [meets]; [exact I |].
  apply writes_poll.
Qed.

Lemma writes_follow (K : string -> Prop) (currentUrl : jsval)
    (redirectChain : list jsval) (statusCodes : list Z) (response : response) :
  meets (writes_only K) (follow R currentUrl redirectChain statusCodes response)
    (fun _ => True).
Proof.
  funelim (follow R currentUrl redirectChain statusCodes response);
    [| exact I].
  destruct (url_resolve R (location_of response0) (to_string currentUrl))
    as [msg | next]; cbn [meets]; [exact I |].
  split; [exact I |]. intros [msg | response'] _; cbn [meets]; [exact I |].
  apply (H next (Resp response') response').
Qed.

Lemma writes_checkRedirects (u : jsval) :
  meets (writes_only (redirect_keys u)) (checkRedirects R u) (fun _ => True).
Proof.
  unfold checkRedirects. apply meets_bind.
  eapply meets_mono;
    [| eapply writes_only_weaken; [| apply writes_cache_read]].
  2: { intros key ->. left. reflexivity. }
  intros [d |] _; cbn [meets]; [exact I |].
  unfold resolve, traverse. cbn [meets bind trigger].
  split; [exact I |]. intros [msg | response] _; cbn [meets bind trigger].
  - split; [exact I |]. intros _ _. exact I.
  - apply meets_bind. eapply meets_mono; [| apply writes_follow].
    intros [msg chain codes | chain codes] _; cbn [meets bind trigger].
    + split; [exact I |]. intros _ _. exact I.
    + split; [exact I |]. intros _ _. apply meets_bind.
      unfold classify. destruct (1 <? length chain)%nat.
      * apply meets_bind.
        eapply meets_mono;
          [| eapply writes_only_weaken; [| apply writes_checkUrlSafety]].
        2: { intros key ->. right. eauto. }
        intros s _. cbn [meets bind trigger].
        split; [exact I |]. intros _ _.
        split; [exact I |]. intros now _.
        split; [left; reflexivity |]. intros _ _. exact I.
      * cbn [meets bind trigger].
        split; [exact I |]. intros _ _.
        split; [exact I |]. intros now _.
        split; [left; reflexivity |]. intros _ _. exact I.
Qed.

(** X12. A call of [checkUrlSafety] changes no entry of the cache other
    than that of its own key; a call of [checkRedirects] changes no
    redirect entry other than that of its own key (it may change safety
    entries, through the check of the last URL). *)
Theorem calls_write_only_their_keys (url : jsval) (w : world) :
  (forall key,
     key <> safety_key url ->
     cache (snd (run N (checkUrlSafety R url) w)) !! key = cache w !! key)
  /\ (forall key,
        key <> redirect_key url ->
        (forall v, key <> safety_key v) ->
        cache (snd (run N (checkRedirects R url) w)) !! key = cache w !! key).
Proof.
  split.
  - intros key Hkey.
    destruct (run_meets N (writes_only (fun k => k = safety_key url))
                (same_outside (fun k => k = safety_key url) (cache w))
                (exec_keeps_outside _ (cache w))
                (checkUrlSafety R url) (fun _ => True) w
                ltac:(intros k _; reflexivity)
                (writes_checkUrlSafety url)) as [Hs _].
    apply Hs. exact Hkey.
  - intros key Hkey Hsafety.
    destruct (run_meets N (writes_only (redirect_keys url))
                (same_outside (redirect_keys url) (cache w))
                (exec_keeps_outside _ (cache w))
                (checkRedirects R url) (fun _ => True) w
                ltac:(intros k _; reflexivity)
                (writes_checkRedirects url)) as [Hs _].
    apply Hs. intros [-> | [v ->]]; [apply Hkey | apply (Hsafety v)]; reflexivity.
Qed.

End Frame.

(** * Properties of the page *)

(** ** The batches *)

Lemma make_batches_eq (urlList : list string) (i : nat) :
  make_batches urlList i =
  if (i <? length urlList)%nat
  then slice urlList i (i + BATCH_SIZE) :: make_batches urlList (i + BATCH_SIZE)
  else [].
Proof.
  funelim (make_batches urlList i); rewrite Hloop; reflexivity.
Qed.

Lemma make_batches_from (urlList : list string) (i : nat) :
  make_batches urlList i = (fun u => [u]) <$> drop i urlList.
Proof.
  funelim (make_batches urlList i).
  - pose proof (proj1 (Nat.ltb_lt _ _) Hloop) as Hlt. rewrite H.
    unfold slice, BATCH_SIZE.
    replace (i + 1 - i)%nat with 1%nat by lia.
    rewrite <- (drop_drop urlList 1 i).
    destruct (drop i urlList) as [| u rest] eqn:Hd.
    + apply (f_equal length) in Hd. rewrite length_drop in Hd.
      cbn in Hd. lia.
    + reflexivity.
  - pose proof (proj1 (Nat.ltb_ge _ _) Hloop) as Hge.
    rewrite drop_ge by lia. reflexivity.
Qed.

Lemma concat_singletons {A} (l : list A) :
  concat ((fun u => [u]) <$> l) = l.
Proof.
  induction l as [| u rest IH]; cbn; [reflexivity |]. f_equal. exact IH.
Qed.

(** X13. The page cuts the list of URLs into batches of exactly one URL
    each, in order: the batches put together are the list, and there are
    as many requests as URLs. *)
Theorem batches_partition_the_list (urlList : list string) :
  concat (make_batches urlList 0) = urlList
  /\ Forall (fun batch => length batch = BATCH_SIZE) (make_batches urlList 0)
  /\ length (make_batches urlList 0) = length urlList
  /\ make_batches urlList 0 = (fun u => [u]) <$> urlList.
Proof.
  rewrite make_batches_from, drop_0.
  split; [| split; [| split]].
  - apply concat_singletons.
  - apply Forall_fmap, Forall_forall. intros u _. reflexivity.
  - apply length_fmap.
  - reflexivity.
Qed.

(** The URLs of the list are lines of the text, trimmed, and none is
    empty. *)
Lemma url_list_nonempty (B : browser) (urls : string) :
  Forall (fun u => u <> "") (url_list B urls).
Proof.
  unfold url_list. apply Forall_forall. intros u Hu.
  apply list_elem_of_In, filter_In in Hu as [_ Hu].
  apply negb_true_iff, String.eqb_neq in Hu. exact Hu.
Qed.

Section PageFacts.

Context {A Srv : Type} (B : browser) (fetch : list string -> Srv -> fetched A * Srv).

(** X14. When the text holds no URL (it is empty, or all its lines are
    blank once trimmed), the page shows [Please enter at least one URL],
    shows no row, leaves the loading state, and sends nothing to the
    server. *)
Theorem empty_input_sends_nothing (urls : string) (s : Srv) :
  url_list B urls = [] ->
  handleCheckUrls B fetch urls s
  = ({| results := []; loading := false;
        error := "Please enter at least one URL";
        page_progress := Percent 0 |}, s).
Proof.
  intros Hempty. unfold handleCheckUrls. rewrite Hempty. reflexivity.
Qed.

(** The loop keeps the flags of the page and shows what it has
    accumulated. *)
Lemma send_keeps (batches : list (list string)) (i total : nat)
    (allResults : list A) (p : page A) (s : Srv) :
  let '(thrown, p', s') := send B fetch batches i total allResults p s in
  loading p' = loading p /\ error p' = error p.
Proof.
  revert i allResults p s.
  induction batches as [| batch rest IH]; intros i allResults p s; cbn [send].
  - split; reflexivity.
  - destruct (fetch batch s) as [[msg | data |] s1]; try (split; reflexivity).
    specialize (IH (Datatypes.S i) (allResults ++ data)
                  {| results := allResults ++ data; loading := loading p;
                     error := error p;
                     page_progress := Quotient (Datatypes.S i) total |} s1).
    destruct (send B fetch rest _ _ _ _ s1) as [[thrown p'] s'].
    exact IH.
Qed.

(** X15. The loop over the batches stops at the first answer that is not
    an array: when the batches before it were answered and the fetch of a
    batch fails, the page keeps the rows of the batches before, the loop
    ends with the message of the failure, and no later batch is sent. *)
Theorem send_stops_at_first_failure
    (before after : list (list string)) (batch : list string)
    (i total : nat) (allResults : list A) (p p1 : page A) (s s1 : Srv)
    (msg : string) :
  send B fetch before i total allResults p s = (None, p1, s1) ->
  fetch_failure B (fst (fetch batch s1)) = Some msg ->
  send B fetch (before ++ batch :: after) i total allResults p s
  = (Some msg, p1, snd (fetch batch s1)).
Proof.
  revert i allResults p s.
  induction before as [| b rest IH]; intros i allResults p s Hbefore Hfail.
  - cbn [send] in Hbefore. injection Hbefore as -> ->.
    cbn [app send]. destruct (fetch batch s1) as [[m | data |] s2];
      cbn in Hfail; try discriminate; injection Hfail as <-; reflexivity.
  - cbn [app send] in *.
    destruct (fetch b s) as [[m | data |] s2]; try discriminate.
    apply IH; assumption.
Qed.

(** X16. Whatever the server answers, [handleCheckUrls] leaves the loading
    state; when the text holds a URL it ends with the progress at 100, and
    its error is empty or is [Failed to check URLs: ] followed by the
    message of the exception. *)
Theorem page_always_stops_loading (urls : string) (s : Srv) :
  let p := fst (handleCheckUrls B fetch urls s) in
  loading p = false
  /\ (if (length (url_list B urls) =? 0)%nat
      then error p = "Please enter at least one URL" /\ results p = []
      else page_progress p = Percent 100
           /\ (error p = ""
               \/ exists msg, error p = "Failed to check URLs: " +:+ msg)).
Proof.
  unfold handleCheckUrls.
  destruct (length (url_list B urls) =? 0)%nat; [repeat split |].
  match goal with
  | |- context [send B fetch ?bs ?i ?t ?a ?p0 s] =>
      pose proof (send_keeps bs i t a p0 s) as Hk;
      destruct (send B fetch bs i t a p0 s) as [[thrown p'] s']
  end.
  cbn [fst loading page_progress error]. destruct Hk as [_ Herr].
  split; [reflexivity |]. split; [reflexivity |].
  destruct thrown as [msg |]; [right; eauto | left; exact Herr].
Qed.

End PageFacts.

(** ** The page and the server together *)

Section EndToEnd.

Context (N : outside) (R : runtime) (B : browser).

Lemma serve_answers (batch : list string) (s : world * list schedule) :
  exists data s',
    serve N R batch s = (FetchArray data, s')
    /\ url <$> data = JStr <$> batch.
Proof.
  unfold serve.
  destruct (handler_on_array N R (List.hd [] (snd s)) (JStr <$> batch) (fst s))
    as (results & w' & Hh & Hurl).
  rewrite Hh. eauto.
Qed.

Lemma send_to_server (batches : list (list string)) (i total : nat)
    (allResults : list UrlCheckResult) (p : page UrlCheckResult)
    (s : world * list schedule) :
  results p = allResults ->
  exists p' s',
    send B (serve N R) batches i total allResults p s = (None, p', s')
    /\ url <$> results p' = (url <$> allResults) ++ (JStr <$> concat batches)
    /\ error p' = error p.
Proof.
  revert i allResults p s.
  induction batches as [| batch rest IH]; intros i allResults p s Hp;
    cbn [send concat].
  - exists p, s. rewrite Hp, fmap_nil, app_nil_r. repeat split.
  - destruct (serve_answers batch s) as (data & s1 & Hs & Hurl).
    rewrite Hs.
    destruct (IH (Datatypes.S i) (allResults ++ data)
                {| results := allResults ++ data; loading := loading p;
                   error := error p;
                   page_progress := Quotient (Datatypes.S i) total |} s1
                eq_refl) as (p' & s' & Hsend & Hres & Herr).
    exists p', s'. split; [exact Hsend |]. split; [| exact Herr].
    rewrite Hres, !fmap_app, Hurl, <- app_assoc. reflexivity.
Qed.

(** X17. The page against this server: when the text holds at least one
    URL, the page ends with one row per line that is not blank, in the
    order of the text, each with its URL, without error and out of the
    loading state -- whatever the services answer and whatever the
    schedules of the server. *)
Theorem page_shows_one_row_per_line
    (urls : string) (w : world) (scheds : list schedule) :
  url_list B urls <> [] ->
  let p := fst (handleCheckUrls B (serve N R) urls (w, scheds)) in
  url <$> results p = JStr <$> url_list B urls
  /\ error p = ""
  /\ loading p = false
  /\ page_progress p = Percent 100.
Proof.
  intros Hne. unfold handleCheckUrls.
  destruct (url_list B urls) as [| u rest] eqn:Hl; [contradiction |].
  cbn [length Nat.eqb].
  match goal with
  | |- context [send B (serve N R) ?bs ?i ?t [] ?p0 (w, scheds)] =>
      destruct (send_to_server bs i t [] p0 (w, scheds) eq_refl)
        as (p' & s' & Hsend & Hres & Herr);
      rewrite Hsend
  end.
  cbn [fst results error loading page_progress] in *.
  rewrite Hres, make_batches_from, drop_0, concat_singletons.
  repeat split; assumption.
Qed.

(** X18. The table, for the results of this server in any reachable state:
    no cell shows [N/A]; the cell of the redirects says [Yes] when the
    status of the redirect result is [suspicious] and [No] otherwise (also
    for a check that failed), followed by the status codes; with the
    client of line 75, which follows redirects itself, it always says
    [No], with at most one status code, also for a URL that redirects to
    a flagged one; the cell of the safety says [Yes] exactly when the
    count of positives is positive, which only a result with status
    [unsafe] has. *)
Theorem table_cells_of_server_results
    (w : world) (pool : list task) (sched : schedule) (urls : jsval)
    (rows : list UrlCheckResult) (result : UrlCheckResult) :
  reachable N R w pool ->
  fst (handler N R sched urls w) = Status200 rows ->
  result ∈ rows ->
  fst (redirects_cell result)
  = (if String.eqb (Redirect.status (redirects result)) "suspicious"
     then "Yes" else "No")
      +:+ " (Status codes: "
      +:+ join_codes (Redirect.status_codes (redirects result)) +:+ ")"
  /\ (client_follows_redirects N ->
      fst (redirects_cell result)
      = "No (Status codes: "
          +:+ join_codes (Redirect.status_codes (redirects result)) +:+ ")"
      /\ (length (Redirect.status_codes (redirects result)) <= 1)%nat)
  /\ fst (flagged_cell result)
     = (if gt_zero (Safety.positives (safety result)) then "Yes" else "No")
  /\ (fst (flagged_cell result) = "Yes" ->
      Safety.status (safety result) = "unsafe").
Proof.
  intros Hreach Hrows Hin.
  destruct (reachable_good R N w pool Hreach) as (_ & _ & _ & _ & Hh).
  destruct (Hh sched urls rows Hrows result Hin) as [Hs Hr].
  unfold redirects_cell, flagged_cell. cbn [fst].
  split; [| split; [| split]].
  - destruct Hr as [(_ & _ & _ & Hstatus & _) | (Hst & _ & Hlen & _)].
    + rewrite Hstatus. destruct (flagged (redirects result)); reflexivity.
    + rewrite Hst. reflexivity.
  - intros client.
    destruct (reachable_plain N R client w pool Hreach) as (_ & _ & Hp).
    destruct (Hp sched urls rows Hrows result Hin)
      as [(Hst & _ & _ & Hcodes & _) | [(Hst & _ & _ & Hcodes & _) _]];
      rewrite Hst, Hcodes; split; try reflexivity; cbn; lia.
  - destruct Hs as [[msg ->] | [d ->]]; [reflexivity |].
    unfold scan_result. cbn.
    destruct (strict_eq (rep_positives d) 0); reflexivity.
  - destruct Hs as [[msg ->] | [d ->]]; [cbn; discriminate |].
    unfold scan_result. cbn.
    destruct (rep_positives d) as [n |]; cbn.
    + destruct (Z.eqb_spec n 0) as [-> | Hn]; cbn; [discriminate | reflexivity].
    + reflexivity.
Qed.

End EndToEnd.

(** X14, on a concrete text: three blank lines. *)
Lemma empty_input_sends_nothing_witness :
  handleCheckUrls DemoPage.browser DemoPage.flaky
    (DemoPage.lines [""; ""; ""]) 0%nat
  = ({| results := []; loading := false;
        error := "Please enter at least one URL";
        page_progress := Percent 0 |}, 0%nat).
Proof.
  apply (empty_input_sends_nothing DemoPage.browser DemoPage.flaky).
  reflexivity.
Defined.

(** X15, on a concrete run: the first batch is answered, the second is
    not, the third is never sent. *)
Lemma send_stops_at_first_failure_witness :
  let p0 := {| results := []; loading := true; error := "";
               page_progress := Percent 0 |} in
  send DemoPage.browser DemoPage.flaky ([["a"]] ++ ["b"] :: [["c"]]) 0 3 [] p0 0%nat
  = (Some "Failed to fetch",
     {| results := ["a"]; loading := true; error := "";
        page_progress := Quotient 1 3 |},
     2%nat).
Proof.
  intros p0.
  apply (send_stops_at_first_failure DemoPage.browser DemoPage.flaky
           [["a"]] [["c"]] ["b"] 0 3 [] p0
           {| results := ["a"]; loading := true; error := "";
              page_progress := Quotient 1 3 |} 0%nat 1%nat "Failed to fetch").
  - reflexivity.
  - reflexivity.
Defined.

(** X17, on a concrete text: two lines and a blank one between them, the
    first of which is not a URL. *)
Lemma page_shows_one_row_per_line_witness :
  let urls := DemoPage.lines ["not-a-url"; ""; "http://a/"] in
  let p := fst (handleCheckUrls DemoPage.browser
                  (serve Demo.endless Demo.runtime) urls (boot, [])) in
  url <$> results p = [JStr "not-a-url"; JStr "http://a/"]
  /\ error p = ""
  /\ loading p = false
  /\ page_progress p = Percent 100.
Proof.
  intros urls.
  apply (page_shows_one_row_per_line Demo.endless Demo.runtime
           DemoPage.browser urls boot []).
  vm_compute. discriminate.
Defined.

(** X18, on a concrete run: the row of a URL that is flagged; the client
    has followed whatever redirects there were and hands the response of
    the last one, 200, to the code. *)
Lemma table_cells_of_server_results_witness :
  let answers :=
    [Demo.ok 200 None no_report;
     Demo.ok 200 None {| response_code := Some 1;
                         rep_positives := Some 3;
                         rep_total := Some 70 |};
     Demo.ok 200 None no_report] in
  let N := Demo.scripted answers (fun _ => 0) in
  exists result,
    fst (handler N Demo.runtime [] (JArr [JStr "http://redir/a"]) boot)
    = Status200 [result]
    /\ fst (redirects_cell result) = "No (Status codes: 200)"
    /\ fst (flagged_cell result) = "Yes".
Proof.
  intros answers N.
  destruct (handler N Demo.runtime [] (JArr [JStr "http://redir/a"]) boot)
    as [rep w'] eqn:Hh.
  assert (Hrep : exists result, rep = Status200 [result]
                                /\ Redirect.status_codes (redirects result)
                                   = [200]
                                /\ Safety.positives (safety result) = Some 3).
  { vm_compute in Hh. injection Hh as <- _. eexists. repeat split. }
  destruct Hrep as (result & -> & Hcodes & Hpos).
  exists result. split; [reflexivity |].
  destruct (table_cells_of_server_results N Demo.runtime boot []
              [] (JArr [JStr "http://redir/a"]) [result] result
              (reach_boot N Demo.runtime)) as (_ & Hr & Hf & _).
  - rewrite Hh. reflexivity.
  - apply list_elem_of_singleton. reflexivity.
  - destruct (Hr (scripted_follows_redirects answers (fun _ => 0) eq_refl))
      as [Hcell _].
    rewrite Hcell, Hf, Hcodes, Hpos. split; reflexivity.
Defined.

(** X19, on a concrete run: the first call finds the cache empty and a
    complete report, the second call reads the entry that the first
    stored. *)
Lemma second_call_repeats_first_witness :
  let clean := {| response_code := Some 1; rep_positives := Some 0;
                  rep_total := Some 70 |} in
  let N := Demo.scripted [Demo.ok 200 None no_report;
                          Demo.ok 200 None clean] (fun _ => 0) in
  let u := JStr "http://a/" in
  let first := run N (checkUrlSafety Demo.runtime u) boot in
  let second := run N (checkUrlSafety Demo.runtime u) (snd first) in
  fst second = fst first
  /\ (submissions (sent (snd second)) <= submissions (sent boot) + 1)%nat.
Proof.
  intros clean N u.
  apply (second_call_repeats_first N Demo.runtime u
           {| data := DSafety (scan_result clean); timestamp := 0 |} boot).
  - vm_compute. reflexivity.
  - vm_compute. reflexivity.
Defined.

(** X8, on a concrete run: the client has followed the redirects of the
    URL and hands the response of the last one, 200, to the code. *)
Lemma traversal_calls_client_once_per_url_witness :
  let N := Demo.scripted [Demo.ok 200 None no_report] (fun _ => 0) in
  let u := JStr "http://redir.example/a" in
  collected (fst (run N (traverse Demo.runtime u) boot)) = [u]
  /\ sent (snd (run N (traverse Demo.runtime u) boot)) = sent boot ++ [Get u].
Proof.
  intros N u.
  apply (traversal_calls_client_once_per_url N Demo.runtime u boot).
  apply (scripted_follows_redirects [Demo.ok 200 None no_report] (fun _ => 0)).
  reflexivity.
Defined.
